(** * synapse: the permission-rule engine and the dispatch reactor

    A shallow embedding of [synapse/lib/userauth.py] (classes [Rules] and
    [UserAuth]) and [synapse/reactor.py] (class [Reactor]), with the
    properties their design document states about them.

    Python objects that are shared and mutated ([Rules] instances, held both
    by the [KeyCache] of the [UserAuth] and by the handlers registered on its
    event bus) live in an explicit heap inside the [UserAuth] state and are
    referred to by index.  Exceptions are values of type [exc]; an operation
    that raises keeps the state as mutated up to the [raise].

    The cortex, the event bus and the caches of [synapse.lib.cache] are
    used by these classes and are not among the sources at hand; they are
    modelled from the design document, each under a comment that says so.
    [setUserProp] and [setRoleProp], which only pass a property on to the
    cortex, are left out. *)

From Stdlib Require Import Ascii String.
From Stdlib Require DecimalString.
From stdpp Require Import base option list gmap strings fin_maps.

Local Open Scope string_scope.
Local Open Scope list_scope.

(** ** Exceptions and results *)

Inductive exc : Type :=
  | NoSuchUser (user : string)
  | NoSuchRole (role : string)
  | DupUser (user : string)
  | DupRole (role : string)
  | NoSuchAct (name : string)
  | NameError (name : string)
  | TypeError.

Inductive res (A : Type) : Type :=
  | Ok (a : A)
  | Raise (e : exc).
Arguments Ok {A} a.
Arguments Raise {A} e.

(** ** [fnmatch.fnmatch] of the Python standard library

    [Rules.allow] decides with [fnmatch.fnmatch(perm, rule)].  On a POSIX
    system [os.path.normcase] is the identity, so the call is
    [fnmatchcase]: the pattern is cut into pieces by [translate] and the
    whole name must match the pieces.  The pieces are what the regular
    expression built by [translate] stands for: [.*] for ["*"], [.] for
    ["?"], a character set for ["[seq]"] and ["[!seq]"], the character
    itself otherwise.  Strings are strings of bytes here.  The sets are
    read as Python 3.11 reads them: a range whose end is below its start
    is removed from the set before the set is looked at, so that a ["!"]
    which comes to stand first negates the set.  Earlier versions refuse
    to compile a pattern with such a range. *)

Module Fnmatch.

(** The pieces of a translated pattern. A set lists character ranges; a
    single character [c] is the range [(c, c)]. *)
Inductive tok : Type :=
  | Star
  | AnyChar
  | Lit (c : ascii)
  | CharSet (neg : bool) (items : list (ascii * ascii)).

Definition is_char (x c : ascii) : bool := bool_decide (x = c).

(** [while j < n and pat[j] != ']': j = j+1], counted from the start of
    [s]; [None] is [j >= n]. *)
Fixpoint find_rbracket (s : list ascii) : option nat :=
  match s with
  | [] => None
  | c :: s' => if is_char "]" c then Some 0 else S <$> find_rbracket s'
  end.

(** The scan after a ["["]: an optional ["!"], then an optional ["]"],
    then up to the next ["]"].  The result is [j - i]. *)
Definition close_bracket (rest : list ascii) : option nat :=
  let j1 := match rest with c :: _ => if is_char "!" c then 1 else 0 | [] => 0 end in
  let j2 := match drop j1 rest with c :: _ => if is_char "]" c then S j1 else j1 | [] => j1 end in
  (λ k, j2 + k) <$> find_rbracket (drop j2 rest).

(** The members of a set: a character, or a range [lo-hi]. *)
Inductive item : Type :=
  | One (c : ascii)
  | Range (lo hi : ascii).

(** The members of [stuff] in the order they are written: [c-d] is a
    range, a ["-"] that is first or last is itself, and so is a ["-"]
    right behind a range ([translate] looks for the next range from
    [k+3] on). *)
Fixpoint class_items (s : list ascii) : list item :=
  match s with
  | [] => []
  | c :: s1 =>
      match s1 with
      | [] => [One c]
      | m :: s2 =>
          if is_char "-" m then
            match s2 with
            | [] => [One c; One m]
            | d :: s3 => Range c d :: class_items s3
            end
          else One c :: class_items s1
      end
  end.

(** [chunks[k-1][-1] > chunks[k][0]]: a range whose end is below its
    start. *)
Definition empty_range (it : item) : bool :=
  match it with
  | One _ => false
  | Range lo hi => (nat_of_ascii hi <? nat_of_ascii lo)%nat
  end.

(** "Remove empty ranges -- invalid in RE": both ends of such a range
    leave [stuff]. *)
Definition live (its : list item) : list item :=
  List.filter (λ it, negb (empty_range it)) its.

Definition item_range (it : item) : ascii * ascii :=
  match it with
  | One c => (c, c)
  | Range lo hi => (lo, hi)
  end.

(** [stuff = pat[i:j]] and what the regular expression made of it stands
    for.  A ["!"] that is first negates the set.  It is looked for in
    [stuff] after the empty ranges have left, so that a ["!"] behind
    leading empty ranges negates the set as well; when that ["!"] was the
    start of a range [!-d], the ["-"] and [d] behind it are then members
    by themselves.  [stuff] without a member left matches nothing, or
    every character when negated. *)
Definition char_set (stuff : list ascii) : tok :=
  match stuff with
  | [] => CharSet false []
  | c :: stuff' =>
      if is_char "!" c then CharSet true (item_range <$> live (class_items stuff'))
      else
        match live (class_items stuff) with
        | [] => CharSet false []
        | One c' :: its =>
            if is_char "!" c' then CharSet true (item_range <$> its)
            else CharSet false (item_range <$> One c' :: its)
        | Range lo hi :: its =>
            if is_char "!" lo
            then CharSet true (item_range <$> One "-" :: One hi :: its)
            else CharSet false (item_range <$> Range lo hi :: its)
        end
  end.

(** [translate]: the [while i < n] loop.  [skip] counts the characters
    still to pass over after a set was read ([i = j+1]). *)
Fixpoint translate_from (skip : nat) (pat : list ascii) : list tok :=
  match pat with
  | [] => []
  | c :: rest =>
      match skip with
      | S k => translate_from k rest
      | O =>
          if is_char "*" c then Star :: translate_from 0 rest
          else if is_char "?" c then AnyChar :: translate_from 0 rest
          else if is_char "[" c then
            match close_bracket rest with
            | None => Lit c :: translate_from 0 rest
            | Some j => char_set (take j rest) :: translate_from (S j) rest
            end
          else Lit c :: translate_from 0 rest
      end
  end.

Definition translate (pat : string) : list tok :=
  translate_from 0 (list_ascii_of_string pat).

Definition in_range (c : ascii) (r : ascii * ascii) : bool :=
  (nat_of_ascii r.1 <=? nat_of_ascii c)%nat && (nat_of_ascii c <=? nat_of_ascii r.2)%nat.

Definition in_set (neg : bool) (items : list (ascii * ascii)) (c : ascii) : bool :=
  xorb neg (existsb (in_range c) items).

(** Matching a whole name against the pieces. *)
Fixpoint match_toks (ts : list tok) (s : list ascii) {struct ts} : bool :=
  match ts with
  | [] => match s with [] => true | _ :: _ => false end
  | Star :: ts' =>
      (fix star (s : list ascii) : bool :=
         match_toks ts' s || match s with [] => false | _ :: s' => star s' end) s
  | AnyChar :: ts' =>
      match s with [] => false | _ :: s' => match_toks ts' s' end
  | Lit c :: ts' =>
      match s with [] => false | x :: s' => is_char c x && match_toks ts' s' end
  | CharSet neg items :: ts' =>
      match s with [] => false | x :: s' => in_set neg items x && match_toks ts' s' end
  end.

Definition fnmatch (name pat : string) : bool :=
  match_toks (translate pat) (list_ascii_of_string name).

(** Shell-glob semantics, as a relation: [*] stands for any run of
    characters, [?] for any one character, a set for one of its
    members, every other character for itself. *)
Inductive globs : list tok → list ascii → Prop :=
  | globs_nil : globs [] []
  | globs_star ts run s : globs ts s → globs (Star :: ts) (run ++ s)
  | globs_any ts x s : globs ts s → globs (AnyChar :: ts) (x :: s)
  | globs_lit ts c s : globs ts s → globs (Lit c :: ts) (c :: s)
  | globs_set ts neg items x s :
      in_set neg items x = true → globs ts s → globs (CharSet neg items :: ts) (x :: s).

Definition glob_match (pat name : string) : Prop :=
  globs (translate pat) (list_ascii_of_string name).

End Fnmatch.

(** ** Shell globs

    What the design document means by a rule that glob-matches a
    permission, written on the characters of the rule and without
    reference to [Fnmatch]. *)

Module Glob.

(** Modelled from the spec: the body of a set ends at the first ["]"];
    this gives the characters in front of it and those behind it. *)
Fixpoint upto_rbracket (s : list ascii) : option (list ascii * list ascii) :=
  match s with
  | [] => None
  | c :: s' =>
      if bool_decide (c = "]"%char) then Some ([], s')
      else match upto_rbracket s' with
           | Some (body, pat) => Some (c :: body, pat)
           | None => None
           end
  end.

(** Modelled from the spec: what stands behind a ["["] in a pattern of
    the shell: whether the set is negated (["[!seq]"]), its body [seq]
    and the pattern behind the closing ["]"].  The first character of
    the body is a member even when it is ["]"].  [None] when no ["]"]
    closes the set. *)
Definition bracket (rest : list ascii) : option (bool * list ascii * list ascii) :=
  match rest with
  | [] => None
  | c :: rest1 =>
      if bool_decide (c = "!"%char) then
        match rest1 with
        | [] => None
        | c' :: rest2 =>
            match upto_rbracket rest2 with
            | Some (body, pat) => Some (true, c' :: body, pat)
            | None => None
            end
        end
      else
        match upto_rbracket rest1 with
        | Some (body, pat) => Some (false, c :: body, pat)
        | None => None
        end
  end.

(** The order of the characters. *)
Definition char_le (a b : ascii) : Prop := (nat_of_ascii a ≤ nat_of_ascii b)%nat.

#[global] Instance char_le_dec a b : Decision (char_le a b).
Proof. unfold char_le. apply _. Defined.

(** What is behind a character that starts a range: ["-"] and the end of
    the range. *)
Definition range_tail (rest : list ascii) : Prop :=
  ∃ hi rest', rest = "-"%char :: hi :: rest'.

(** Modelled from the spec: the characters a set body stands for. The
    body is read from the left; [lo-hi] stands for the characters from
    [lo] to [hi], any other character for itself. *)
Inductive in_body (x : ascii) : list ascii → Prop :=
  | in_range lo hi rest :
      char_le lo x → char_le x hi → in_body x (lo :: "-"%char :: hi :: rest)
  | behind_range lo hi rest :
      in_body x rest → in_body x (lo :: "-"%char :: hi :: rest)
  | in_one rest :
      ¬ range_tail rest → in_body x (x :: rest)
  | behind_one c rest :
      ¬ range_tail rest → in_body x rest → in_body x (c :: rest).

(** ["[seq]"] matches a character in [seq], ["[!seq]"] one that is not. *)
Definition member (neg : bool) (body : list ascii) (x : ascii) : Prop :=
  if neg then ¬ in_body x body else in_body x body.

(** Modelled from the spec: "glob-matches ... ([*] = any run of
    characters, following shell-glob semantics, not regex)".  The whole
    name is matched: ["*"] stands for any run of characters, ["?"] for
    any one character, a set for one of its members, a ["["] that opens
    no set and every other character for itself. *)
Inductive matches : list ascii → list ascii → Prop :=
  | matches_nil : matches [] []
  | matches_star pat run s :
      matches pat s → matches ("*"%char :: pat) (run ++ s)
  | matches_any pat x s :
      matches pat s → matches ("?"%char :: pat) (x :: s)
  | matches_set rest neg body pat x s :
      bracket rest = Some (neg, body, pat) → member neg body x → matches pat s →
      matches ("["%char :: rest) (x :: s)
  | matches_open rest s :
      bracket rest = None → matches rest s →
      matches ("["%char :: rest) ("["%char :: s)
  | matches_char c pat s :
      c ≠ "*"%char → c ≠ "?"%char → c ≠ "["%char → matches pat s →
      matches (c :: pat) (c :: s).

Definition glob_match (pat name : string) : Prop :=
  matches (list_ascii_of_string pat) (list_ascii_of_string name).




End Glob.

(** ** class Rules *)

Record Rules : Type := mkRules {
  user : string;
  cache : gmap string bool;
  (** [None] is Python's [None] *)
  rules : option (list string);
}.

(** The [for rule in self.rules] loop with its [break]. *)
Fixpoint scan_rules (perm : string) (rs : list string) : bool :=
  match rs with
  | [] => false
  | rule :: rs' => if Fnmatch.fnmatch perm rule then true else scan_rules perm rs'
  end.

Definition allow (self : Rules) (perm : string) : res bool * Rules :=
  match cache self !! perm with
  | Some ret => (Ok ret, self)
  | None =>
      match rules self with
      | None => (Raise TypeError, self)
      | Some rs =>
          let ret := scan_rules perm rs in
          (Ok ret, mkRules (user self) (<[perm := ret]> (cache self)) (rules self))
      end
  end.

(** A message of the bus, [(name, info)]; the values carried here are
    rule lists. *)
Definition mesg : Type := string * gmap string (list string).

(** [self.rules = mesg[1].get('rules')], [self.cache.clear()] *)
Definition _onBumpUser (self : Rules) (m : mesg) : res unit * Rules :=
  (Ok tt, mkRules (user self) ∅ (m.2 !! "rules")).

(** [self.rules = self.auth.getUserRules(user)]: the name [user] is bound
    neither in the method nor in the module, so evaluating the argument
    raises [NameError] before [getUserRules] is called and before
    anything is assigned or cleared. *)
Definition _onTeleSock (self : Rules) (m : mesg) : res unit * Rules :=
  (Raise (NameError "user"), self).

(** ** The cortex

    [synapse.cortex] is not part of the sources at hand; what [UserAuth]
    calls on its [core] is modelled from the design document. *)

(** Modelled from the spec: the tufo of [synapse.cortex], "a typed tuple"
    of an identity and a property mapping with properties named
    [form:prop].  [iden] stands for the guid drawn when the tufo is
    formed, here the number of the draw. *)
Definition tufo : Type := N * gmap string string.

(** Modelled from the spec: the state of a [synapse.cortex] store. It
    holds the tufos in store order and, per tufo and list name, the
    values of a list-valued property in insertion order. *)
Record Cortex : Type := mkCortex {
  tufos : list tufo;
  rows : gmap (N * string) (list string);
  nextiden : N;
}.

(** Modelled from the spec: [Cortex.getTufosByProp], the tufos that have
    the property with the value, "in the order returned by the store". *)
Definition getTufosByProp (c : Cortex) (prop valu : string) : list tufo :=
  filter (λ t : tufo, t.2 !! prop = Some valu) (tufos c).

(** Modelled from the spec: [Cortex.getTufoByProp], the first such tufo or
    [None]. *)
Definition getTufoByProp (c : Cortex) (prop valu : string) : option tufo :=
  head (getTufosByProp c prop valu).

(** Modelled from the spec: the properties [Cortex.formTufoByProp] gives a
    new tufo: its form, its primary property, and the keyword properties
    under the form's name space ("properties are namespaced
    [form:propname]"). *)
Definition form_props (form valu : string) (props : list (string * string))
    : gmap string string :=
  <["tufo:form" := form]>
    (<[form := valu]>
       (list_to_map ((λ kv, (form +:+ ":" +:+ kv.1, kv.2)) <$> props))).

(** Modelled from the spec: [Cortex.formTufoByProp], the tufo with the
    primary property if the store has one, a new tufo otherwise. *)
Definition formTufoByProp (c : Cortex) (form valu : string)
    (props : list (string * string)) : tufo * Cortex :=
  match getTufoByProp c form valu with
  | Some t => (t, c)
  | None =>
      let t := (nextiden c, form_props form valu props) in
      (t, mkCortex (tufos c ++ [t]) (rows c) (N.succ (nextiden c)))
  end.

(** Modelled from the spec: [Cortex.getTufoList], a new list with the
    values of a list-valued property of the tufo. *)
Definition getTufoList (c : Cortex) (t : tufo) (name : string) : list string :=
  default [] (rows c !! (t.1, name)).

(** Modelled from the spec: [Cortex.addTufoList], "append" of one value. *)
Definition addTufoList (c : Cortex) (t : tufo) (name valu : string) : Cortex :=
  mkCortex (tufos c) (<[(t.1, name) := getTufoList c t name ++ [valu]]> (rows c))
           (nextiden c).

(** Modelled from the spec: [Cortex.delTufoListValu], "remove" of one
    value: no entry of the list with that value stays. *)
Definition delTufoListValu (c : Cortex) (t : tufo) (name valu : string) : Cortex :=
  mkCortex (tufos c)
           (<[(t.1, name) :=
                filter (λ v, v ≠ valu) (getTufoList c t name)]>
              (rows c))
           (nextiden c).

(** Modelled from the spec: [Cortex.delTufo], the tufo with that identity
    and its lists leave the store. *)
Definition delTufo (c : Cortex) (t : tufo) : Cortex :=
  mkCortex (filter (λ x : tufo, x.1 ≠ t.1) (tufos c))
           (filter (λ kv, kv.1.1 ≠ t.1) (rows c))
           (nextiden c).

(** Modelled from the spec: [Cortex.delTufoByProp], which deletes the
    tufo [getTufoByProp] finds. *)
Definition delTufoByProp (c : Cortex) (form valu : string) : Cortex :=
  match getTufoByProp c form valu with
  | Some t => delTufo c t
  | None => c
  end.

(** Modelled from the spec: [Cortex.delTufosByProp], which deletes the
    tufos [getTufosByProp] finds. *)
Definition delTufosByProp (c : Cortex) (prop valu : string) : Cortex :=
  foldl delTufo c (getTufosByProp c prop valu).

(** ** The event bus

    [synapse.eventbus.EventBus], the base class of [UserAuth], is not part
    of the sources at hand.  The handlers registered in this program are
    bound methods of [Rules] instances; [OnBumpUser i] is [_onBumpUser]
    of the instance at index [i] of the heap, [OnTeleSock i] its
    [_onTeleSock]. *)

Inductive handler : Type :=
  | OnBumpUser (i : nat)
  | OnTeleSock (i : nat).

(** Modelled from the spec: the state of [synapse.eventbus.EventBus], the
    handlers subscribed to each topic in the order they subscribed.
    [fired] is the trace of the messages published so far. *)
Record EventBus : Type := mkEventBus {
  funcs : gmap string (list handler);
  fired : list mesg;
}.

(** Modelled from the spec: one step of the dispatch of
    [synapse.eventbus.EventBus], the call of a handler with the message.
    An exception of the handler does not reach the caller of [fire]; what
    the handler did to its instance before raising stays. *)
Definition call_handler (m : mesg) (hp : list Rules) (h : handler) : list Rules :=
  match h with
  | OnBumpUser i =>
      match hp !! i with
      | Some o => <[i := (_onBumpUser o m).2]> hp
      | None => hp
      end
  | OnTeleSock i =>
      match hp !! i with
      | Some o => <[i := (_onTeleSock o m).2]> hp
      | None => hp
      end
  end.

(** ** class UserAuth

    [users] and [roles] are the [TufoPropCache]s over the cortex.
    [rulescache] is the [KeyCache] named [rules] in the source; it holds,
    per user, the index in [heap] of the user's [Rules] instance.  [heap]
    has the [Rules] instances made so far; the cache and the handlers on
    the bus refer to the same instance by the same index. *)

Record UserAuth : Type := mkUserAuth {
  core : Cortex;
  users : gmap string tufo;
  roles : gmap string tufo;
  rulescache : gmap string nat;
  bus : EventBus;
  heap : list Rules;
}.

Definition set_core (c : Cortex) (s : UserAuth) : UserAuth :=
  mkUserAuth c (users s) (roles s) (rulescache s) (bus s) (heap s).
Definition set_users (u : gmap string tufo) (s : UserAuth) : UserAuth :=
  mkUserAuth (core s) u (roles s) (rulescache s) (bus s) (heap s).
Definition set_roles (r : gmap string tufo) (s : UserAuth) : UserAuth :=
  mkUserAuth (core s) (users s) r (rulescache s) (bus s) (heap s).
Definition set_rulescache (k : gmap string nat) (s : UserAuth) : UserAuth :=
  mkUserAuth (core s) (users s) (roles s) k (bus s) (heap s).
Definition set_bus (b : EventBus) (s : UserAuth) : UserAuth :=
  mkUserAuth (core s) (users s) (roles s) (rulescache s) b (heap s).
Definition set_heap (h : list Rules) (s : UserAuth) : UserAuth :=
  mkUserAuth (core s) (users s) (roles s) (rulescache s) (bus s) h.

(** Methods that may raise and mutate: the state after, and the result. *)
Definition M (A : Type) : Type := UserAuth → res A * UserAuth.

Definition ret {A} (a : A) : M A := λ s, (Ok a, s).
Definition raise {A} (e : exc) : M A := λ s, (Raise e, s).
Definition bind {A B} (m : M A) (k : A → M B) : M B :=
  λ s, match m s with
       | (Ok a, s') => k a s'
       | (Raise e, s') => (Raise e, s')
       end.
(** A method that only reads the state. *)
Definition reads {A} (f : UserAuth → res A) : M A := λ s, (f s, s).
(** A mutation that cannot fail. *)
Definition update (f : UserAuth → UserAuth) : M unit := λ s, (Ok tt, f s).

#[global] Instance M_ret : MRet M := @ret.
#[global] Instance M_bind : MBind M := λ A B k m, bind m k.

(** Modelled from the spec: [TufoPropCache.get] of [synapse.lib.cache],
    which is not part of the sources at hand. A name maps to the tufo put
    for it, and a name that is not cached is looked up in the cortex by
    the cache's property; "absence is a valid, checked result", [None]. *)
Definition tpc_get (cached : gmap string tufo) (c : Cortex) (prop name : string)
    : option tufo :=
  match cached !! name with
  | Some t => Some t
  | None => getTufoByProp c prop name
  end.

Definition users_get (s : UserAuth) (name : string) : option tufo :=
  tpc_get (users s) (core s) "auth:user" name.
Definition roles_get (s : UserAuth) (name : string) : option tufo :=
  tpc_get (roles s) (core s) "auth:role" name.

(** Modelled from the spec: [EventBus.on], "subscribe(topic, handler)":
    the handler is appended to the topic's list. *)
Definition on (name : string) (h : handler) (s : UserAuth) : UserAuth :=
  set_bus (mkEventBus (<[name := funcs (bus s) !!! name ++ [h]]> (funcs (bus s)))
                      (fired (bus s))) s.

(** Modelled from the spec: [EventBus.fire], "publish(topic, payload)":
    the message is built and handed, before [fire] returns, to each
    handler of the topic in turn ("cache invalidation is synchronous with
    the mutating call that triggered it"). *)
Definition fire (name : string) (info : gmap string (list string)) (s : UserAuth)
    : UserAuth :=
  let m := (name, info) in
  set_bus (mkEventBus (funcs (bus s)) (fired (bus s) ++ [m]))
    (set_heap (foldl (call_handler m) (heap s) (funcs (bus s) !!! name)) s).

Definition _reqUserTufo (s : UserAuth) (user : string) : res tufo :=
  match users_get s user with
  | None => Raise (NoSuchUser user)
  | Some usfo => Ok usfo
  end.

Definition _reqRoleTufo (s : UserAuth) (role : string) : res tufo :=
  match roles_get s role with
  | None => Raise (NoSuchRole role)
  | Some rofo => Ok rofo
  end.

Definition addUser (user : string) (props : list (string * string)) : M tufo :=
  λ s,
    match users_get s user with
    | Some _ => (Raise (DupUser user), s)
    | None =>
        let (usfo, c) := formTufoByProp (core s) "auth:user" user props in
        (Ok usfo, set_users (<[user := usfo]> (users s)) (set_core c s))
    end.

Definition getUser (s : UserAuth) (user : string) : option tufo :=
  users_get s user.

(** The method has a docstring and no statement: it returns [None]. *)
Definition getRole (s : UserAuth) (role : string) : option tufo := None.

Definition addRole (role : string) (props : list (string * string)) : M tufo :=
  λ s,
    match roles_get s role with
    | Some _ => (Raise (DupRole role), s)
    | None =>
        let (rofo, c) := formTufoByProp (core s) "auth:role" role props in
        (Ok rofo, set_roles (<[role := rofo]> (roles s)) (set_core c s))
    end.

(** [self.roles.get( userrole[1].get('auth:userrole:role') )] *)
Definition link_rofo (s : UserAuth) (userrole : tufo) : option tufo :=
  userrole.2 !! "auth:userrole:role" ≫= roles_get s.

(** The loop of [getUserRules]: [rules.extend(...)] for each link. A link
    whose role is not found gives [rofo = None], which the cortex cannot
    take the list of. *)
Fixpoint extend_roles (s : UserAuth) (userroles : list tufo) (rules : list string)
    : res (list string) :=
  match userroles with
  | [] => Ok rules
  | userrole :: rest =>
      match link_rofo s userrole with
      | None => Raise TypeError
      | Some rofo => extend_roles s rest (rules ++ getTufoList (core s) rofo "auth:rules")
      end
  end.

Definition getUserRules (s : UserAuth) (user : string) : res (list string) :=
  match _reqUserTufo s user with
  | Raise e => Raise e
  | Ok usfo =>
      extend_roles s (getTufosByProp (core s) "auth:userrole:user" user)
                   (getTufoList (core s) usfo "auth:rules")
  end.

Definition _bumpUserRules (user : string) : M unit :=
  rules ← reads (λ s, getUserRules s user);
  update (fire ("auth:bump:" +:+ user) {["rules" := rules]}).

Definition addUserRule (user rule : string) : M unit :=
  usfo ← reads (λ s, _reqUserTufo s user);
  update (λ s, set_core (addTufoList (core s) usfo "auth:rules" rule) s);;
  _bumpUserRules user.

Definition delUserRule (user rule : string) : M unit :=
  usfo ← reads (λ s, _reqUserTufo s user);
  update (λ s, set_core (delTufoListValu (core s) usfo "auth:rules" rule) s);;
  _bumpUserRules user.

Definition getUserRoles (s : UserAuth) (user : string) : res (list (option string)) :=
  match _reqUserTufo s user with
  | Raise e => Raise e
  | Ok usfo =>
      Ok ((λ u : tufo, u.2 !! "auth:userrole:role")
            <$> getTufosByProp (core s) "auth:userrole:user" user)
  end.

Definition addUserRole (user role : string) : M unit :=
  usfo ← reads (λ s, _reqUserTufo s user);
  rofo ← reads (λ s, _reqRoleTufo s role);
  update (λ s, set_core (formTufoByProp (core s) "auth:userrole" (user +:+ ":" +:+ role)
                           [("user", user); ("role", role)]).2 s);;
  _bumpUserRules user.

Definition delUserRole (user role : string) : M unit :=
  usfo ← reads (λ s, _reqUserTufo s user);
  rofo ← reads (λ s, _reqRoleTufo s role);
  update (λ s, set_core (delTufoByProp (core s) "auth:userrole" (user +:+ ":" +:+ role)) s);;
  _bumpUserRules user.

(** [self._bumpUserRules(user)] for a name read off a link with [.get]: a
    link without the property gives [None], which names no user. *)
Definition bump_linked (user : option string) : M unit :=
  match user with
  | Some u => _bumpUserRules u
  | None => raise (NoSuchUser "None")
  end.

Fixpoint bump_each (users : list (option string)) : M unit :=
  match users with
  | [] => ret tt
  | user :: rest => bump_linked user;; bump_each rest
  end.

Definition linked_users (s : UserAuth) (role : string) : list (option string) :=
  (λ u : tufo, u.2 !! "auth:userrole:user")
    <$> getTufosByProp (core s) "auth:userrole:role" role.

(** [for userrole in self.core.getTufosByProp('auth:userrole:role',role)]:
    the links are read once, before the first bump. *)
Definition bump_role_users (role : string) : M unit :=
  λ s, bump_each (linked_users s role) s.

Definition addRoleRule (role rule : string) : M unit :=
  rofo ← reads (λ s, _reqRoleTufo s role);
  update (λ s, set_core (addTufoList (core s) rofo "auth:rules" rule) s);;
  bump_role_users role.

Definition delRoleRule (role rule : string) : M unit :=
  rofo ← reads (λ s, _reqRoleTufo s role);
  update (λ s, set_core (delTufoListValu (core s) rofo "auth:rules" rule) s);;
  bump_role_users role.

Definition delUser (user : string) : M unit :=
  usfo ← reads (λ s, _reqUserTufo s user);
  update (λ s, set_core (delTufoByProp (core s) "auth:user" user) s);;
  update (λ s, set_core (delTufosByProp (core s) "auth:userrole:user" user) s);;
  update (λ s, set_users (delete user (users s)) s);;
  update (λ s, set_rulescache (delete user (rulescache s)) s).

Definition delRole (role : string) : M unit :=
  rofo ← reads (λ s, _reqRoleTufo s role);
  users ← reads (λ s, Ok (linked_users s role));
  update (λ s, set_core (delTufosByProp (core s) "auth:role" role) s);;
  update (λ s, set_core (delTufosByProp (core s) "auth:userrole:role" role) s);;
  update (λ s, set_roles (delete role (roles s)) s);;
  bump_each users.

(** [Rules.__init__(auth, user)]: the instance subscribes before it reads
    its rule list, so it stays subscribed when [getUserRules] raises. The
    result is the index of the new instance. *)
Definition Rules_init (user : string) : M nat :=
  λ s,
    let i := length (heap s) in
    let s1 := set_heap (heap s ++ [mkRules user ∅ None]) s in
    let s2 := on ("auth:bump:" +:+ user) (OnBumpUser i) s1 in
    let s3 := on "tele:sock:init" (OnTeleSock i) s2 in
    match getUserRules s3 user with
    | Raise e => (Raise e, s3)
    | Ok rs => (Ok i, set_heap (<[i := mkRules user ∅ (Some rs)]> (heap s3)) s3)
    end.

Definition _getUserRulesCache (user : string) : M nat := Rules_init user.

(** Modelled from the spec: [KeyCache.get] of [synapse.lib.cache], which
    is not part of the sources at hand, as called in
    [self.rules.get(user)]: the user's entry, "creating one on first use"
    with [_getUserRulesCache]; the new instance is cached once its
    constructor has returned. *)
Definition rulescache_get (user : string) : M nat :=
  λ s,
    match rulescache s !! user with
    | Some i => (Ok i, s)
    | None =>
        (i ← _getUserRulesCache user;
         update (λ s', set_rulescache (<[user := i]> (rulescache s')) s');;
         ret i) s
    end.

(** [rules.allow(perm)] on the instance at index [i]. An index handed out
    by [rulescache_get] is always allocated. *)
Definition Rules_allow (i : nat) (perm : string) : M bool :=
  λ s,
    match heap s !! i with
    | None => (Raise TypeError, s)
    | Some o => let (r, o') := allow o perm in (r, set_heap (<[i := o']> (heap s)) s)
    end.

Definition isUserAllowed (user perm : string) : M bool :=
  rules ← rulescache_get user;
  Rules_allow rules perm.

(** [UserAuth.__init__(core)]: empty caches over the given cortex and a
    bus without subscribers. The forms and properties the constructor
    declares to the data model of the cortex are not part of the state. *)
Definition UserAuth_init (c : Cortex) : UserAuth :=
  mkUserAuth c ∅ ∅ ∅ (mkEventBus ∅ []) [].

Definition empty_cortex : Cortex := mkCortex [] ∅ 0.

(** ** class Reactor *)

Module Reactor.
Section Reactor.
(** The properties a message carries and the results handlers return. *)
Context {P R : Type}.

Abbreviation func := (string * P → res R).

Record Reactor : Type := mkReactor { actfuncs : gmap string func }.

Definition init : Reactor := mkReactor ∅.

Definition act (self : Reactor) (name : string) (f : func) : Reactor :=
  mkReactor (<[name := f]> (actfuncs self)).

Definition react (self : Reactor) (mesg : string * P) : res R :=
  match actfuncs self !! mesg.1 with
  | None => Raise (NoSuchAct mesg.1)
  | Some f => f mesg
  end.
End Reactor.
Arguments Reactor : clear implicits.
End Reactor.

(** ** Calls

    The methods of [UserAuth] that change it, as data, and the state a
    call leaves behind, whether it returns or raises. *)

Inductive call : Type :=
  | AddUser (user : string) (props : list (string * string))
  | AddRole (role : string) (props : list (string * string))
  | AddUserRule (user rule : string)
  | DelUserRule (user rule : string)
  | AddRoleRule (role rule : string)
  | DelRoleRule (role rule : string)
  | AddUserRole (user role : string)
  | DelUserRole (user role : string)
  | DelUser (user : string)
  | DelRole (role : string)
  | IsUserAllowed (user perm : string).

Definition run {A} (m : M A) (s : UserAuth) : UserAuth := (m s).2.

Definition exec (s : UserAuth) (c : call) : UserAuth :=
  match c with
  | AddUser user props => run (addUser user props) s
  | AddRole role props => run (addRole role props) s
  | AddUserRule user rule => run (addUserRule user rule) s
  | DelUserRule user rule => run (delUserRule user rule) s
  | AddRoleRule role rule => run (addRoleRule role rule) s
  | DelRoleRule role rule => run (delRoleRule role rule) s
  | AddUserRole user role => run (addUserRole user role) s
  | DelUserRole user role => run (delUserRole user role) s
  | DelUser user => run (delUser user) s
  | DelRole role => run (delRole role) s
  | IsUserAllowed user perm => run (isUserAllowed user perm) s
  end.

(** ** Example stores *)

(** A user and a role on an empty cortex; the user holds the role, both
    have a rule, and the user has been checked once. *)
Definition demo_auth : UserAuth :=
  run (isUserAllowed "visi" "tufo.form.foo:bar")
    (run (addRoleRule "admin" "tufo.form.zzz:*")
       (run (addUserRole "visi" "admin")
          (run (addUserRule "visi" "tufo.form.foo:*")
             (run (addRole "admin" [])
                (run (addUser "visi" [("apikey", "secret")])
                   (UserAuth_init empty_cortex)))))).

Definition visi_usfo : tufo := (0%N, form_props "auth:user" "visi" [("apikey", "secret")]).
Definition admin_rofo : tufo := (1%N, form_props "auth:role" "admin" []).

(** A reconnect after a missed change: ["visi"] was denied ["foo.bar"], the
    rule ["foo.*"] then reached the cortex without a bump reaching this
    process, and the transport fires [tele:sock:init]. *)
Definition resync_auth : UserAuth :=
  let s1 := run (addUser "visi" []) (UserAuth_init empty_cortex) in
  let s2 := run (isUserAllowed "visi" "foo.bar") s1 in
  let usfo := (0%N, form_props "auth:user" "visi" []) in
  let s3 := set_core (addTufoList (core s2) usfo "auth:rules" "foo.*") s2 in
  fire "tele:sock:init" ∅ s3.

(** ** Invariants *)

(** Every cached decision of a [Rules] instance is the one its current
    rule list gives. *)
Definition coherent (self : Rules) : Prop :=
  ∀ perm ret, cache self !! perm = Some ret →
    ∃ rs, rules self = Some rs ∧ ret = scan_rules perm rs.


(** Every cached [Rules] instance is allocated and subscribed to the bump
    topic of its user. *)
Definition rulescache_ok (s : UserAuth) : Prop :=
  map_Forall (λ (u : string) (i : nat),
                i < length (heap s)
                ∧ OnBumpUser i ∈ funcs (bus s) !!! ("auth:bump:" +:+ u))
             (rulescache s).

(** The kinds of tufo the auth store keeps. *)
Definition is_user (t : tufo) : Prop := is_Some (t.2 !! "auth:user").
Definition is_role (t : tufo) : Prop := is_Some (t.2 !! "auth:role").
Definition is_link (t : tufo) : Prop :=
  is_Some (t.2 !! "auth:userrole")
  ∨ is_Some (t.2 !! "auth:userrole:user")
  ∨ is_Some (t.2 !! "auth:userrole:role").

(** The cortex draws a new identity for every tufo, and no tufo is both a
    user and a role. *)
Definition cortex_ok (c : Cortex) : Prop :=
  NoDup (tufos c).*1
  ∧ Forall (λ t : tufo, ¬ (is_user t ∧ is_role t)) (tufos c).

(** What the tufo caches hold is in the cortex, under the cached name. *)
Definition tufocache_ok (c : Cortex) (prop : string) (cached : gmap string tufo) : Prop :=
  map_Forall (λ (name : string) (t : tufo), t ∈ tufos c ∧ t.2 !! prop = Some name) cached.

Definition store_ok (s : UserAuth) : Prop :=
  cortex_ok (core s)
  ∧ tufocache_ok (core s) "auth:user" (users s)
  ∧ tufocache_ok (core s) "auth:role" (roles s).

(** Every link that names a user names a role that is found. *)
Definition links_ok (s : UserAuth) : Prop :=
  Forall (λ l : tufo, is_Some (l.2 !! "auth:userrole:user") → is_Some (link_rofo s l))
         (tufos (core s)).

(** The store as the methods of [UserAuth] keep it: in order, every
    identity drawn so far is below the next one, and a link is neither a
    user nor a role. *)
Definition stored_ok (s : UserAuth) : Prop :=
  store_ok s
  ∧ Forall (λ t : tufo, (t.1 < nextiden (core s))%N) (tufos (core s))
  ∧ Forall (λ t : tufo, is_link t → ¬ is_user t ∧ ¬ is_role t) (tufos (core s))
  ∧ links_ok s.

Definition auth_ok (s : UserAuth) : Prop := stored_ok s ∧ rulescache_ok s.

(** The role tufos of the links the store returns for a user, in the
    store's order; [None] when a link names no role that is found. *)
Definition held_rofos (s : UserAuth) (u : string) : option (list tufo) :=
  mapM (link_rofo s) (getTufosByProp (core s) "auth:userrole:user" u).

(** The instance at index [i] of the heap was handed the message [m] by
    [_onBumpUser]. *)
Definition bumped (m : mesg) (hp : list Rules) (i : nat) : Prop :=
  ∃ o, hp !! i = Some o ∧ cache o = ∅ ∧ rules o = m.2 !! "rules".

(** [c0] is [c] with the lists of the tufo [t] edited. *)
Definition edits_only (c c0 : Cortex) (t : tufo) : Prop :=
  tufos c0 = tufos c
  ∧ ∀ (t' : tufo) name, t'.1 ≠ t.1 → getTufoList c0 t' name = getTufoList c t' name.

(** The notifications an operation published: those in the trace of [s']
    behind the trace of [s]. *)
Definition published (s s' : UserAuth) : list mesg :=
  drop (length (fired (bus s))) (fired (bus s')).

Definition notified (s s' : UserAuth) (u : string) : Prop :=
  ∃ info, ("auth:bump:" +:+ u, info) ∈ published s s'.

#[global] Instance handler_eq_dec : EqDecision handler.
Proof. solve_decision. Defined.

#[global] Instance rulescache_ok_dec s : Decision (rulescache_ok s).
Proof. unfold rulescache_ok. apply _. Defined.

#[global] Instance store_ok_dec s : Decision (store_ok s).
Proof. unfold store_ok, cortex_ok, tufocache_ok, is_user, is_role. apply _. Defined.

(** ** More of the code: [synapse/common.py] *)

Module Common.

(** [str.split(sep)] for a separator of one character: the pieces between
    the separators, [['']] for the empty string. *)
Fixpoint split (sep : ascii) (s : string) : list string :=
  match s with
  | EmptyString => [EmptyString]
  | String c s' =>
      if bool_decide (c = sep) then EmptyString :: split sep s'
      else match split sep s' with
           | x :: xs => String c x :: xs
           | [] => [String c EmptyString]
           end
  end.

(** [sep.join(l)] *)
Fixpoint join (sep : string) (l : list string) : string :=
  match l with
  | [] => EmptyString
  | x :: xs => match xs with [] => x | _ :: _ => x +:+ sep +:+ join sep xs end
  end.

Section builtins.
(** The builtins [int] and [str] of the interpreter, on strings and on
    integers; [E] has the exceptions of [int]. *)
Context {E : Type}.
Variable py_int : string → E + Z.
Variable py_str : Z → string.

(** [[ int(x) for x in xs ]]: the first exception ends the comprehension. *)
Fixpoint ints (xs : list string) : E + list Z :=
  match xs with
  | [] => inr []
  | x :: xs' =>
      match py_int x with
      | inl e => inl e
      | inr z => match ints xs' with inl e => inl e | inr zs => inr (z :: zs) end
      end
  end.

(** [tuple([ int(x) for x in vstr.split('.') ])] *)
Definition vertup (vstr : string) : E + list Z := ints (split "." vstr).

(** ['.'.join([ str(v) for v in vtup ])] *)
Definition verstr (vtup : list Z) : string := join "." (py_str <$> vtup).
End builtins.

(** ['%s' % (x,)] for a string or [None] *)
Definition fmt_s (x : option string) : string := default "None" x.

(** [p.startswith(pref)] *)
Fixpoint startswith (pref p : string) : bool :=
  match pref with
  | EmptyString => true
  | String a pref' =>
      match p with
      | EmptyString => false
      | String b p' => bool_decide (a = b) && startswith pref' p'
      end
  end.

(** [p[n:]] *)
Fixpoint slice_from (n : nat) (p : string) : string :=
  match n with
  | O => p
  | S n' => match p with EmptyString => EmptyString | String _ p' => slice_from n' p' end
  end.

(** [tufoprops(tufo)]: the dict comprehension runs over the items of the
    property mapping. *)
Definition tufoprops (t : tufo) : gmap string string :=
  let form := t.2 !! "tufo:form" in
  let pref := fmt_s form +:+ ":" in
  let plen := String.length pref in
  map_fold (λ p v acc, if startswith pref p then <[slice_from plen p := v]> acc else acc)
           ∅ t.2.

(** [TufoApi.get(prop)] on [self.myfo] *)
Definition TufoApi_get (myfo : tufo) (prop : string) : option string :=
  let form := myfo.2 !! "tufo:form" in
  myfo.2 !! (fmt_s form +:+ ":" +:+ prop).

(** Whether the character occurs in the string. *)
Fixpoint has_char (c : ascii) (s : string) : bool :=
  match s with
  | EmptyString => false
  | String a s' => bool_decide (a = c) || has_char c s'
  end.

(** [str] and [int] on decimal numerals without sign or with ["-"], to
    run [vertup] and [verstr] on; [int] of anything else is refused. *)
Definition dec_str (z : Z) : string :=
  DecimalString.NilZero.string_of_int (Z.to_int z).
Definition dec_int (s : string) : unit + Z :=
  match DecimalString.NilZero.int_of_string s with
  | Some d => inr (Z.of_int d)
  | None => inl tt
  end.

End Common.

(** ** More of the code: sequences of calls *)

(** [rtor.act(name, func)] for each pair of a list, in order. *)
Definition act_all {P R : Type} (self : Reactor.Reactor P R)
    (regs : list (string * (string * P → res R))) : Reactor.Reactor P R :=
  foldl (λ r nf, Reactor.act r nf.1 nf.2) self regs.

(** [rules.allow(perm)] for each permission of a list, in order: the
    answers and the instance afterwards. *)
Fixpoint allows (self : Rules) (perms : list string) : list (res bool) * Rules :=
  match perms with
  | [] => ([], self)
  | perm :: rest =>
      let (r, self') := allow self perm in
      let (rs, self'') := allows self' rest in
      (r :: rs, self'')
  end.

(** ** More of the code: the states that calls lead to *)

(** A name without [":"]. The key of a link is [user:role], so that the
    user is what is in front of the first colon only for such names. *)
Definition colon_free (name : string) : bool := negb (Common.has_char ":" name).

(** Calls whose new user names have no colon. *)
Definition call_ok (c : call) : bool :=
  match c with
  | AddUser user _ => colon_free user
  | _ => true
  end.

(** The state after a sequence of calls on a [UserAuth] made on an empty
    cortex. *)
Definition after_calls (cs : list call) : UserAuth :=
  foldl exec (UserAuth_init empty_cortex) cs.

(** At most one tufo has a given value of the property. *)
Definition uniq (c : Cortex) (form : string) : Prop :=
  ∀ (t1 t2 : tufo) v, t1 ∈ tufos c → t2 ∈ tufos c →
    t1.2 !! form = Some v → t2.2 !! form = Some v → t1 = t2.

(** A link as [addUserRole] forms it, for a user that exists. *)
Definition link_shape (s : UserAuth) (l : tufo) : Prop :=
  ∃ u r, l.2 !! "auth:userrole" = Some (u +:+ ":" +:+ r)
         ∧ l.2 !! "auth:userrole:user" = Some u
         ∧ l.2 !! "auth:userrole:role" = Some r
         ∧ is_Some (users_get s u).

Definition names_ok (s : UserAuth) : Prop :=
  Forall (λ t : tufo, (∀ n, t.2 !! "auth:user" = Some n → colon_free n = true)
                      ∧ (is_link t → link_shape s t))
         (tufos (core s))
  ∧ uniq (core s) "auth:user"
  ∧ uniq (core s) "auth:role"
  ∧ uniq (core s) "auth:userrole".

(** A handler [_onBumpUser] is subscribed to the bump topic of the user of
    its instance. *)
Definition handlers_ok (s : UserAuth) : Prop :=
  ∀ name i, OnBumpUser i ∈ funcs (bus s) !!! name →
    ∃ o, heap s !! i = Some o ∧ name = "auth:bump:" +:+ user o.

(** The instance at index [i] has the effective rules of [u] and a cache
    that agrees with them. *)
Definition fresh_at (s : UserAuth) (u : string) (i : nat) : Prop :=
  ∃ o rs, heap s !! i = Some o ∧ getUserRules s u = Ok rs
          ∧ rules o = Some rs ∧ coherent o.

(** Every cached instance is the one of its user, and is fresh unless its
    user is yet to be bumped. *)
Definition fresh_but (pending : list (option string)) (s : UserAuth) : Prop :=
  ∀ u i, rulescache s !! u = Some i →
    (∃ o, heap s !! i = Some o ∧ user o = u)
    ∧ (Some u ∉ pending → fresh_at s u i).

Definition sound (s : UserAuth) : Prop :=
  auth_ok s ∧ names_ok s ∧ handlers_ok s ∧ fresh_but [] s.

(** What stays when only instances are bumped or asked. *)
Definition same_store (s s' : UserAuth) : Prop :=
  core s' = core s ∧ users s' = users s ∧ roles s' = roles s
  ∧ rulescache s' = rulescache s ∧ funcs (bus s') = funcs (bus s)
  ∧ length (heap s') = length (heap s).

(** [c1] is [c] without the tufos that [D] holds of, and without their
    lists. *)
Definition shrunk (D : tufo → Prop) `{!∀ x, Decision (D x)} (c c1 : Cortex) : Prop :=
  tufos c1 = filter (λ x, ¬ D x) (tufos c)
  ∧ nextiden c1 = nextiden c
  ∧ ∀ x n, x ∈ tufos c → ¬ D x → getTufoList c1 x n = getTufoList c x n.

Ltac unfold_M :=
  unfold mbind, M_bind, bind, reads, update, ret, raise in *.

(** * Properties *)

(** ** The matcher *)

Module FnmatchFacts.
Import Fnmatch.

Lemma match_star_nil ts : match_toks (Star :: ts) [] = match_toks ts [].
Proof. simpl. apply orb_false_r. Qed.

Lemma match_star_cons ts x s :
  match_toks (Star :: ts) (x :: s) =
  match_toks ts (x :: s) || match_toks (Star :: ts) s.
Proof. reflexivity. Qed.

Lemma match_star_run ts run s :
  match_toks ts s = true → match_toks (Star :: ts) (run ++ s) = true.
Proof.
  intros Hm. induction run as [|x run IH].
  - destruct s; [by rewrite match_star_nil|].
    rewrite app_nil_l, match_star_cons, Hm. done.
  - change ((x :: run) ++ s) with (x :: (run ++ s)).
    rewrite match_star_cons, IH. apply orb_true_r.
Qed.

Lemma match_star_split ts s :
  match_toks (Star :: ts) s = true →
  ∃ run s', s = run ++ s' ∧ match_toks ts s' = true.
Proof.
  induction s as [|x s IH].
  - rewrite match_star_nil. by exists [], [].
  - rewrite match_star_cons. intros [Hm|Hm]%orb_true_iff.
    + by exists [], (x :: s).
    + destruct (IH Hm) as (run & s' & -> & Hs'). by exists (x :: run), s'.
Qed.

Lemma is_char_true x c : is_char x c = true ↔ x = c.
Proof. unfold is_char. by rewrite bool_decide_eq_true. Qed.

Lemma match_toks_sound ts : ∀ s, match_toks ts s = true → globs ts s.
Proof.
  induction ts as [|t ts IH]; intros s Hm.
  - destruct s; [constructor | done].
  - destruct t as [| |c|neg items].
    + destruct (match_star_split _ _ Hm) as (run & s' & -> & Hs').
      constructor. by apply IH.
    + destruct s as [|x s]; [done|]. constructor. by apply IH.
    + destruct s as [|x s]; [done|]. simpl in Hm.
      apply andb_true_iff in Hm as [Hc Hm]. apply is_char_true in Hc as ->.
      constructor. by apply IH.
    + destruct s as [|x s]; [done|]. simpl in Hm.
      apply andb_true_iff in Hm as [Hc Hm]. constructor; [done|]. by apply IH.
Qed.

Lemma match_toks_complete ts s : globs ts s → match_toks ts s = true.
Proof.
  induction 1 as [|ts run s _ IH|ts x s _ IH|ts c s _ IH|ts neg items x s Hin _ IH].
  - done.
  - by apply match_star_run.
  - done.
  - simpl. rewrite IH, andb_true_r. by apply is_char_true.
  - simpl. by rewrite Hin, IH.
Qed.

(** The executable matcher decides the glob relation. *)
Lemma fnmatch_glob_match name pat : fnmatch name pat = true ↔ glob_match pat name.
Proof. split; [apply match_toks_sound | apply match_toks_complete]. Qed.

End FnmatchFacts.

(** ** The matcher and the globs of the shell *)

Module GlobFacts.



Lemma find_rbracket_cons s : Fnmatch.find_rbracket ("]"%char :: s) = Some 0.
Proof. done. Qed.







(** *** Set bodies *)
















(** *** Patterns *)











End GlobFacts.

Example fnmatch_form_glob :
  Fnmatch.fnmatch "tufo.form.foo:bar" "tufo.form.foo:*" = true
  ∧ Fnmatch.fnmatch "tufo.form.zzz:woot" "tufo.form.foo:*" = false.
Proof. by vm_compute. Qed.

Example fnmatch_any_char :
  Fnmatch.fnmatch "abc" "a?c" = true ∧ Fnmatch.fnmatch "abcd" "a?c" = false.
Proof. by vm_compute. Qed.

Example fnmatch_sets :
  Fnmatch.fnmatch "abc" "a[!x-z]c" = true
  ∧ Fnmatch.fnmatch "a]c" "a[]]c" = true
  ∧ Fnmatch.fnmatch "a]c" "a[!]]c" = false
  ∧ Fnmatch.fnmatch "a-c" "a[b-]c" = true
  ∧ Fnmatch.fnmatch "a[c" "a[c" = true.
Proof. by vm_compute. Qed.

(** Ranges that run downwards, as Python 3.11 reads them. *)
Example fnmatch_empty_ranges :
  Fnmatch.fnmatch "c" "[b-a]" = false
  ∧ Fnmatch.fnmatch "c" "[!b-a]" = true
  ∧ Fnmatch.fnmatch "x" "[b-a!x]" = false
  ∧ Fnmatch.fnmatch "c" "[b-a!x]" = true
  ∧ Fnmatch.fnmatch "-" "[b-a!-z]" = false
  ∧ Fnmatch.fnmatch "y" "[b-a!-z]" = true.
Proof. by vm_compute. Qed.

Example translate_unclosed_set :
  Fnmatch.translate "[!]" = [Fnmatch.Lit "["; Fnmatch.Lit "!"; Fnmatch.Lit "]"]
  ∧ Fnmatch.translate "[a-c]x*"
    = [Fnmatch.CharSet false [("a", "c")%char]; Fnmatch.Lit "x"; Fnmatch.Star].
Proof. by vm_compute. Qed.

(** ** The rule cache *)

Lemma scan_rules_existsb perm rs :
  scan_rules perm rs = existsb (Fnmatch.fnmatch perm) rs.
Proof. induction rs as [|r rs IH]; [done|]. simpl. rewrite IH. by destruct (Fnmatch.fnmatch _ _). Qed.

Lemma scan_rules_true perm rs :
  scan_rules perm rs = true ↔ ∃ rule, rule ∈ rs ∧ Fnmatch.glob_match rule perm.
Proof.
  rewrite scan_rules_existsb, existsb_exists. split.
  - intros (r & Hin & Hm). exists r. split; [by apply list_elem_of_In|].
    by apply FnmatchFacts.fnmatch_glob_match.
  - intros (r & Hin & Hm). exists r. split; [by apply list_elem_of_In|].
    by apply FnmatchFacts.fnmatch_glob_match.
Qed.


Lemma coherent_allow self perm : coherent self → coherent (allow self perm).2.
Proof.
  intros Hc. unfold allow.
  destruct (cache self !! perm) eqn:Hp; [done|].
  destruct (rules self) as [rs|] eqn:Hr; [|done].
  intros q b. simpl. rewrite lookup_insert. case_decide as Hq.
  - intros [= <-]. subst q. by exists rs.
  - intros Hb. destruct (Hc q b Hb) as (rs' & Hrs' & ->). exists rs'. simpl. split; [congruence|done].
Qed.








(** C6. A cached decision is returned as it is and the instance is left
    alone. Without one, the decision is the scan of the current rule list;
    it is stored under the permission and returned, and asking again at
    once returns it from the cache. *)
Theorem allow_uses_and_fills_cache (self : Rules) (p : string) :
  (∀ ret, cache self !! p = Some ret → allow self p = (Ok ret, self))
  ∧ (∀ R, cache self !! p = None → rules self = Some R →
       let self' := (allow self p).2 in
       (allow self p).1 = Ok (scan_rules p R)
       ∧ cache self' = <[p := scan_rules p R]> (cache self)
       ∧ rules self' = rules self ∧ user self' = user self
       ∧ allow self' p = (Ok (scan_rules p R), self')).
Proof.
  split.
  - intros b Hb. unfold allow. by rewrite Hb.
  - intros R Hp HR. unfold allow. rewrite Hp, HR. simpl.
    split_and!; try done. by rewrite lookup_insert_eq.
Qed.

Lemma allow_uses_and_fills_cache_witness :
  allow (mkRules "visi" {["a.b" := false]} (Some ["a.*"])) "a.b"
  = (Ok false, mkRules "visi" {["a.b" := false]} (Some ["a.*"]))
  ∧ (allow (mkRules "visi" ∅ (Some ["a.*"])) "a.b").1 = Ok (scan_rules "a.b" ["a.*"]).
Proof.
  split.
  - apply (allow_uses_and_fills_cache
             (mkRules "visi" {["a.b" := false]} (Some ["a.*"])) "a.b").
    by vm_compute.
  - apply (allow_uses_and_fills_cache (mkRules "visi" ∅ (Some ["a.*"])) "a.b").
    + by vm_compute.
    + reflexivity.
Defined.

(** ** The reactor *)

(** C9. [react] raises [NoSuchAct] for a message whose kind has no
    handler; otherwise it returns just what the handler registered for the
    kind returns, a raised exception included. [act] replaces the handler
    of its kind and leaves the other kinds alone, so the handler that
    answers is the one registered last. *)
Theorem react_routes_to_last_handler {P R : Type}
    (self : Reactor.Reactor P R) (m : string * P) :
  (Reactor.actfuncs self !! m.1 = None → Reactor.react self m = Raise (NoSuchAct m.1))
  ∧ (∀ f, Reactor.actfuncs self !! m.1 = Some f → Reactor.react self m = f m)
  ∧ (∀ f, Reactor.react (Reactor.act self m.1 f) m = f m)
  ∧ (∀ f g, Reactor.react (Reactor.act (Reactor.act self m.1 f) m.1 g) m = g m)
  ∧ (∀ name f g,
       Reactor.act (Reactor.act self name f) name g = Reactor.act self name g)
  ∧ (∀ name f, name ≠ m.1 →
       Reactor.react (Reactor.act self name f) m = Reactor.react self m).
Proof.
  unfold Reactor.react, Reactor.act. split_and!.
  - by intros ->.
  - by intros f ->.
  - intros f. simpl. by rewrite lookup_insert_eq.
  - intros f g. simpl. by rewrite lookup_insert_eq.
  - intros name f g. simpl. by rewrite insert_insert_eq.
  - intros name f Hne. simpl. by rewrite lookup_insert_ne.
Qed.

Lemma react_routes_to_last_handler_witness :
  Reactor.react (P := nat) (R := nat) Reactor.init ("foo:bar", 30) = Raise (NoSuchAct "foo:bar")
  ∧ Reactor.react (Reactor.act (Reactor.act Reactor.init "foo:bar" (λ _, Raise TypeError))
                     "foo:bar" (λ m, Ok (20 + m.2)))
      ("foo:bar", 30) = Ok 50.
Proof.
  split.
  - apply (react_routes_to_last_handler (P := nat) (R := nat) Reactor.init ("foo:bar", 30)).
    reflexivity.
  - apply (react_routes_to_last_handler (P := nat) (R := nat) Reactor.init ("foo:bar", 30)).
Defined.

(** ** The auth store *)

Lemma formTufoByProp_new c form valu props :
  getTufoByProp c form valu = None →
  formTufoByProp c form valu props
  = ((nextiden c, form_props form valu props),
     mkCortex (tufos c ++ [(nextiden c, form_props form valu props)]) (rows c)
              (N.succ (nextiden c))).
Proof. unfold formTufoByProp. by intros ->. Qed.

Lemma form_props_form form valu props :
  form ≠ "tufo:form" → form_props form valu props !! form = Some valu.
Proof.
  intros Hne. unfold form_props.
  rewrite lookup_insert_ne by done. by rewrite lookup_insert_eq.
Qed.

(** C7. [addUser] raises [DupUser] when the name is taken, and the state
    is then the one before the call; for a free name it forms a tufo that
    the store did not hold, returns it, and from then on [getUser] finds
    it. [addRole] does the same with [DupRole] and the role cache. *)
Theorem add_subject_duplicate_or_new (s : UserAuth) (name : string)
    (props : list (string * string)) :
  (is_Some (users_get s name) → addUser name props s = (Raise (DupUser name), s))
  ∧ (users_get s name = None →
       ∃ usfo, (addUser name props s).1 = Ok usfo
         ∧ tufos (core (addUser name props s).2) = tufos (core s) ++ [usfo]
         ∧ (usfo ∉ tufos (core s))
         ∧ usfo.2 !! "auth:user" = Some name
         ∧ getUser (addUser name props s).2 name = Some usfo)
  ∧ (is_Some (roles_get s name) → addRole name props s = (Raise (DupRole name), s))
  ∧ (roles_get s name = None →
       ∃ rofo, (addRole name props s).1 = Ok rofo
         ∧ tufos (core (addRole name props s).2) = tufos (core s) ++ [rofo]
         ∧ (rofo ∉ tufos (core s))
         ∧ rofo.2 !! "auth:role" = Some name
         ∧ roles_get (addRole name props s).2 name = Some rofo).
Proof.
  assert (Hnew : ∀ c form t, getTufoByProp c form name = None →
            t.2 !! form = Some name → t ∉ tufos c).
  { intros c form t Hnone Ht Hin. unfold getTufoByProp, getTufosByProp in Hnone.
    apply head_None in Hnone.
    assert (t ∈ filter (λ t : tufo, t.2 !! form = Some name) (tufos c)) as Hf
      by by apply list_elem_of_filter.
    rewrite Hnone in Hf. by apply not_elem_of_nil in Hf. }
  split_and!.
  - intros [t Ht]. unfold addUser. by rewrite Ht.
  - intros Hnone. unfold addUser. rewrite Hnone.
    assert (getTufoByProp (core s) "auth:user" name = None) as Hc.
    { unfold users_get, tpc_get in Hnone. by destruct (users s !! name). }
    rewrite (formTufoByProp_new _ _ _ _ Hc). eexists. simpl.
    split_and!; [done|done| |by apply form_props_form|].
    + eapply Hnew; [done|]. by apply form_props_form.
    + unfold getUser, users_get, tpc_get. simpl. by rewrite lookup_insert_eq.
  - intros [t Ht]. unfold addRole. by rewrite Ht.
  - intros Hnone. unfold addRole. rewrite Hnone.
    assert (getTufoByProp (core s) "auth:role" name = None) as Hc.
    { unfold roles_get, tpc_get in Hnone. by destruct (roles s !! name). }
    rewrite (formTufoByProp_new _ _ _ _ Hc). eexists. simpl.
    split_and!; [done|done| |by apply form_props_form|].
    + eapply Hnew; [done|]. by apply form_props_form.
    + unfold roles_get, tpc_get. simpl. by rewrite lookup_insert_eq.
Qed.

Lemma add_subject_duplicate_or_new_witness :
  addUser "visi" [] demo_auth = (Raise (DupUser "visi"), demo_auth)
  ∧ (∃ rofo, (addRole "visi" [] demo_auth).1 = Ok rofo
       ∧ tufos (core (addRole "visi" [] demo_auth).2) = tufos (core demo_auth) ++ [rofo]
       ∧ (rofo ∉ tufos (core demo_auth))
       ∧ rofo.2 !! "auth:role" = Some "visi"
       ∧ roles_get (addRole "visi" [] demo_auth).2 "visi" = Some rofo).
Proof.
  split.
  - apply (add_subject_duplicate_or_new demo_auth "visi" []).
    exists visi_usfo. by vm_compute.
  - apply (add_subject_duplicate_or_new demo_auth "visi" []). by vm_compute.
Defined.

Lemma extend_roles_mapM s userroles acc :
  extend_roles s userroles acc =
  match mapM (link_rofo s) userroles with
  | Some rofos =>
      Ok (acc ++ concat ((λ rofo, getTufoList (core s) rofo "auth:rules") <$> rofos))
  | None => Raise TypeError
  end.
Proof.
  revert acc. induction userroles as [|l ls IH]; intros acc.
  - simpl. by rewrite app_nil_r.
  - simpl. destruct (link_rofo s l) as [rofo|]; [|done].
    simpl. rewrite IH. destruct (mapM _ ls) as [rofos|]; [|done].
    simpl. by rewrite app_assoc.
Qed.

Lemma getUserRules_held s u usfo rofos :
  users_get s u = Some usfo →
  held_rofos s u = Some rofos →
  getUserRules s u =
  Ok (getTufoList (core s) usfo "auth:rules"
      ++ concat ((λ rofo, getTufoList (core s) rofo "auth:rules") <$> rofos)).
Proof.
  intros Hu Hr. unfold getUserRules, _reqUserTufo. rewrite Hu.
  rewrite extend_roles_mapM. fold (held_rofos s u). by rewrite Hr.
Qed.

(** C5. For an existing user whose role links all name roles that are
    found ([rofos], in the order in which the store returns the links),
    [getUserRules] returns the user's own rules followed by the rules of
    each of these roles, in that order. The links of every user are such
    in all states the calls of [UserAuth] lead to ([auth_ok_held_rofos]). *)
Theorem getUserRules_own_then_roles (s : UserAuth) (u : string) (usfo : tufo)
    (rofos : list tufo) :
  users_get s u = Some usfo →
  mapM (link_rofo s) (getTufosByProp (core s) "auth:userrole:user" u) = Some rofos →
  getUserRules s u =
  Ok (getTufoList (core s) usfo "auth:rules"
      ++ concat ((λ rofo, getTufoList (core s) rofo "auth:rules") <$> rofos)).
Proof. intros Hu Hr. by apply getUserRules_held. Qed.

Lemma getUserRules_own_then_roles_witness :
  getUserRules demo_auth "visi" =
  Ok (getTufoList (core demo_auth) visi_usfo "auth:rules"
      ++ concat ((λ rofo, getTufoList (core demo_auth) rofo "auth:rules")
                   <$> [admin_rofo])).
Proof.
  apply (getUserRules_own_then_roles demo_auth "visi" visi_usfo [admin_rofo]).
  - by vm_compute.
  - by vm_compute.
Defined.

(** C10. For a name under which no user exists and for which no [Rules]
    instance is cached, [isUserAllowed] returns no decision: making the
    instance raises [NoSuchUser] out of [getUserRules]. *)
Theorem isUserAllowed_unknown_user_raises (s : UserAuth) (u p : string) :
  users_get s u = None →
  rulescache s !! u = None →
  (isUserAllowed u p s).1 = Raise (NoSuchUser u)
  ∧ (∀ b, (isUserAllowed u p s).1 ≠ Ok b)
  ∧ rulescache (isUserAllowed u p s).2 !! u = None.
Proof.
  intros Hu Hc.
  assert (∀ s3, users s3 = users s → core s3 = core s →
            getUserRules s3 u = Raise (NoSuchUser u)) as Hraise.
  { intros s3 Hus Hco. unfold getUserRules, _reqUserTufo, users_get.
    rewrite Hus, Hco. fold (users_get s u). by rewrite Hu. }
  unfold isUserAllowed, mbind, M_bind, bind, rulescache_get. rewrite Hc.
  unfold mbind, M_bind, bind, _getUserRulesCache, Rules_init.
  rewrite Hraise by done. simpl. by rewrite Hc.
Qed.

Lemma isUserAllowed_unknown_user_raises_witness :
  (isUserAllowed "bob" "tufo.form.foo:bar" demo_auth).1 = Raise (NoSuchUser "bob").
Proof.
  apply (isUserAllowed_unknown_user_raises demo_auth "bob" "tufo.form.foo:bar").
  - by vm_compute.
  - by vm_compute.
Defined.

(** ** Frame lemmas: what the reading methods depend on *)

Lemma extend_roles_frame s s' userroles acc :
  core s = core s' → roles s = roles s' →
  extend_roles s userroles acc = extend_roles s' userroles acc.
Proof.
  intros Hc Hr. revert acc. induction userroles as [|l ls IH]; intros acc; [done|].
  simpl. unfold link_rofo, roles_get. rewrite Hc, Hr.
  destruct (l.2 !! "auth:userrole:role" ≫= _); [|done]. apply IH.
Qed.

Lemma getUserRules_frame s s' u :
  core s = core s' → users s = users s' → roles s = roles s' →
  getUserRules s u = getUserRules s' u.
Proof.
  intros Hc Hu Hr. unfold getUserRules, _reqUserTufo, users_get.
  rewrite Hc, Hu. destruct (tpc_get _ _ _ _); [|done].
  by apply extend_roles_frame.
Qed.

(** ** Dispatch on the bus *)

Section dispatch.
Variable m : mesg.

Lemma call_handler_length hp h : length (call_handler m hp h) = length hp.
Proof.
  destruct h as [j|j]; simpl; destruct (hp !! j); by rewrite ?length_insert.
Qed.

Lemma dispatch_length hs : ∀ hp, length (foldl (call_handler m) hp hs) = length hp.
Proof.
  induction hs as [|h hs IH]; intros hp; [done|].
  simpl. by rewrite IH, call_handler_length.
Qed.

Lemma call_handler_bumped hp h i : bumped m hp i → bumped m (call_handler m hp h) i.
Proof.
  intros (o & Ho & Hc & Hr). destruct h as [j|j]; simpl.
  - destruct (hp !! j) as [o'|] eqn:Hj; [|by exists o].
    destruct (decide (j = i)) as [->|Hne].
    + eexists. split; [apply list_lookup_insert_eq; by eapply lookup_lt_Some|done].
    + exists o. by rewrite list_lookup_insert_ne.
  - destruct (hp !! j) as [o'|] eqn:Hj; [|by exists o].
    exists o. by rewrite list_insert_id.
Qed.

Lemma dispatch_bumped hs :
  ∀ hp i, bumped m hp i → bumped m (foldl (call_handler m) hp hs) i.
Proof.
  induction hs as [|h hs IH]; intros hp i Hb; [done|].
  simpl. by apply IH, call_handler_bumped.
Qed.

Lemma dispatch_reaches hs : ∀ hp i,
  OnBumpUser i ∈ hs → i < length hp → bumped m (foldl (call_handler m) hp hs) i.
Proof.
  induction hs as [|h hs IH]; intros hp i Hin Hlt.
  - by apply elem_of_nil in Hin.
  - apply elem_of_cons in Hin as [<-|Hin].
    + simpl. apply dispatch_bumped.
      destruct (lookup_lt_is_Some_2 hp i Hlt) as [o Ho]. rewrite Ho.
      eexists. split; [by apply list_lookup_insert_eq|done].
    + simpl. apply IH; [done|]. by rewrite call_handler_length.
Qed.
End dispatch.

(** ** Adding a rule and asking at once *)

Lemma getTufosByProp_tufos c c' prop valu :
  tufos c = tufos c' → getTufosByProp c prop valu = getTufosByProp c' prop valu.
Proof. unfold getTufosByProp. by intros ->. Qed.

Lemma tpc_get_tufos cached c c' prop name :
  tufos c = tufos c' → tpc_get cached c prop name = tpc_get cached c' prop name.
Proof.
  intros Ht. unfold tpc_get, getTufoByProp. by rewrite (getTufosByProp_tufos c c').
Qed.

Lemma held_rofos_tufos s s' u :
  tufos (core s) = tufos (core s') → roles s = roles s' →
  held_rofos s u = held_rofos s' u.
Proof.
  intros Ht Hr. unfold held_rofos. rewrite (getTufosByProp_tufos _ _ _ _ Ht).
  apply mapM_ext. intros l. unfold link_rofo. destruct (l.2 !! _) as [r|]; [|done].
  simpl. unfold roles_get. rewrite Hr. by apply tpc_get_tufos.
Qed.

Lemma allow_bumped m hp i p rs :
  bumped m hp i → m.2 !! "rules" = Some rs →
  ∃ o, hp !! i = Some o ∧ (allow o p).1 = Ok (scan_rules p rs).
Proof.
  intros (o & Ho & Hc & Hr) Hm. exists o. split; [done|].
  unfold allow. rewrite Hc, lookup_empty, Hr, Hm. done.
Qed.

Lemma isUserAllowed_fresh_rules s u p rs :
  getUserRules s u = Ok rs →
  (∀ i, rulescache s !! u = Some i →
        ∃ o, heap s !! i = Some o ∧ (allow o p).1 = Ok (scan_rules p rs)) →
  (isUserAllowed u p s).1 = Ok (scan_rules p rs).
Proof.
  intros Hrs Hcached. unfold isUserAllowed, rulescache_get. unfold_M.
  destruct (rulescache s !! u) as [i|] eqn:Hi.
  - destruct (Hcached i eq_refl) as (o & Ho & Ha). unfold Rules_allow. rewrite Ho.
    by destruct (allow o p).
  - unfold _getUserRulesCache, Rules_init.
    erewrite (getUserRules_frame _ s), Hrs by done.
    unfold Rules_allow. simpl.
    rewrite list_lookup_insert_eq by (rewrite length_app; simpl; lia).
    unfold allow. simpl. by rewrite lookup_empty.
Qed.

(** C2. For an existing user whose role links are all found, and with the
    cached [Rules] instances subscribed as their constructor leaves them
    (both hold in every state the calls of [UserAuth] lead to, see
    [auth_ok_calls]): [addUserRule(u, r)] returns, the user's effective
    rule list then contains [r], and [isUserAllowed(u, p)] called next
    returns the scan of that new list, not a decision cached before; a
    permission that [r] matches is allowed. *)
Theorem addUserRule_then_isUserAllowed (s : UserAuth) (u r p : string)
    (usfo : tufo) (rofos : list tufo) :
  rulescache_ok s →
  users_get s u = Some usfo →
  held_rofos s u = Some rofos →
  ∃ s1 rs,
    addUserRule u r s = (Ok tt, s1)
    ∧ getUserRules s1 u = Ok rs
    ∧ r ∈ rs
    ∧ (isUserAllowed u p s1).1 = Ok (scan_rules p rs)
    ∧ (Fnmatch.glob_match r p → (isUserAllowed u p s1).1 = Ok true).
Proof.
  intros Hok Hu Hheld.
  set (s0 := set_core (addTufoList (core s) usfo "auth:rules" r) s).
  assert (users_get s0 u = Some usfo) as Hu0.
  { unfold users_get. rewrite <- Hu. by apply tpc_get_tufos. }
  assert (held_rofos s0 u = Some rofos) as Hheld0.
  { rewrite <- Hheld. by apply held_rofos_tufos. }
  pose proof (getUserRules_held s0 u usfo rofos Hu0 Hheld0) as Hrs0.
  set (rs := getTufoList (core s0) usfo "auth:rules"
             ++ concat ((λ rofo, getTufoList (core s0) rofo "auth:rules") <$> rofos)) in Hrs0.
  set (s1 := fire ("auth:bump:" +:+ u) {["rules" := rs]} s0).
  assert (getUserRules s1 u = Ok rs) as Hrs1.
  { rewrite <- Hrs0. by apply getUserRules_frame. }
  assert (r ∈ rs) as Hin.
  { apply elem_of_app. left. unfold s0, getTufoList, addTufoList. simpl.
    rewrite lookup_insert_eq. simpl. apply elem_of_app. right. by left. }
  assert ((isUserAllowed u p s1).1 = Ok (scan_rules p rs)) as Hallow.
  { apply isUserAllowed_fresh_rules; [done|].
    intros i Hi. destruct (Hok u i Hi) as [Hlt Hsub].
    eapply allow_bumped; [by apply dispatch_reaches|].
    simpl. by rewrite lookup_singleton_eq. }
  exists s1, rs. split_and!; try done.
  - unfold addUserRule, _bumpUserRules, _reqUserTufo. unfold_M. rewrite Hu.
    fold s0. by rewrite Hrs0.
  - intros Hm. rewrite Hallow. f_equal. apply scan_rules_true. by exists r.
Qed.

Lemma addUserRule_then_isUserAllowed_witness :
  ∃ s1 rs,
    addUserRule "visi" "tufo.form.bar:*" demo_auth = (Ok tt, s1)
    ∧ getUserRules s1 "visi" = Ok rs
    ∧ "tufo.form.bar:*" ∈ rs
    ∧ (isUserAllowed "visi" "tufo.form.bar:baz" s1).1
      = Ok (scan_rules "tufo.form.bar:baz" rs)
    ∧ (Fnmatch.glob_match "tufo.form.bar:*" "tufo.form.bar:baz" →
       (isUserAllowed "visi" "tufo.form.bar:baz" s1).1 = Ok true).
Proof.
  apply (addUserRule_then_isUserAllowed demo_auth "visi" "tufo.form.bar:*"
           "tufo.form.bar:baz" visi_usfo [admin_rofo]).
  - refine (bool_decide_unpack (rulescache_ok demo_auth) _). by vm_compute.
  - by vm_compute.
  - by vm_compute.
Defined.

(** ** Editing rules: who is told *)

Lemma iden_inj c (t1 t2 : tufo) :
  NoDup (tufos c).*1 → t1 ∈ tufos c → t2 ∈ tufos c → t1.1 = t2.1 → t1 = t2.
Proof.
  induction (tufos c) as [|t l IH]; intros Hnd H1 H2 Heq.
  - by apply elem_of_nil in H1.
  - rewrite fmap_cons in Hnd. apply NoDup_cons in Hnd as [Hnotin Hnd].
    apply elem_of_cons in H1 as [->|H1]; apply elem_of_cons in H2 as [->|H2].
    + done.
    + destruct Hnotin. rewrite Heq. by apply list_elem_of_fmap_2.
    + destruct Hnotin. rewrite <- Heq. by apply list_elem_of_fmap_2.
    + by apply IH.
Qed.

Lemma getTufoByProp_Some c prop valu t :
  getTufoByProp c prop valu = Some t → t ∈ tufos c ∧ t.2 !! prop = Some valu.
Proof.
  intros Hh%head_Some_elem_of. unfold getTufosByProp in Hh.
  apply list_elem_of_filter in Hh. tauto.
Qed.

Lemma tpc_get_Some cached c prop name t :
  tufocache_ok c prop cached →
  tpc_get cached c prop name = Some t → t ∈ tufos c ∧ t.2 !! prop = Some name.
Proof.
  intros Hok. unfold tpc_get. destruct (cached !! name) as [t'|] eqn:Hc.
  - intros [= <-]. by apply (Hok name).
  - apply getTufoByProp_Some.
Qed.

(** A user's tufo and a role's tufo never share an identity. *)
Lemma user_role_idens s u r usfo rofo :
  store_ok s → users_get s u = Some usfo → roles_get s r = Some rofo →
  usfo.1 ≠ rofo.1.
Proof.
  intros ((Hnd & Hform) & Hus & Hro) Hu Hr Heq.
  apply (tpc_get_Some _ _ _ _ _ Hus) in Hu as [Hin Hpu].
  apply (tpc_get_Some _ _ _ _ _ Hro) in Hr as [Hin' Hpr].
  assert (usfo = rofo) as -> by by eapply iden_inj.
  rewrite Forall_forall in Hform. apply (Hform rofo Hin'). by split; eexists.
Qed.

Lemma user_user_idens s u v usfo vsfo :
  store_ok s → users_get s u = Some usfo → users_get s v = Some vsfo →
  usfo.1 = vsfo.1 → u = v.
Proof.
  intros ((Hnd & _) & Hus & _) Hu Hv Heq.
  apply (tpc_get_Some _ _ _ _ _ Hus) in Hu as [Hin Hpu].
  apply (tpc_get_Some _ _ _ _ _ Hus) in Hv as [Hin' Hpv].
  assert (usfo = vsfo) as -> by by eapply iden_inj. congruence.
Qed.

Lemma role_role_idens s q r qofo rofo :
  store_ok s → roles_get s q = Some qofo → roles_get s r = Some rofo →
  qofo.1 = rofo.1 → q = r.
Proof.
  intros ((Hnd & _) & _ & Hro) Hq Hr Heq.
  apply (tpc_get_Some _ _ _ _ _ Hro) in Hq as [Hin Hpq].
  apply (tpc_get_Some _ _ _ _ _ Hro) in Hr as [Hin' Hpr].
  assert (qofo = rofo) as -> by by eapply iden_inj. congruence.
Qed.

Lemma addTufoList_edits_only c t name valu : edits_only c (addTufoList c t name valu) t.
Proof.
  split; [done|]. intros t' n Hne. unfold getTufoList, addTufoList. simpl.
  rewrite lookup_insert_ne; [done|]. congruence.
Qed.

Lemma delTufoListValu_edits_only c t name valu :
  edits_only c (delTufoListValu c t name valu) t.
Proof.
  split; [done|]. intros t' n Hne. unfold getTufoList, delTufoListValu. simpl.
  rewrite lookup_insert_ne; [done|]. congruence.
Qed.

Lemma extend_roles_edit s c0 t userroles acc :
  edits_only (core s) c0 t →
  (∀ l rofo, l ∈ userroles → link_rofo s l = Some rofo → rofo.1 ≠ t.1) →
  extend_roles (set_core c0 s) userroles acc = extend_roles s userroles acc.
Proof.
  intros [Ht Hrows] Hne. revert acc.
  induction userroles as [|l ls IH]; intros acc; [done|]. simpl.
  assert (link_rofo (set_core c0 s) l = link_rofo s l) as ->.
  { unfold link_rofo. destruct (l.2 !! _) as [r|]; [|done]. simpl.
    unfold roles_get. by apply tpc_get_tufos. }
  destruct (link_rofo s l) as [rofo|] eqn:Hl; [|done].
  rewrite Hrows by (eapply Hne; [left|done]).
  apply IH. intros l' rofo' Hin. apply Hne. by right.
Qed.

(** Editing the lists of [t] leaves the effective rules of [v] alone when
    [t] is neither the tufo of [v] nor the tufo of a role [v] is linked
    to. *)
Lemma getUserRules_edit s c0 t v :
  edits_only (core s) c0 t →
  (∀ vsfo, users_get s v = Some vsfo → vsfo.1 ≠ t.1) →
  (∀ l rofo, l ∈ getTufosByProp (core s) "auth:userrole:user" v →
             link_rofo s l = Some rofo → rofo.1 ≠ t.1) →
  getUserRules (set_core c0 s) v = getUserRules s v.
Proof.
  intros Hed Hv Hl. unfold getUserRules, _reqUserTufo.
  assert (users_get (set_core c0 s) v = users_get s v) as ->.
  { unfold users_get. apply tpc_get_tufos. apply Hed. }
  destruct (users_get s v) as [vsfo|] eqn:Hvs; [|done].
  rewrite (getTufosByProp_tufos (core (set_core c0 s)) (core s)) by apply Hed.
  rewrite (extend_roles_edit s c0 t) by done.
  destruct Hed as [_ Hrows]. simpl. rewrite Hrows; [done|]. by apply Hv.
Qed.

Lemma bump_each_ok us : ∀ s s',
  bump_each us s = (Ok tt, s') →
  core s' = core s ∧ users s' = users s ∧ roles s' = roles s
  ∧ ∃ msgs, fired (bus s') = fired (bus s) ++ msgs
      ∧ ∀ v, Some v ∈ us → ∃ info, ("auth:bump:" +:+ v, info) ∈ msgs.
Proof.
  induction us as [|o us IH]; intros s s' Hrun.
  - injection Hrun as <-. split_and!; try done. exists []. split; [by rewrite app_nil_r|].
    intros v Hv. by apply elem_of_nil in Hv.
  - simpl in Hrun. unfold_M. destruct o as [u|]; [|done]. simpl in Hrun.
    unfold _bumpUserRules in Hrun. unfold_M.
    destruct (getUserRules s u) as [rs|e]; [|done].
    apply IH in Hrun as (Hc & Hu & Hr & msgs & Hf & Hall). simpl in *.
    split_and!; try done.
    exists (("auth:bump:" +:+ u, {["rules" := rs]}) :: msgs).
    split; [by rewrite Hf, <- app_assoc|].
    intros v [[= ->]|Hv]%elem_of_cons.
    + eexists. by left.
    + destruct (Hall v Hv) as [info Hi]. exists info. by right.
Qed.

Lemma notified_intro s s' msgs v info :
  fired (bus s') = fired (bus s) ++ msgs →
  ("auth:bump:" +:+ v, info) ∈ msgs → notified s s' v.
Proof.
  intros Hf Hin. exists info. unfold published. by rewrite Hf, drop_app_length.
Qed.

Lemma link_rofo_Some s l rofo :
  link_rofo s l = Some rofo →
  ∃ r, l.2 !! "auth:userrole:role" = Some r ∧ roles_get s r = Some rofo.
Proof.
  unfold link_rofo. destruct (l.2 !! "auth:userrole:role") as [r|]; [|done].
  simpl. intros Hr. by exists r.
Qed.

Lemma user_edit_notifies s name c0 usfo s' :
  store_ok s → users_get s name = Some usfo → edits_only (core s) c0 usfo →
  _bumpUserRules name (set_core c0 s) = (Ok tt, s') →
  ∀ v, getUserRules s' v ≠ getUserRules s v → notified s s' v.
Proof.
  intros Hok Hu Hed Hrun v Hchg. unfold _bumpUserRules in Hrun. unfold_M.
  destruct (getUserRules (set_core c0 s) name) as [rs|e]; [|done].
  injection Hrun as <-.
  destruct (decide (v = name)) as [->|Hne].
  - eapply (notified_intro _ _ [_]); [done|by left].
  - destruct Hchg.
    transitivity (getUserRules (set_core c0 s) v); [by apply getUserRules_frame|].
    apply (getUserRules_edit s c0 usfo); [done| |].
    + intros vsfo Hv Heq. by destruct Hne; eapply user_user_idens.
    + intros l rofo _ (r & _ & Hr)%link_rofo_Some Heq.
      by eapply user_role_idens.
Qed.

Lemma role_edit_notifies s name c0 rofo s' :
  store_ok s → roles_get s name = Some rofo → edits_only (core s) c0 rofo →
  bump_role_users name (set_core c0 s) = (Ok tt, s') →
  ∀ v, getUserRules s' v ≠ getUserRules s v → notified s s' v.
Proof.
  intros Hok Hr Hed Hrun v Hchg. unfold bump_role_users in Hrun.
  apply bump_each_ok in Hrun as (Hc & Hu & Hro & msgs & Hf & Hall).
  destruct (decide (Some v ∈ linked_users (set_core c0 s) name)) as [Hin|Hnotin].
  - destruct (Hall v Hin) as [info Hi]. by eapply notified_intro.
  - destruct Hchg. rewrite (getUserRules_frame s' (set_core c0 s)) by done.
    apply (getUserRules_edit s c0 rofo); [done| |].
    + intros vsfo Hv Heq. by eapply user_role_idens.
    + intros l qofo Hl (q & Hq & Hqr)%link_rofo_Some Heq.
      destruct Hnotin. unfold linked_users.
      apply list_elem_of_fmap. exists l.
      unfold getTufosByProp in *. apply list_elem_of_filter in Hl as [Hlu Hlin].
      split; [done|]. apply list_elem_of_filter.
      destruct Hed as [Ht _]. simpl. rewrite Ht. split; [|done].
      rewrite Hq. f_equal. by eapply role_role_idens.
Qed.

Lemma published_none s : published s s = [].
Proof. apply drop_all. Qed.

(** C8. Each of the four rule edits raises the not-found exception of its
    subject when the subject does not exist, and then neither the store
    nor the trace of notifications has changed. When an edit returns on a
    store in order (tufos with distinct identities, none both a user and a
    role, caches holding tufos of the store), every user whose effective
    rule list is no longer what it was has been sent a bump notification
    by the edit. *)
Theorem rule_edits_require_subject_and_notify (s : UserAuth) (name rule : string) :
  (users_get s name = None →
     addUserRule name rule s = (Raise (NoSuchUser name), s)
     ∧ delUserRule name rule s = (Raise (NoSuchUser name), s)
     ∧ published s s = [])
  ∧ (roles_get s name = None →
     addRoleRule name rule s = (Raise (NoSuchRole name), s)
     ∧ delRoleRule name rule s = (Raise (NoSuchRole name), s)
     ∧ published s s = [])
  ∧ (store_ok s →
     ∀ edit s',
       edit ∈ [addUserRule name rule; delUserRule name rule;
               addRoleRule name rule; delRoleRule name rule] →
       edit s = (Ok tt, s') →
       ∀ v, getUserRules s' v ≠ getUserRules s v → notified s s' v).
Proof.
  split_and!.
  - intros Hu. unfold addUserRule, delUserRule, _reqUserTufo. unfold_M.
    rewrite Hu. split_and!; [done|done|apply published_none].
  - intros Hr. unfold addRoleRule, delRoleRule, _reqRoleTufo. unfold_M.
    rewrite Hr. split_and!; [done|done|apply published_none].
  - intros Hok edit s' Hedit Hrun.
    repeat (apply elem_of_cons in Hedit as [->|Hedit]);
      [| | | |by apply elem_of_nil in Hedit].
    + unfold addUserRule, _reqUserTufo in Hrun. unfold_M.
      destruct (users_get s name) as [usfo|] eqn:Hu; [|done].
      eapply user_edit_notifies; [done|done| |done]. apply addTufoList_edits_only.
    + unfold delUserRule, _reqUserTufo in Hrun. unfold_M.
      destruct (users_get s name) as [usfo|] eqn:Hu; [|done].
      eapply user_edit_notifies; [done|done| |done]. apply delTufoListValu_edits_only.
    + unfold addRoleRule, _reqRoleTufo in Hrun. unfold_M.
      destruct (roles_get s name) as [rofo|] eqn:Hr; [|done].
      eapply role_edit_notifies; [done|done| |done]. apply addTufoList_edits_only.
    + unfold delRoleRule, _reqRoleTufo in Hrun. unfold_M.
      destruct (roles_get s name) as [rofo|] eqn:Hr; [|done].
      eapply role_edit_notifies; [done|done| |done]. apply delTufoListValu_edits_only.
Qed.

Lemma rule_edits_require_subject_and_notify_witness :
  addRoleRule "visi" "x.*" demo_auth = (Raise (NoSuchRole "visi"), demo_auth)
  ∧ notified demo_auth (run (addRoleRule "admin" "x.*") demo_auth) "visi".
Proof.
  split.
  - apply (rule_edits_require_subject_and_notify demo_auth "visi" "x.*").
    by vm_compute.
  - apply (proj2 (proj2 (rule_edits_require_subject_and_notify demo_auth "admin" "x.*")))
      with (edit := addRoleRule "admin" "x.*").
    + refine (bool_decide_unpack (store_ok demo_auth) _). by vm_compute.
    + set_solver.
    + by vm_compute.
    + by vm_compute.
Defined.

(** ** Where the code departs from its documentation *)

(** C3. [_onTeleSock] raises [NameError] whatever the instance and the
    message, and leaves the rule list and the decision cache as they
    were. In [resync_auth] the instance of ["visi"] is subscribed to
    [tele:sock:init] and the message was fired; the instance still
    answers from the decision cached before, although the store now has
    a rule that allows the permission. *)
Theorem onTeleSock_raises_and_keeps_stale :
  (∀ self m, _onTeleSock self m = (Raise (NameError "user"), self))
  ∧ funcs (bus resync_auth) !!! "tele:sock:init" = [OnTeleSock 0]
  ∧ fired (bus resync_auth) = [("tele:sock:init", ∅)]
  ∧ rulescache resync_auth !! "visi" = Some 0
  ∧ getUserRules resync_auth "visi" = Ok ["foo.*"]
  ∧ scan_rules "foo.bar" ["foo.*"] = true
  ∧ (isUserAllowed "visi" "foo.bar" resync_auth).1 = Ok false.
Proof. split_and!; [done|by vm_compute..]. Qed.

(** C4. [getRole] returns [None] for every name, also for a role that
    [addRole] has just made and that the role cache finds. *)
Theorem getRole_returns_None_for_existing_role :
  (∀ s role, getRole s role = None)
  ∧ (addRole "admin" [] (UserAuth_init empty_cortex)).1 = Ok (0%N, form_props "auth:role" "admin" [])
  ∧ roles_get (addRole "admin" [] (UserAuth_init empty_cortex)).2 "admin"
    = Some (0%N, form_props "auth:role" "admin" [])
  ∧ getRole (addRole "admin" [] (UserAuth_init empty_cortex)).2 "admin" = None.
Proof. split_and!; [done|by vm_compute..]. Qed.

(** ** The methods keep the store in order *)

Lemma link_rofo_tufos s s' l :
  tufos (core s') = tufos (core s) → roles s' = roles s →
  link_rofo s' l = link_rofo s l.
Proof.
  intros Ht Hr. unfold link_rofo. destruct (l.2 !! _) as [r|]; [|done].
  simpl. unfold roles_get. rewrite Hr. by apply tpc_get_tufos.
Qed.

Lemma stored_ok_frame s s' :
  tufos (core s') = tufos (core s) → nextiden (core s') = nextiden (core s) →
  users s' = users s → roles s' = roles s →
  stored_ok s → stored_ok s'.
Proof.
  intros Ht Hn Hu Hr (((Hnd & Hkind) & Hus & Hro) & Hlt & Hlink & Hlinks).
  unfold stored_ok, store_ok, cortex_ok, tufocache_ok, links_ok.
  rewrite Ht, Hn, Hu, Hr. split_and!; try done.
  eapply Forall_impl; [exact Hlinks|]. intros l Hl Hsome.
  rewrite (link_rofo_tufos s s') by done. by apply Hl.
Qed.

Lemma rulescache_ok_frame s s' :
  rulescache s' = rulescache s → funcs (bus s') = funcs (bus s) →
  length (heap s') = length (heap s) →
  rulescache_ok s → rulescache_ok s'.
Proof. unfold rulescache_ok. by intros -> -> ->. Qed.

Lemma auth_ok_fire name info s : auth_ok s → auth_ok (fire name info s).
Proof.
  intros [Hst Hrc]. split.
  - by apply (stored_ok_frame s).
  - apply (rulescache_ok_frame s); [done|done| |done]. simpl. apply dispatch_length.
Qed.

Lemma auth_ok_bumpUserRules u s : auth_ok s → auth_ok (run (_bumpUserRules u) s).
Proof.
  intros Hok. unfold run, _bumpUserRules. unfold_M.
  destruct (getUserRules s u); [|done]. by apply auth_ok_fire.
Qed.

Lemma auth_ok_bump_each us : ∀ s, auth_ok s → auth_ok (run (bump_each us) s).
Proof.
  induction us as [|o us IH]; intros s Hok; [done|].
  unfold run. simpl. unfold_M. destruct o as [u|]; simpl; [|done].
  pose proof (auth_ok_bumpUserRules u s Hok) as Hb. unfold run in Hb.
  destruct (_bumpUserRules u s) as [[[]|e] s1]; [|done]. by apply IH.
Qed.

(** Editing a list of a tufo touches neither the tufos nor the caches. *)
Lemma auth_ok_edit c0 t s :
  edits_only (core s) c0 t → nextiden c0 = nextiden (core s) →
  auth_ok s → auth_ok (set_core c0 s).
Proof.
  intros [Ht _] Hn [Hst Hrc]. split; [|done]. by apply (stored_ok_frame s).
Qed.

Lemma auth_ok_addUserRule u r s : auth_ok s → auth_ok (run (addUserRule u r) s).
Proof.
  intros Hok. unfold run, addUserRule. unfold_M.
  destruct (_reqUserTufo s u) as [usfo|e]; [|done].
  apply auth_ok_bumpUserRules, (auth_ok_edit _ usfo); [|done|done].
  apply addTufoList_edits_only.
Qed.

Lemma auth_ok_delUserRule u r s : auth_ok s → auth_ok (run (delUserRule u r) s).
Proof.
  intros Hok. unfold run, delUserRule. unfold_M.
  destruct (_reqUserTufo s u) as [usfo|e]; [|done].
  apply auth_ok_bumpUserRules, (auth_ok_edit _ usfo); [|done|done].
  apply delTufoListValu_edits_only.
Qed.

Lemma auth_ok_addRoleRule q r s : auth_ok s → auth_ok (run (addRoleRule q r) s).
Proof.
  intros Hok. unfold run, addRoleRule. unfold_M.
  destruct (_reqRoleTufo s q) as [rofo|e]; [|done].
  apply auth_ok_bump_each, (auth_ok_edit _ rofo); [|done|done].
  apply addTufoList_edits_only.
Qed.

Lemma auth_ok_delRoleRule q r s : auth_ok s → auth_ok (run (delRoleRule q r) s).
Proof.
  intros Hok. unfold run, delRoleRule. unfold_M.
  destruct (_reqRoleTufo s q) as [rofo|e]; [|done].
  apply auth_ok_bump_each, (auth_ok_edit _ rofo); [|done|done].
  apply delTufoListValu_edits_only.
Qed.

Lemma on_mono name h s n x :
  x ∈ funcs (bus s) !!! n → x ∈ funcs (bus (on name h s)) !!! n.
Proof.
  intros Hx. unfold on. simpl. rewrite lookup_total_insert. case_decide as Hn.
  - subst n. apply elem_of_app. by left.
  - done.
Qed.

Lemma on_new name h s : h ∈ funcs (bus (on name h s)) !!! name.
Proof.
  unfold on. simpl. rewrite lookup_total_insert_eq. apply elem_of_app. right. by left.
Qed.

Lemma Rules_init_spec u s :
  let s' := (Rules_init u s).2 in
  core s' = core s ∧ users s' = users s ∧ roles s' = roles s
  ∧ rulescache s' = rulescache s
  ∧ length (heap s') = S (length (heap s))
  ∧ (∀ n x, x ∈ funcs (bus s) !!! n → x ∈ funcs (bus s') !!! n)
  ∧ OnBumpUser (length (heap s)) ∈ funcs (bus s') !!! ("auth:bump:" +:+ u)
  ∧ ∀ i, (Rules_init u s).1 = Ok i → i = length (heap s).
Proof.
  unfold Rules_init.
  set (s1 := set_heap (heap s ++ [mkRules u ∅ None]) s).
  set (s2 := on ("auth:bump:" +:+ u) (OnBumpUser (length (heap s))) s1).
  set (s3 := on "tele:sock:init" (OnTeleSock (length (heap s))) s2).
  assert (length (heap s3) = S (length (heap s))) as Hlen.
  { simpl. rewrite length_app. simpl. lia. }
  assert (∀ n x, x ∈ funcs (bus s) !!! n → x ∈ funcs (bus s3) !!! n) as Hmono.
  { intros n x Hx. by apply on_mono, on_mono. }
  assert (OnBumpUser (length (heap s)) ∈ funcs (bus s3) !!! ("auth:bump:" +:+ u)) as Hnew.
  { apply on_mono, on_new. }
  destruct (getUserRules s3 u) as [rs|e]; simpl.
  - split_and!; try done.
    + by rewrite length_insert.
    + by intros i [= <-].
  - split_and!; done.
Qed.

Lemma Rules_allow_frame i p s :
  let s' := (Rules_allow i p s).2 in
  core s' = core s ∧ users s' = users s ∧ roles s' = roles s
  ∧ rulescache s' = rulescache s ∧ funcs (bus s') = funcs (bus s)
  ∧ length (heap s') = length (heap s).
Proof.
  unfold Rules_allow. destruct (heap s !! i) as [o|]; [|done].
  destruct (allow o p) as [r o']. simpl. split_and!; try done. apply length_insert.
Qed.

Lemma auth_ok_isUserAllowed u p s : auth_ok s → auth_ok (run (isUserAllowed u p) s).
Proof.
  intros [Hst Hrc]. unfold run, isUserAllowed, rulescache_get. unfold_M.
  destruct (rulescache s !! u) as [i|] eqn:Hi.
  - destruct (Rules_allow_frame i p s) as (Hc & Hu & Hr & Hk & Hf & Hl). split.
    + apply (stored_ok_frame s); congruence.
    + by apply (rulescache_ok_frame s).
  - unfold _getUserRulesCache.
    destruct (Rules_init_spec u s) as (Hc & Hu & Hr & Hk & Hl & Hmono & Hnew & Hidx).
    destruct (Rules_init u s) as [[i|e] s1]; simpl in *.
    + specialize (Hidx i eq_refl) as ->.
      set (s2 := set_rulescache _ s1).
      destruct (Rules_allow_frame (length (heap s)) p s2) as (Hc' & Hu' & Hr' & Hk' & Hf' & Hl').
      split.
      * apply (stored_ok_frame s); simpl in *; congruence.
      * unfold rulescache_ok. rewrite Hk', Hf', Hl'. simpl.
        apply map_Forall_insert_2.
        -- split; [lia|done].
        -- rewrite Hk. intros v j Hv. destruct (Hrc v j Hv) as [Hlt Hsub].
           split; [lia|]. by apply Hmono.
    + split.
      * apply (stored_ok_frame s); congruence.
      * unfold rulescache_ok. rewrite Hk.
        intros v j Hv. destruct (Hrc v j Hv) as [Hlt Hsub]. split; [lia|].
        by apply Hmono.
Qed.

Lemma tpc_get_mono cached cached' c c' prop n ext :
  tufos c' = tufos c ++ ext →
  (∀ x, cached !! n = Some x → is_Some (cached' !! n)) →
  is_Some (tpc_get cached c prop n) → is_Some (tpc_get cached' c' prop n).
Proof.
  intros Ht Hext. unfold tpc_get.
  destruct (cached' !! n) as [y|] eqn:Hy; [by eexists|].
  destruct (cached !! n) as [x|] eqn:Hx.
  - destruct (Hext x eq_refl) as [? [=]].
  - unfold getTufoByProp, getTufosByProp. rewrite Ht, filter_app.
    rewrite !head_is_Some. intros Hne [Hnil _]%app_eq_nil. done.
Qed.

Lemma form_props_None form valu props key :
  key ≠ "tufo:form" → key ≠ form → (∀ k, key ≠ form +:+ ":" +:+ k) →
  form_props form valu props !! key = None.
Proof.
  intros H1 H2 H3. unfold form_props.
  rewrite !lookup_insert_ne by done. apply not_elem_of_list_to_map.
  rewrite <- list_fmap_compose. intros (kv & Heq & _)%list_elem_of_fmap.
  by apply (H3 kv.1).
Qed.

(** A tufo formed with the next identity joins a store in order. *)
Lemma stored_ok_append s t rows' users' roles' k b h :
  stored_ok s →
  t.1 = nextiden (core s) →
  ¬ (is_user t ∧ is_role t) →
  (is_link t → ¬ is_user t ∧ ¬ is_role t) →
  (is_Some (t.2 !! "auth:userrole:user") →
     ∃ r, t.2 !! "auth:userrole:role" = Some r ∧ is_Some (roles_get s r)) →
  (∀ n x, users' !! n = Some x →
     users s !! n = Some x ∨ (x = t ∧ t.2 !! "auth:user" = Some n)) →
  (∀ n x, roles' !! n = Some x →
     roles s !! n = Some x ∨ (x = t ∧ t.2 !! "auth:role" = Some n)) →
  (∀ n x, roles s !! n = Some x → is_Some (roles' !! n)) →
  stored_ok (mkUserAuth
               (mkCortex (tufos (core s) ++ [t]) rows' (N.succ (nextiden (core s))))
               users' roles' k b h).
Proof.
  intros (((Hnd & Hkind) & Hus & Hro) & Hlt & Hlink & Hlinks) Hid Hk1 Hk2 Hk3 Hu' Hr' Hrext.
  set (s' := mkUserAuth _ _ _ _ _ _).
  assert (∀ r, is_Some (roles_get s r) → is_Some (roles_get s' r)) as Hmono.
  { intros r. unfold roles_get.
    apply (tpc_get_mono _ _ _ _ _ _ [t]); [done|apply Hrext]. }
  unfold stored_ok, store_ok, cortex_ok, tufocache_ok, links_ok. simpl.
  split_and!.
  - rewrite fmap_app. apply NoDup_app. split_and!; [done| |apply NoDup_singleton].
    intros i (x & -> & Hx)%list_elem_of_fmap [=]%list_elem_of_singleton.
    rewrite Forall_forall in Hlt. specialize (Hlt x Hx). lia.
  - apply Forall_app. split; [done|]. by apply Forall_singleton.
  - intros n x Hx. destruct (Hu' n x Hx) as [Hold|[-> Hp]].
    + destruct (Hus n x Hold) as [Hin Hp]. split; [|done]. apply elem_of_app. by left.
    + split; [|done]. apply elem_of_app. right. by left.
  - intros n x Hx. destruct (Hr' n x Hx) as [Hold|[-> Hp]].
    + destruct (Hro n x Hold) as [Hin Hp]. split; [|done]. apply elem_of_app. by left.
    + split; [|done]. apply elem_of_app. right. by left.
  - apply Forall_app. split; [|apply Forall_singleton; lia].
    eapply Forall_impl; [exact Hlt|]. simpl. intros x Hx. lia.
  - apply Forall_app. split; [done|]. by apply Forall_singleton.
  - apply Forall_app. split.
    + eapply Forall_impl; [exact Hlinks|]. intros l Hl Hsome.
      specialize (Hl Hsome). unfold link_rofo in *.
      destruct (l.2 !! "auth:userrole:role") as [r|]; [|done]. simpl in *.
      by apply Hmono.
    + apply Forall_singleton. intros Hsome. destruct (Hk3 Hsome) as (r & Hr & Hex).
      unfold link_rofo. rewrite Hr. simpl. by apply Hmono.
Qed.

Lemma auth_ok_addUser u props s : auth_ok s → auth_ok (run (addUser u props) s).
Proof.
  intros [Hst Hrc]. unfold run, addUser.
  destruct (users_get s u) as [usfo|] eqn:Hu; [done|].
  assert (getTufoByProp (core s) "auth:user" u = None) as Hc.
  { unfold users_get, tpc_get in Hu. by destruct (users s !! u). }
  rewrite (formTufoByProp_new _ _ _ _ Hc). simpl. split; [|done].
  assert (∀ key, key ≠ "tufo:form" → key ≠ "auth:user" →
            (∀ k, key ≠ "auth:user" +:+ ":" +:+ k) →
            ¬ is_Some (form_props "auth:user" u props !! key)) as Hnone.
  { intros key H1 H2 H3. rewrite form_props_None by done. by intros [? [=]]. }
  apply stored_ok_append; simpl; [done|done|..].
  - intros [_ Hr]. by apply Hnone in Hr.
  - intros [Hl|[Hl|Hl]]; by apply Hnone in Hl.
  - intros Hl. by apply Hnone in Hl.
  - intros n x. rewrite lookup_insert. case_decide as Hn; [|by left].
    intros [= <-]. subst n. right. split; [done|]. by apply form_props_form.
  - intros n x Hx. by left.
  - intros n x Hx. by eexists.
Qed.

Lemma auth_ok_addRole q props s : auth_ok s → auth_ok (run (addRole q props) s).
Proof.
  intros [Hst Hrc]. unfold run, addRole.
  destruct (roles_get s q) as [rofo|] eqn:Hq; [done|].
  assert (getTufoByProp (core s) "auth:role" q = None) as Hc.
  { unfold roles_get, tpc_get in Hq. by destruct (roles s !! q). }
  rewrite (formTufoByProp_new _ _ _ _ Hc). simpl. split; [|done].
  assert (∀ key, key ≠ "tufo:form" → key ≠ "auth:role" →
            (∀ k, key ≠ "auth:role" +:+ ":" +:+ k) →
            ¬ is_Some (form_props "auth:role" q props !! key)) as Hnone.
  { intros key H1 H2 H3. rewrite form_props_None by done. by intros [? [=]]. }
  apply stored_ok_append; simpl; [done|done|..].
  - intros [Hu _]. by apply Hnone in Hu.
  - intros [Hl|[Hl|Hl]]; by apply Hnone in Hl.
  - intros Hl. by apply Hnone in Hl.
  - intros n x Hx. by left.
  - intros n x. rewrite lookup_insert. case_decide as Hn; [|by left].
    intros [= <-]. subst n. right. split; [done|]. by apply form_props_form.
  - intros n x Hx. rewrite lookup_insert. case_decide; by eexists.
Qed.

Lemma auth_ok_addUserRole u q s : auth_ok s → auth_ok (run (addUserRole u q) s).
Proof.
  intros Hok. unfold run, addUserRole. unfold_M.
  destruct (_reqUserTufo s u) as [usfo|e]; [|done].
  unfold _reqRoleTufo. destruct (roles_get s q) as [rofo|] eqn:Hq; [|done].
  apply auth_ok_bumpUserRules. destruct Hok as [Hst Hrc].
  unfold formTufoByProp.
  destruct (getTufoByProp (core s) "auth:userrole" (u +:+ ":" +:+ q)) as [l|].
  { split; [|done]. by apply (stored_ok_frame s). }
  split; [|done]. simpl.
  set (t := (nextiden (core s), _)).
  assert (t.2 !! "auth:userrole:role" = Some q) as Hrole by by vm_compute.
  assert (t.2 !! "auth:user" = None) as Hnu by by vm_compute.
  assert (t.2 !! "auth:role" = None) as Hnr by by vm_compute.
  apply stored_ok_append; simpl; [done|done|..].
  - intros [[? Hu] _]. rewrite Hnu in Hu. done.
  - intros _. split; intros [? Hx]; [rewrite Hnu in Hx|rewrite Hnr in Hx]; done.
  - intros _. exists q. split; [done|]. by rewrite Hq.
  - intros n x Hx. by left.
  - intros n x Hx. by left.
  - intros n x Hx. by eexists.
Qed.

(** *** Deleting tufos *)

Lemma sublist_fmap_fst (l1 l2 : list tufo) :
  l1 `sublist_of` l2 → l1.*1 `sublist_of` l2.*1.
Proof. induction 1; simpl; by constructor. Qed.

Lemma delTufo_sublist c t : tufos (delTufo c t) `sublist_of` tufos c.
Proof. apply sublist_filter. Qed.

Lemma delTufos_sublist ds : ∀ c, tufos (foldl delTufo c ds) `sublist_of` tufos c.
Proof.
  induction ds as [|d ds IH]; intros c; [done|].
  simpl. etrans; [apply IH|apply delTufo_sublist].
Qed.

Lemma delTufos_nextiden ds : ∀ c, nextiden (foldl delTufo c ds) = nextiden c.
Proof. induction ds as [|d ds IH]; intros c; [done|]. simpl. by rewrite IH. Qed.

Lemma delTufos_elem ds : ∀ c (x : tufo),
  x ∈ tufos (foldl delTufo c ds) ↔ x ∈ tufos c ∧ ∀ d : tufo, d ∈ ds → x.1 ≠ d.1.
Proof.
  induction ds as [|d ds IH]; intros c x.
  - simpl. split; [|tauto]. intros Hx. split; [done|]. intros d Hd.
    by apply elem_of_nil in Hd.
  - simpl. rewrite IH. unfold delTufo at 1. simpl. rewrite list_elem_of_filter.
    split.
    + intros [[Hne Hx] Hall]. split; [done|].
      intros d' [->|Hd']%elem_of_cons; [done|by apply Hall].
    + intros [Hx Hall]. split_and!; [|done|].
      * apply Hall. by left.
      * intros d' Hd'. apply Hall. by right.
Qed.

Lemma NoDup_idens_sublist c c' :
  tufos c' `sublist_of` tufos c → NoDup (tufos c).*1 → NoDup (tufos c').*1.
Proof. intros Hs Hnd. eapply sublist_NoDup; [exact Hnd|by apply sublist_fmap_fst]. Qed.

(** With distinct identities, deleting by property removes exactly the
    tufos that have the property. *)
Lemma delTufosByProp_elem c prop valu (x : tufo) :
  NoDup (tufos c).*1 →
  x ∈ tufos (delTufosByProp c prop valu) ↔ x ∈ tufos c ∧ x.2 !! prop ≠ Some valu.
Proof.
  intros Hnd. unfold delTufosByProp. rewrite delTufos_elem. split.
  - intros [Hx Hall]. split; [done|]. intros Hp. apply (Hall x); [|done].
    by apply list_elem_of_filter.
  - intros [Hx Hp]. split; [done|]. intros d [Hd Hin]%list_elem_of_filter Heq.
    apply Hp. by rewrite (iden_inj c x d).
Qed.

Lemma delTufoByProp_sublist c form valu :
  tufos (delTufoByProp c form valu) `sublist_of` tufos c.
Proof.
  unfold delTufoByProp. destruct (getTufoByProp c form valu); [|done].
  apply delTufo_sublist.
Qed.

Lemma delTufoByProp_nextiden c form valu :
  nextiden (delTufoByProp c form valu) = nextiden c.
Proof. unfold delTufoByProp. by destruct (getTufoByProp c form valu). Qed.

Lemma delTufoByProp_keeps c form valu (x : tufo) :
  NoDup (tufos c).*1 → x ∈ tufos c → x.2 !! form ≠ Some valu →
  x ∈ tufos (delTufoByProp c form valu).
Proof.
  intros Hnd Hx Hp. unfold delTufoByProp.
  destruct (getTufoByProp c form valu) as [t|] eqn:Ht; [|done].
  apply getTufoByProp_Some in Ht as [Hin Htp].
  unfold delTufo. simpl. apply list_elem_of_filter. split; [|done].
  intros Heq. apply Hp. by rewrite (iden_inj c x t).
Qed.

Lemma tpc_get_survives cached cached' c c' prop n :
  (∀ x, cached !! n = Some x → is_Some (cached' !! n)) →
  (∀ x : tufo, x ∈ tufos c → x.2 !! prop = Some n → x ∈ tufos c') →
  is_Some (tpc_get cached c prop n) → is_Some (tpc_get cached' c' prop n).
Proof.
  intros Hcached Hcore. unfold tpc_get.
  destruct (cached' !! n) as [y|] eqn:Hy; [by eexists|].
  destruct (cached !! n) as [x|] eqn:Hx.
  - destruct (Hcached x eq_refl) as [? [=]].
  - intros [x [Hin Hp]%getTufoByProp_Some].
    unfold getTufoByProp, getTufosByProp. apply head_is_Some.
    intros Hnil. eapply filter_nil_not_elem_of; [exact Hnil| |by apply Hcore]. done.
Qed.

(** A store in order stays so when tufos leave it, as long as the cached
    tufos stay and the roles that the remaining links name are still
    found. *)
Lemma stored_ok_shrink s c' users' roles' k b h :
  stored_ok s →
  nextiden c' = nextiden (core s) →
  tufos c' `sublist_of` tufos (core s) →
  (∀ n x, users' !! n = Some x → users s !! n = Some x ∧ x ∈ tufos c') →
  (∀ n x, roles' !! n = Some x → roles s !! n = Some x ∧ x ∈ tufos c') →
  (∀ (l : tufo) r, l ∈ tufos c' → is_Some (l.2 !! "auth:userrole:user") →
     l.2 !! "auth:userrole:role" = Some r → is_Some (roles_get s r) →
     is_Some (roles_get (mkUserAuth c' users' roles' k b h) r)) →
  stored_ok (mkUserAuth c' users' roles' k b h).
Proof.
  intros (((Hnd & Hkind) & Hus & Hro) & Hlt & Hlink & Hlinks) Hn Hsub Hu' Hr' Hl'.
  assert (∀ x, x ∈ tufos c' → x ∈ tufos (core s)) as Hin.
  { intros x Hx. by eapply elem_of_sublist. }
  unfold links_ok in Hlinks. rewrite Forall_forall in Hkind, Hlt, Hlink, Hlinks.
  unfold stored_ok, store_ok, cortex_ok, tufocache_ok, links_ok. simpl.
  rewrite !Forall_forall, Hn. split_and!.
  - by eapply NoDup_idens_sublist.
  - intros x Hx. by apply Hkind, Hin.
  - intros n x Hx. destruct (Hu' n x Hx) as [Hold Hx']. split; [done|].
    by apply (Hus n x).
  - intros n x Hx. destruct (Hr' n x Hx) as [Hold Hx']. split; [done|].
    by apply (Hro n x).
  - intros x Hx. by apply Hlt, Hin.
  - intros x Hx. by apply Hlink, Hin.
  - intros l Hl Hsome. pose proof (Hlinks l (Hin l Hl) Hsome) as Hrofo.
    unfold link_rofo in *. destruct (l.2 !! "auth:userrole:role") as [r|] eqn:Hr.
    + simpl in *. by apply (Hl' l).
    + by destruct Hrofo.
Qed.

Lemma subject_not_link s (x : tufo) :
  stored_ok s → x ∈ tufos (core s) → is_user x ∨ is_role x → ¬ is_link x.
Proof.
  intros (_ & _ & Hlink & _) Hx Hsub Hl. rewrite Forall_forall in Hlink.
  destruct (Hlink x Hx Hl). tauto.
Qed.

Lemma user_not_role s (x : tufo) :
  stored_ok s → x ∈ tufos (core s) → is_user x → ¬ is_role x.
Proof.
  intros (((_ & Hkind) & _) & _) Hx Hu Hr. rewrite Forall_forall in Hkind.
  by apply (Hkind x Hx).
Qed.

Lemma cached_user s n x :
  stored_ok s → users s !! n = Some x →
  x ∈ tufos (core s) ∧ x.2 !! "auth:user" = Some n.
Proof. intros ((_ & Hus & _) & _) Hx. by apply (Hus n x). Qed.

Lemma cached_role s n x :
  stored_ok s → roles s !! n = Some x →
  x ∈ tufos (core s) ∧ x.2 !! "auth:role" = Some n.
Proof. intros ((_ & _ & Hro) & _) Hx. by apply (Hro n x). Qed.

Lemma auth_ok_delUserRole u q s : auth_ok s → auth_ok (run (delUserRole u q) s).
Proof.
  intros Hok. unfold run, delUserRole. unfold_M.
  destruct (_reqUserTufo s u) as [usfo|e]; [|done].
  destruct (_reqRoleTufo s q) as [rofo|e]; [|done].
  apply auth_ok_bumpUserRules. destruct Hok as [Hst Hrc]. split; [|done].
  pose proof Hst as (((Hnd & _) & _) & _).
  assert (∀ x : tufo, x ∈ tufos (core s) → is_user x ∨ is_role x →
            x ∈ tufos (delTufoByProp (core s) "auth:userrole" (u +:+ ":" +:+ q)))
    as Hkeep.
  { intros x Hx Hsub. apply delTufoByProp_keeps; [done|done|].
    intros Hp. apply (subject_not_link s x Hst Hx Hsub). left. by eexists. }
  unfold set_core. apply (stored_ok_shrink s); [done|..].
  - apply delTufoByProp_nextiden.
  - apply delTufoByProp_sublist.
  - intros n x Hx. split; [done|]. destruct (cached_user s n x Hst Hx) as [Hin Hp].
    apply Hkeep; [done|]. left. by eexists.
  - intros n x Hx. split; [done|]. destruct (cached_role s n x Hst Hx) as [Hin Hp].
    apply Hkeep; [done|]. right. by eexists.
  - intros l r _ _ _. unfold roles_get. simpl. apply tpc_get_survives.
    + intros x Hx. by eexists.
    + intros x Hx Hp. apply Hkeep; [done|]. right. by eexists.
Qed.

Lemma auth_ok_delUser u s : auth_ok s → auth_ok (run (delUser u) s).
Proof.
  intros [Hst Hrc]. unfold run, delUser. unfold_M.
  destruct (_reqUserTufo s u) as [usfo|e]; [|done]. simpl.
  pose proof Hst as (((Hnd & _) & _) & _).
  set (c1 := delTufoByProp (core s) "auth:user" u).
  assert (NoDup (tufos c1).*1) as Hnd1.
  { eapply NoDup_idens_sublist; [|done]. apply delTufoByProp_sublist. }
  assert (∀ x : tufo, x ∈ tufos (core s) → x.2 !! "auth:user" ≠ Some u → ¬ is_link x →
            x ∈ tufos (delTufosByProp c1 "auth:userrole:user" u)) as Hkeep.
  { intros x Hx Hp Hnl. apply delTufosByProp_elem; [done|]. split.
    - by apply delTufoByProp_keeps.
    - intros Hl. apply Hnl. right. left. by eexists. }
  split.
  - unfold set_rulescache, set_users, set_core. simpl.
    apply (stored_ok_shrink s); [done|..].
    + unfold delTufosByProp. rewrite delTufos_nextiden. apply delTufoByProp_nextiden.
    + etrans; [apply delTufos_sublist|apply delTufoByProp_sublist].
    + intros n x [Hn Hx]%lookup_delete_Some. split; [done|].
      destruct (cached_user s n x Hst Hx) as [Hin Hp].
      apply Hkeep; [done|congruence|].
      apply (subject_not_link s); [done|done|]. left. by eexists.
    + intros n x Hx. split; [done|].
      destruct (cached_role s n x Hst Hx) as [Hin Hp].
      assert (is_role x) as Hr by by eexists.
      apply Hkeep; [done| |].
      * intros Hpu. apply (user_not_role s x); [done|done| |done]. by eexists.
      * apply (subject_not_link s); [done|done|by right].
    + intros l r _ _ _. unfold roles_get. simpl. apply tpc_get_survives.
      * intros x Hx. by eexists.
      * intros x Hx Hp. assert (is_role x) as Hr by by eexists.
        apply Hkeep; [done| |].
        -- intros Hpu. apply (user_not_role s x); [done|done| |done]. by eexists.
        -- apply (subject_not_link s); [done|done|by right].
  - unfold rulescache_ok. simpl. by apply map_Forall_delete.
Qed.

Lemma auth_ok_delRole q s : auth_ok s → auth_ok (run (delRole q) s).
Proof.
  intros [Hst Hrc]. unfold run, delRole. unfold_M.
  destruct (_reqRoleTufo s q) as [rofo|e]; [|done]. simpl.
  apply auth_ok_bump_each. split; [|done].
  pose proof Hst as (((Hnd & _) & _) & _).
  set (c1 := delTufosByProp (core s) "auth:role" q).
  assert (NoDup (tufos c1).*1) as Hnd1.
  { eapply NoDup_idens_sublist; [|done]. apply delTufos_sublist. }
  assert (∀ x : tufo, x ∈ tufos (core s) → x.2 !! "auth:role" ≠ Some q → ¬ is_link x →
            x ∈ tufos (delTufosByProp c1 "auth:userrole:role" q)) as Hkeep.
  { intros x Hx Hp Hnl. apply delTufosByProp_elem; [done|]. split.
    - by apply delTufosByProp_elem.
    - intros Hl. apply Hnl. right. right. by eexists. }
  unfold set_roles, set_core. simpl.
  apply (stored_ok_shrink s); [done|..].
  - unfold c1, delTufosByProp. by rewrite !delTufos_nextiden.
  - etrans; apply delTufos_sublist.
  - intros n x Hx. split; [done|].
    destruct (cached_user s n x Hst Hx) as [Hin Hp].
    assert (is_user x) as Hu by by eexists.
    apply Hkeep; [done| |].
    + intros Hpr. apply (user_not_role s x); [done|done|done|]. by eexists.
    + apply (subject_not_link s); [done|done|by left].
  - intros n x [Hn Hx]%lookup_delete_Some. split; [done|].
    destruct (cached_role s n x Hst Hx) as [Hin Hp].
    apply Hkeep; [done|congruence|].
    apply (subject_not_link s); [done|done|]. right. by eexists.
  - intros l r Hl _ Hlr. unfold roles_get. simpl.
    apply delTufosByProp_elem in Hl as [_ Hlq]; [|done].
    assert (r ≠ q) as Hrq by congruence.
    apply tpc_get_survives.
    + intros x Hx. rewrite lookup_delete_ne by done. by eexists.
    + intros x Hx Hp. apply Hkeep; [done|congruence|].
      apply (subject_not_link s); [done|done|]. right. by eexists.
Qed.

(** *** Every call keeps the invariant *)

Lemma auth_ok_init : auth_ok (UserAuth_init empty_cortex).
Proof.
  unfold auth_ok, stored_ok, store_ok, cortex_ok, tufocache_ok, links_ok, rulescache_ok.
  simpl. split_and!; try by constructor.
  all: apply map_Forall_empty.
Qed.

Lemma auth_ok_exec s c : auth_ok s → auth_ok (exec s c).
Proof.
  destruct c; simpl.
  - apply auth_ok_addUser.
  - apply auth_ok_addRole.
  - apply auth_ok_addUserRule.
  - apply auth_ok_delUserRule.
  - apply auth_ok_addRoleRule.
  - apply auth_ok_delRoleRule.
  - apply auth_ok_addUserRole.
  - apply auth_ok_delUserRole.
  - apply auth_ok_delUser.
  - apply auth_ok_delRole.
  - apply auth_ok_isUserAllowed.
Qed.

(** Whatever is called on a [UserAuth] made on an empty cortex, the
    invariant holds afterwards. *)
Lemma auth_ok_calls cs : auth_ok (foldl exec (UserAuth_init empty_cortex) cs).
Proof.
  induction cs as [|c cs IH] using rev_ind; [apply auth_ok_init|].
  rewrite foldl_app. simpl. by apply auth_ok_exec.
Qed.

(** Under the invariant the links of every user name roles that are
    found, so that [getUserRules] of an existing user returns. *)
Lemma auth_ok_held_rofos s u : auth_ok s → is_Some (held_rofos s u).
Proof.
  intros [(_ & _ & _ & Hlinks) _]. unfold held_rofos. apply mapM_is_Some_2.
  unfold links_ok in Hlinks. rewrite Forall_forall in Hlinks. apply Forall_forall.
  intros l [Hp Hin]%list_elem_of_filter. simpl. apply Hlinks; [done|]. by eexists.
Qed.

Lemma auth_ok_getUserRules s u :
  auth_ok s → is_Some (users_get s u) → ∃ rs, getUserRules s u = Ok rs.
Proof.
  intros Hok [usfo Hu]. destruct (auth_ok_held_rofos s u Hok) as [rofos Hr].
  eexists. by apply getUserRules_held.
Qed.

(** * More properties of the code *)

(** ** The reactor over a sequence of registrations *)

(** X1. After any sequence of [act] calls, [react] answers with the last
    handler registered for the kind of the message; when the sequence has
    none for that kind the reactor answers as before the sequence, and a
    new reactor raises [NoSuchAct]. *)
Theorem react_after_registrations {P R : Type} (self : Reactor.Reactor P R)
    (regs : list (string * (string * P → res R))) (m : string * P) :
  Reactor.react (act_all self regs) m
  = match last (filter (λ nf, nf.1 = m.1) regs) with
    | Some nf => nf.2 m
    | None => Reactor.react self m
    end
  ∧ (last (filter (λ nf, nf.1 = m.1) regs) = None →
     Reactor.react (act_all Reactor.init regs) m = Raise (NoSuchAct m.1)).
Proof.
  assert (∀ self', Reactor.react (act_all self' regs) m
    = match last (filter (λ nf, nf.1 = m.1) regs) with
      | Some nf => nf.2 m
      | None => Reactor.react self' m
      end) as Hgen.
  { intros self'. unfold act_all.
    induction regs as [|[n f] regs IH] using rev_ind; [done|].
    rewrite foldl_app, filter_app. simpl.
    unfold Reactor.react at 1, Reactor.act at 1. simpl.
    rewrite filter_cons, filter_nil. simpl. case_decide as Hn.
    - subst n. by rewrite lookup_insert_eq, last_snoc.
    - rewrite lookup_insert_ne by done. rewrite app_nil_r. apply IH. }
  split; [apply Hgen|]. intros Hnone. rewrite Hgen, Hnone.
  unfold Reactor.react, Reactor.init. simpl. by rewrite lookup_empty.
Qed.

Lemma react_after_registrations_witness :
  Reactor.react (P := nat) (R := nat)
    (act_all Reactor.init [("a", λ _, Ok 1); ("b", λ _, Ok 2)]) ("c", 0)
  = Raise (NoSuchAct "c").
Proof.
  apply (react_after_registrations (P := nat) (R := nat) Reactor.init
           [("a", λ _, Ok 1); ("b", λ _, Ok 2)] ("c", 0)).
  reflexivity.
Defined.

(** ** A rule cache after a bump *)

Lemma allows_keep self perms R :
  rules self = Some R → coherent self →
  rules (allows self perms).2 = Some R ∧ coherent (allows self perms).2
  ∧ Forall2 (λ p r, r = Ok (scan_rules p R)) perms (allows self perms).1.
Proof.
  revert self. induction perms as [|p perms IH]; intros self HR Hco.
  - simpl. split_and!; [done|done|constructor].
  - simpl. pose proof (coherent_allow self p Hco) as Hco'.
    assert ((allow self p).1 = Ok (scan_rules p R)
            ∧ rules (allow self p).2 = Some R) as [Hres HR'].
    { unfold allow. destruct (cache self !! p) as [b|] eqn:Hp.
      - destruct (Hco _ _ Hp) as (rs & Hrs & ->). simpl. split; congruence.
      - rewrite HR. simpl. done. }
    destruct (allow self p) as [r self']. simpl in *.
    destruct (IH self' HR' Hco') as (H1 & H2 & H3).
    destruct (allows self' perms) as [rs self'']. simpl in *.
    split_and!; [done|done|]. constructor; done.
Qed.

(** X2. Whatever an instance had cached, after [_onBumpUser] with a
    message that carries the rule list [R] every answer of [allow], for
    any permissions asked in any order and any number of times, is the
    scan of [R]. *)
Theorem bump_then_allows (self : Rules) (m : mesg) (R : list string)
    (perms : list string) :
  m.2 !! "rules" = Some R →
  Forall2 (λ p r, r = Ok (scan_rules p R)) perms
          (allows (_onBumpUser self m).2 perms).1
  ∧ rules (allows (_onBumpUser self m).2 perms).2 = Some R
  ∧ user (allows (_onBumpUser self m).2 perms).2 = user self.
Proof.
  intros Hm.
  assert (coherent (_onBumpUser self m).2) as Hco.
  { intros q b. simpl. by rewrite lookup_empty. }
  destruct (allows_keep (_onBumpUser self m).2 perms R Hm Hco) as (H1 & H2 & H3).
  split_and!; [done|done|].
  assert (∀ o ps, user (allows o ps).2 = user o) as Huser.
  { intros o ps. revert o. induction ps as [|p ps IH]; intros o; [done|].
    simpl. assert (user (allow o p).2 = user o) as Hu.
    { unfold allow. destruct (cache o !! p); [done|]. by destruct (rules o). }
    destruct (allow o p) as [r o']. simpl in Hu. specialize (IH o').
    destruct (allows o' ps) as [rs o'']. simpl in *. congruence. }
  by rewrite Huser.
Qed.

Lemma bump_then_allows_witness :
  Forall2 (λ p r, r = Ok (scan_rules p ["foo.*"])) ["foo.bar"; "baz"; "foo.bar"]
    (allows (_onBumpUser (mkRules "visi" {["foo.bar" := false]} (Some []))
                         ("auth:bump:visi", {["rules" := ["foo.*"]]})).2
            ["foo.bar"; "baz"; "foo.bar"]).1.
Proof.
  apply (bump_then_allows (mkRules "visi" {["foo.bar" := false]} (Some []))
           ("auth:bump:visi", {["rules" := ["foo.*"]]}) ["foo.*"]
           ["foo.bar"; "baz"; "foo.bar"]).
  by vm_compute.
Defined.

(** X3. After [_onBumpUser] with a message that has no ['rules'] entry the
    instance has no rule list: every [allow] raises [TypeError] and
    leaves the instance as it is, so that it stays unusable until a
    later bump brings a list. *)
Theorem bump_without_rules (self : Rules) (m : mesg) (perms : list string) :
  m.2 !! "rules" = None →
  Forall (λ r, r = Raise TypeError) (allows (_onBumpUser self m).2 perms).1
  ∧ (allows (_onBumpUser self m).2 perms).2 = (_onBumpUser self m).2.
Proof.
  intros Hm. set (o := (_onBumpUser self m).2).
  assert (∀ p, allow o p = (Raise TypeError, o)) as Hallow.
  { intros p. unfold allow, o. simpl. by rewrite lookup_empty, Hm. }
  induction perms as [|p perms [IH1 IH2]]; [by split|].
  simpl. rewrite Hallow. destruct (allows o perms) as [rs o']. simpl in *.
  split; [by constructor|done].
Qed.

Lemma bump_without_rules_witness :
  Forall (λ r, r = Raise TypeError)
    (allows (_onBumpUser (mkRules "visi" ∅ (Some ["*"])) ("auth:bump:visi", ∅)).2
            ["a"; "b"]).1.
Proof.
  apply (bump_without_rules (mkRules "visi" ∅ (Some ["*"])) ("auth:bump:visi", ∅)
           ["a"; "b"]).
  by vm_compute.
Defined.

(** ** Version strings and tuples *)

Module CommonFacts.
Import Common.

Lemma split_nonempty sep s : split sep s ≠ [].
Proof. destruct s as [|c s]; simpl; [done|]. case_bool_decide; [done|]. by destruct (split sep s). Qed.

Lemma join_cons sep x y ys : join sep (x :: y :: ys) = x +:+ sep +:+ join sep (y :: ys).
Proof. reflexivity. Qed.

Lemma join_split sep s : join (String sep EmptyString) (split sep s) = s.
Proof.
  induction s as [|c s IH]; [done|]. simpl. case_bool_decide as Hc.
  - subst c. pose proof (split_nonempty sep s) as Hne.
    destruct (split sep s) as [|y ys]; [done|]. rewrite join_cons, IH. done.
  - pose proof (split_nonempty sep s) as Hne.
    destruct (split sep s) as [|y ys]; [done|].
    destruct ys as [|y' ys].
    + simpl in *. by rewrite IH.
    + rewrite join_cons in IH. rewrite join_cons, <- IH. reflexivity.
Qed.

Lemma split_sep_free sep x : has_char sep x = false → split sep x = [x].
Proof.
  induction x as [|c x IH]; [done|]. simpl.
  intros [Hc Hx]%orb_false_iff. rewrite Hc. by rewrite (IH Hx).
Qed.

Lemma split_app sep x rest :
  has_char sep x = false →
  split sep (x +:+ String sep rest) = x :: split sep rest.
Proof.
  induction x as [|c x IH]; simpl.
  - intros _. by rewrite bool_decide_eq_true_2.
  - intros [Hc Hx]%orb_false_iff. rewrite Hc. by rewrite (IH Hx).
Qed.

Lemma split_join sep l :
  l ≠ [] → Forall (λ x, has_char sep x = false) l →
  split sep (join (String sep EmptyString) l) = l.
Proof.
  induction l as [|x l IH]; [done|]. intros _ Hall.
  apply Forall_cons in Hall as [Hx Hl]. destruct l as [|y l].
  - simpl. by apply split_sep_free.
  - rewrite join_cons.
    change (split sep (x +:+ String sep (join (String sep EmptyString) (y :: l)))
            = x :: y :: l).
    rewrite split_app by done. f_equal. by apply IH.
Qed.

Lemma ints_inr {E} (py_int : string → E + Z) xs zs :
  ints py_int xs = inr zs ↔ Forall2 (λ x z, py_int x = inr z) xs zs.
Proof.
  revert zs. induction xs as [|x xs IH]; intros zs; simpl.
  - split; [intros [= <-]; constructor|by intros ->%Forall2_nil_inv_l].
  - destruct (py_int x) as [e|z] eqn:Hx.
    + split; [done|]. intros (z & zs' & Hz & _ & _)%Forall2_cons_inv_l. congruence.
    + destruct (ints py_int xs) as [e|zs'] eqn:Hxs.
      * split; [done|]. intros (z' & zs' & _ & Hall & _)%Forall2_cons_inv_l.
        by apply IH in Hall.
      * split.
        -- intros [= <-]. constructor; [done|]. by apply IH.
        -- intros (z' & zs'' & Hz & Hall & ->)%Forall2_cons_inv_l.
           apply IH in Hall. congruence.
Qed.

End CommonFacts.

(** X4. [vertup] undoes [verstr] on every tuple that is not empty, for
    integers that [int] reads back from their [str] and whose [str] has
    no dot. For the empty tuple it does not: [verstr] gives the empty
    string, which [vertup] takes as one piece, so that the result is
    whatever [int('')] is and never the empty tuple. *)
Theorem vertup_verstr {E : Type} (py_int : string → E + Z) (py_str : Z → string)
    (vtup : list Z) :
  (vtup ≠ [] →
   Forall (λ z, py_int (py_str z) = inr z ∧ Common.has_char "." (py_str z) = false) vtup →
   Common.vertup py_int (Common.verstr py_str vtup) = inr vtup)
  ∧ Common.vertup py_int (Common.verstr py_str [])
    = match py_int "" with inl e => inl e | inr z => inr [z] end.
Proof.
  split; [|done]. intros Hne Hall. unfold Common.vertup, Common.verstr.
  rewrite CommonFacts.split_join.
  - apply CommonFacts.ints_inr. apply Forall2_fmap_l, Forall_Forall2_diag.
    eapply Forall_impl; [exact Hall|]. by intros z [Hz _].
  - by destruct vtup.
  - apply Forall_fmap. eapply Forall_impl; [exact Hall|]. by intros z [_ Hz].
Qed.

Lemma vertup_verstr_witness :
  Common.vertup Common.dec_int (Common.verstr Common.dec_str [1; 3; 30]%Z)
  = inr [1; 3; 30]%Z.
Proof.
  apply (vertup_verstr Common.dec_int Common.dec_str [1; 3; 30]%Z).
  - done.
  - repeat constructor.
Defined.

(** X5. When [vertup] returns for a string, it returns one integer for
    each of the pieces between the dots, at least one; and if [str]
    writes each piece back as it was read, [verstr] of the result is the
    string. *)
Theorem verstr_vertup {E : Type} (py_int : string → E + Z) (py_str : Z → string)
    (vstr : string) (vtup : list Z) :
  Common.vertup py_int vstr = inr vtup →
  length vtup = length (Common.split "." vstr)
  ∧ vtup ≠ []
  ∧ ((∀ x z, x ∈ Common.split "." vstr → py_int x = inr z → py_str z = x) →
     Common.verstr py_str vtup = vstr).
Proof.
  unfold Common.vertup. intros Hall%CommonFacts.ints_inr.
  pose proof (Forall2_length _ _ _ Hall) as Hlen.
  pose proof (CommonFacts.split_nonempty "." vstr) as Hne.
  split_and!.
  - done.
  - intros ->. by destruct (Common.split "." vstr).
  - intros Hback. unfold Common.verstr.
    etrans; [|apply (CommonFacts.join_split "." vstr)]. f_equal.
    clear Hlen Hne. induction Hall as [|x z xs zs Hx _ IH]; [done|].
    simpl. rewrite (Hback x z); [|by left|done]. f_equal.
    apply IH. intros x' z' Hin. apply Hback. by right.
Qed.

Lemma verstr_vertup_witness :
  length [1; 3; 30]%Z = length (Common.split "." "1.3.30")
  ∧ [1; 3; 30]%Z ≠ []
  ∧ ((∀ x z, x ∈ Common.split "." "1.3.30" → Common.dec_int x = inr z →
             Common.dec_str z = x) →
     Common.verstr Common.dec_str [1; 3; 30]%Z = "1.3.30").
Proof.
  apply (verstr_vertup Common.dec_int Common.dec_str "1.3.30" [1; 3; 30]%Z).
  reflexivity.
Defined.

(** ** The properties of a tufo *)

Lemma startswith_app pref k : Common.startswith pref (pref +:+ k) = true.
Proof. induction pref as [|a pref IH]; [done|]. simpl. by rewrite bool_decide_eq_true_2. Qed.

Lemma startswith_inv pref p :
  Common.startswith pref p = true →
  p = pref +:+ Common.slice_from (String.length pref) p.
Proof.
  revert p. induction pref as [|a pref IH]; intros p; [done|].
  destruct p as [|b p]; [done|]. simpl.
  intros [Hab Hp]%andb_true_iff. apply bool_decide_eq_true in Hab as ->.
  change (String b p = String b (pref +:+ Common.slice_from (String.length pref) p)).
  f_equal. by apply IH.
Qed.

Lemma append_inj_r pref k k' : pref +:+ k = pref +:+ k' → k = k'.
Proof. induction pref as [|a pref IH]; [done|]. simpl. intros [= H]. by apply IH. Qed.

(** X6. [tufoprops] maps a name to what the tufo has under the form's
    name space for it, and to nothing else: its entry for [k] is the
    entry of the tufo for [form:k], which is what [TufoApi.get(k)]
    returns. A tufo without ['tufo:form'] is read under the name space
    ["None"]. *)
Theorem tufoprops_is_TufoApi_get (t : tufo) (k : string) :
  Common.tufoprops t !! k = Common.TufoApi_get t k
  ∧ Common.TufoApi_get t k = t.2 !! (default "None" (t.2 !! "tufo:form") +:+ ":" +:+ k).
Proof.
  split; [|done]. unfold Common.tufoprops, Common.TufoApi_get.
  set (pref := Common.fmt_s (t.2 !! "tufo:form") +:+ ":").
  assert (Common.fmt_s (t.2 !! "tufo:form") +:+ ":" +:+ k = pref +:+ k) as ->.
  { unfold pref. generalize (Common.fmt_s (t.2 !! "tufo:form")).
    intros f. induction f as [|a f IH]; [done|].
    change (String a (f +:+ ":" +:+ k) = String a ((f +:+ ":") +:+ k)).
    by rewrite IH. }
  generalize (t.2). intros m. revert k.
  apply (map_fold_weak_ind (λ r m, ∀ k, r !! k = m !! (pref +:+ k))).
  - intros k. by rewrite !lookup_empty.
  - intros p v m' r Hp IH k.
    destruct (Common.startswith pref p) eqn:Hs.
    + apply startswith_inv in Hs.
      destruct (decide (k = Common.slice_from (String.length pref) p)) as [->|Hne].
      * rewrite <- Hs. by rewrite !lookup_insert_eq.
      * rewrite !lookup_insert_ne; [apply IH| |done].
        rewrite Hs. intros Heq. apply append_inj_r in Heq. congruence.
    + rewrite lookup_insert_ne; [apply IH|].
      intros ->. by rewrite startswith_app in Hs.
Qed.

(** ** The states that calls lead to *)

Lemma filter_ext_in {A} (P Q : A → Prop) `{!∀ x, Decision (P x), !∀ x, Decision (Q x)}
    (l : list A) :
  (∀ x, x ∈ l → (P x ↔ Q x)) → filter P l = filter Q l.
Proof.
  induction l as [|x l IH]; intros Hext; [done|].
  rewrite !filter_cons. rewrite IH by (intros y Hy; apply Hext; by right).
  destruct (Hext x) as [H1 H2]; [by left|].
  destruct (decide (P x)), (decide (Q x)); tauto.
Qed.

Lemma has_char_app c a b :
  Common.has_char c (a +:+ b) = Common.has_char c a || Common.has_char c b.
Proof. induction a as [|x a IH]; [done|]. simpl. by rewrite IH, orb_assoc. Qed.

(** The key of a link tells the user and the role, for users without a
    colon in their name. *)
Lemma key_inj u r u' r' :
  colon_free u = true → colon_free u' = true →
  u +:+ ":" +:+ r = u' +:+ ":" +:+ r' → u = u' ∧ r = r'.
Proof.
  unfold colon_free. revert u'. induction u as [|a u IH]; intros u' Hu Hu'.
  - destruct u' as [|b u'].
    + change (String ":" r = String ":" r' → "" = "" ∧ r = r'). by intros [= ->].
    + change (String ":" r = String b (u' +:+ ":" +:+ r') → "" = String b u' ∧ r = r').
      intros [= <- _]. simpl in Hu'. rewrite ?bool_decide_eq_true_2 in Hu' by done. done.
  - destruct u' as [|b u'].
    + change (String a (u +:+ ":" +:+ r) = String ":" r' → String a u = "" ∧ r = r').
      intros [= -> _]. simpl in Hu. rewrite ?bool_decide_eq_true_2 in Hu by done. done.
    + change (String a (u +:+ ":" +:+ r) = String b (u' +:+ ":" +:+ r')
              → String a u = String b u' ∧ r = r').
      intros [= -> Heq]. simpl in Hu, Hu'.
      apply negb_true_iff, orb_false_iff in Hu as [_ Hu].
      apply negb_true_iff, orb_false_iff in Hu' as [_ Hu'].
      destruct (IH u') as [-> ->]; [by rewrite Hu|by rewrite Hu'|done|done].
Qed.

Lemma bump_topic_inj u v : "auth:bump:" +:+ u = "auth:bump:" +:+ v → u = v.
Proof. apply append_inj_r. Qed.

Lemma extend_roles_same s s' userroles acc :
  (∀ l, l ∈ userroles → link_rofo s' l = link_rofo s l) →
  (∀ l t, l ∈ userroles → link_rofo s l = Some t →
          getTufoList (core s') t "auth:rules" = getTufoList (core s) t "auth:rules") →
  extend_roles s' userroles acc = extend_roles s userroles acc.
Proof.
  revert acc. induction userroles as [|l ls IH]; intros acc Hl Hrows; [done|].
  simpl. rewrite Hl by by left.
  destruct (link_rofo s l) as [t|] eqn:Ht; [|done].
  rewrite (Hrows l t) by (done || by left).
  apply IH; intros; [apply Hl|eapply Hrows]; try done; by right.
Qed.

(** What [getUserRules] reads: the user's tufo, the user's links, the
    roles they name and the rule lists of these tufos. *)
Lemma getUserRules_same s s' v :
  users_get s' v = users_get s v →
  getTufosByProp (core s') "auth:userrole:user" v
  = getTufosByProp (core s) "auth:userrole:user" v →
  (∀ l, l ∈ getTufosByProp (core s) "auth:userrole:user" v →
        link_rofo s' l = link_rofo s l) →
  (∀ t, users_get s v = Some t →
        getTufoList (core s') t "auth:rules" = getTufoList (core s) t "auth:rules") →
  (∀ l t, l ∈ getTufosByProp (core s) "auth:userrole:user" v → link_rofo s l = Some t →
          getTufoList (core s') t "auth:rules" = getTufoList (core s) t "auth:rules") →
  getUserRules s' v = getUserRules s v.
Proof.
  intros Hu Hlinks Hrofo Hown Hrows. unfold getUserRules, _reqUserTufo.
  rewrite Hu, Hlinks. destruct (users_get s v) as [t|] eqn:Ht; [|done].
  rewrite (Hown t eq_refl). by apply extend_roles_same.
Qed.

(** *** Dispatch, instance by instance *)

Lemma dispatch_at m hs : ∀ hp i o,
  hp !! i = Some o →
  foldl (call_handler m) hp hs !! i
  = Some (if decide (OnBumpUser i ∈ hs) then mkRules (user o) ∅ (m.2 !! "rules") else o).
Proof.
  induction hs as [|h hs IH]; intros hp i o Ho.
  - simpl. destruct (decide (OnBumpUser i ∈ [])) as [Hin|_]; [|done].
    by apply elem_of_nil in Hin.
  - assert (∃ o1, call_handler m hp h !! i = Some o1 ∧ user o1 = user o
              ∧ (h = OnBumpUser i → o1 = mkRules (user o) ∅ (m.2 !! "rules"))
              ∧ (h ≠ OnBumpUser i → o1 = o)) as (o1 & Ho1 & Hu1 & Hb & Hn).
    { destruct h as [j|j]; simpl.
      - destruct (decide (j = i)) as [->|Hji].
        + rewrite Ho. eexists. split; [apply list_lookup_insert_eq; by eapply lookup_lt_Some|].
          split_and!; [done|done|done].
        + exists o. destruct (hp !! j); rewrite ?list_lookup_insert_ne by done;
            (split_and!; [done|done|congruence|done]).
      - exists o. destruct (hp !! j) as [oj|] eqn:Hj.
        + rewrite list_insert_id by done. split_and!; [done|done|done|done].
        + split_and!; done. }
    change (foldl (call_handler m) hp (h :: hs))
      with (foldl (call_handler m) (call_handler m hp h) hs).
    rewrite (IH _ i o1 Ho1), Hu1. f_equal.
    destruct (decide (h = OnBumpUser i)) as [->|Hh].
    + rewrite Hb by done.
      destruct (decide (OnBumpUser i ∈ OnBumpUser i :: hs)) as [_|Hnin];
        [|destruct Hnin; by left].
      by destruct (decide (OnBumpUser i ∈ hs)).
    + rewrite Hn by done.
      destruct (decide (OnBumpUser i ∈ hs)) as [Hin|Hin];
        destruct (decide (OnBumpUser i ∈ h :: hs)) as [Hin'|Hin']; try done.
      * destruct Hin'. by right.
      * apply elem_of_cons in Hin' as [?|?]; congruence.
Qed.

(** *** Bumps *)

Lemma same_store_refl s : same_store s s.
Proof. by repeat split. Qed.

Lemma same_store_trans s1 s2 s3 : same_store s1 s2 → same_store s2 s3 → same_store s1 s3.
Proof. intros (?&?&?&?&?&?) (?&?&?&?&?&?). repeat split; congruence. Qed.

Lemma same_store_fire name info s : same_store s (fire name info s).
Proof. repeat split; simpl; try done. apply dispatch_length. Qed.

Lemma same_store_bump u s : same_store s (run (_bumpUserRules u) s).
Proof.
  unfold run, _bumpUserRules. unfold_M. destruct (getUserRules s u).
  - apply same_store_fire.
  - apply same_store_refl.
Qed.

Lemma same_store_bump_each us : ∀ s, same_store s (run (bump_each us) s).
Proof.
  induction us as [|o us IH]; intros s; [apply same_store_refl|].
  unfold run. simpl. unfold_M. destruct o as [u|]; simpl; [|apply same_store_refl].
  pose proof (same_store_bump u s) as Hb. unfold run in Hb.
  destruct (_bumpUserRules u s) as [[[]|e] s1]; simpl in *; [|done].
  eapply same_store_trans; [exact Hb|apply IH].
Qed.

Lemma same_store_getUserRules s s' v : same_store s s' → getUserRules s' v = getUserRules s v.
Proof. intros (?&?&?&_). by apply getUserRules_frame. Qed.

Lemma same_store_users_get s s' v : same_store s s' → users_get s' v = users_get s v.
Proof. intros (Hc&Hu&_). unfold users_get. by rewrite Hc, Hu. Qed.

Lemma same_store_auth_ok s s' : same_store s s' → auth_ok s → auth_ok s'.
Proof.
  intros (Hc&Hu&Hr&Hk&Hf&Hl) [Hst Hrc]. split.
  - apply (stored_ok_frame s); congruence.
  - by apply (rulescache_ok_frame s).
Qed.

Lemma same_store_auth_ok_back s s' : same_store s s' → auth_ok s' → auth_ok s.
Proof.
  intros (Hc&Hu&Hr&Hk&Hf&Hl) [Hst Hrc]. split.
  - apply (stored_ok_frame s'); congruence.
  - by apply (rulescache_ok_frame s').
Qed.

Lemma names_ok_frame s s' :
  core s' = core s → users s' = users s → names_ok s → names_ok s'.
Proof.
  intros Hc Hu (Hall & Hu1 & Hu2 & Hu3). unfold names_ok. rewrite Hc.
  split_and!; try done. eapply Forall_impl; [exact Hall|].
  intros t [Hn Hl]. split; [done|]. intros Hlink.
  destruct (Hl Hlink) as (u & r & H1 & H2 & H3 & H4). exists u, r.
  split_and!; try done. unfold users_get. by rewrite Hc, Hu.
Qed.

(** A bump replaces the rules of the instances subscribed to the topic of
    the user and leaves every other instance as it is. *)
Lemma fire_bump_at s u rs i o :
  handlers_ok s → heap s !! i = Some o →
  heap (fire ("auth:bump:" +:+ u) {["rules" := rs]} s) !! i
  = Some (if decide (OnBumpUser i ∈ funcs (bus s) !!! ("auth:bump:" +:+ u))
          then mkRules u ∅ (Some rs) else o).
Proof.
  intros Hh Ho. simpl. rewrite (dispatch_at _ _ _ i o Ho). f_equal.
  destruct (decide _) as [Hin|]; [|done]. simpl. rewrite lookup_singleton_eq.
  destruct (Hh _ _ Hin) as (o' & Ho' & Hname). apply bump_topic_inj in Hname.
  congruence.
Qed.

Lemma handlers_ok_fire name info s : handlers_ok s → handlers_ok (fire name info s).
Proof.
  intros Hh n i Hin. simpl in Hin. destruct (Hh n i Hin) as (o & Ho & Hn).
  simpl. rewrite (dispatch_at _ _ _ i o Ho). eexists. split; [done|].
  by destruct (decide _).
Qed.

Lemma bump_each_singleton u s : bump_each [Some u] s = _bumpUserRules u s.
Proof.
  simpl. unfold_M. by destruct (_bumpUserRules u s) as [[[]|e] s1].
Qed.

(** Bumping every pending user, each of whom exists, makes all cached
    instances fresh. *)
Lemma bump_each_sound us : ∀ s,
  auth_ok s → handlers_ok s → fresh_but us s →
  Forall (λ o, ∃ u, o = Some u ∧ is_Some (users_get s u)) us →
  (bump_each us s).1 = Ok tt
  ∧ handlers_ok (run (bump_each us) s)
  ∧ fresh_but [] (run (bump_each us) s).
Proof.
  induction us as [|o us IH]; intros s Hok Hh Hfr Hus; [done|].
  apply Forall_cons in Hus as [(u & -> & Hu) Hus].
  destruct (auth_ok_getUserRules s u Hok Hu) as [rs Hrs].
  unfold run. simpl. unfold_M. unfold _bumpUserRules. unfold_M. rewrite Hrs.
  set (s1 := fire ("auth:bump:" +:+ u) {["rules" := rs]} s).
  pose proof (same_store_fire ("auth:bump:" +:+ u) {["rules" := rs]} s) as Hsame.
  fold s1 in Hsame.
  apply (IH s1).
  - by apply auth_ok_fire.
  - by apply handlers_ok_fire.
  - intros v i Hv. destruct Hsame as (_&_&_&Hk&_). rewrite Hk in Hv.
    destruct (Hfr v i Hv) as [(o & Ho & Hov) Hfresh].
    pose proof (fire_bump_at s u rs i o Hh Ho) as Hat. fold s1 in Hat.
    split.
    + eexists. split; [exact Hat|]. destruct (decide _) as [Hin|]; [|done]. simpl.
      destruct (Hh _ _ Hin) as (o' & Ho' & Hname). apply bump_topic_inj in Hname.
      congruence.
    + intros Hnp. destruct (decide (v = u)) as [->|Hne].
      * destruct Hok as [_ Hrc]. destruct (Hrc u i Hv) as [_ Hsub].
        rewrite decide_True in Hat by done.
        exists (mkRules u ∅ (Some rs)), rs. split_and!; [done| |done|].
        -- rewrite <- Hrs. by apply getUserRules_frame.
        -- intros q b. simpl. by rewrite lookup_empty.
      * destruct Hfresh as (o' & rs' & Ho' & Hrs' & Hr' & Hco').
        { intros [[=]|?]%elem_of_cons; [congruence|done]. }
        rewrite decide_False in Hat.
        -- exists o, rs'. assert (o' = o) as -> by congruence.
           split_and!; [done| |done|done].
           rewrite <- Hrs'. by apply getUserRules_frame.
        -- intros Hin. destruct (Hh _ _ Hin) as (o'' & Ho'' & Hname).
           apply bump_topic_inj in Hname. congruence.
  - eapply Forall_impl; [exact Hus|]. intros o (w & -> & Hw). exists w.
    split; [done|]. by rewrite (same_store_users_get s s1).
Qed.

(** *** A change of the store followed by bumps *)

Lemma names_ok_tufos s s' :
  tufos (core s') = tufos (core s) → users s' = users s → names_ok s → names_ok s'.
Proof.
  intros Hc Hu (Hall & Hu1 & Hu2 & Hu3). unfold names_ok, uniq in *. rewrite Hc.
  split_and!; try done. eapply Forall_impl; [exact Hall|].
  intros t [Hn Hl]. split; [done|]. intros Hlink.
  destruct (Hl Hlink) as (u & r & H1 & H2 & H3 & H4). exists u, r.
  split_and!; try done. unfold users_get in *. rewrite Hu.
  by rewrite (tpc_get_tufos _ (core s') (core s)).
Qed.

Lemma handlers_ok_same s s' :
  heap s' = heap s → bus s' = bus s → handlers_ok s → handlers_ok s'.
Proof. unfold handlers_ok. by intros -> ->. Qed.

Lemma sound_step s s1 pending :
  sound s →
  heap s1 = heap s → bus s1 = bus s →
  auth_ok s1 → names_ok s1 →
  (∀ v i, rulescache s1 !! v = Some i → rulescache s !! v = Some i) →
  (∀ v i, rulescache s1 !! v = Some i → Some v ∉ pending →
          getUserRules s1 v = getUserRules s v) →
  Forall (λ o, ∃ u, o = Some u ∧ is_Some (users_get s1 u)) pending →
  (bump_each pending s1).1 = Ok tt ∧ sound (run (bump_each pending) s1).
Proof.
  intros (Hok & Hnames & Hh & Hfr) Hheap Hbus Hok1 Hnames1 Hcached Hrules Hpend.
  assert (handlers_ok s1) as Hh1 by by apply (handlers_ok_same s).
  assert (fresh_but pending s1) as Hfr1.
  { intros v i Hv. destruct (Hfr v i (Hcached v i Hv)) as [Hidx Hfresh].
    rewrite Hheap. split; [done|]. intros Hnp.
    destruct Hfresh as (o & rs & Ho & Hrs & Hr & Hco); [apply not_elem_of_nil|].
    exists o, rs. rewrite Hheap. split_and!; try done.
    by rewrite (Hrules v i). }
  destruct (bump_each_sound pending s1 Hok1 Hh1 Hfr1 Hpend) as (Hres & Hh2 & Hfr2).
  split; [done|]. pose proof (same_store_bump_each pending s1) as Hsame.
  split_and!; [|apply (names_ok_frame s1)| |]; try done.
  - by apply (same_store_auth_ok s1).
  - apply Hsame.
  - apply Hsame.
Qed.

Lemma run_bump_each_singleton u s : run (bump_each [Some u]) s = run (_bumpUserRules u) s.
Proof. unfold run. by rewrite bump_each_singleton. Qed.

Lemma user_edit_others s c0 usfo u v :
  store_ok s → users_get s u = Some usfo → edits_only (core s) c0 usfo → v ≠ u →
  getUserRules (set_core c0 s) v = getUserRules s v.
Proof.
  intros Hok Hu Hed Hne. apply (getUserRules_edit s c0 usfo); [done| |].
  - intros vsfo Hv Heq. by destruct Hne; eapply user_user_idens.
  - intros l rofo _ (r & _ & Hr)%link_rofo_Some Heq. by eapply user_role_idens.
Qed.

Lemma role_edit_others s c0 rofo q v :
  store_ok s → roles_get s q = Some rofo → edits_only (core s) c0 rofo →
  Some v ∉ linked_users s q →
  getUserRules (set_core c0 s) v = getUserRules s v.
Proof.
  intros Hok Hr Hed Hnotin. apply (getUserRules_edit s c0 rofo); [done| |].
  - intros vsfo Hv Heq. by eapply user_role_idens.
  - intros l qofo Hl (q' & Hq & Hqr)%link_rofo_Some Heq.
    destruct Hnotin. unfold linked_users. apply list_elem_of_fmap. exists l.
    unfold getTufosByProp in *. apply list_elem_of_filter in Hl as [Hlu Hlin].
    split; [done|]. apply list_elem_of_filter. split; [|done].
    rewrite Hq. f_equal. by eapply role_role_idens.
Qed.

(** The users linked to a role exist. *)
Lemma linked_users_exist s q :
  names_ok s →
  Forall (λ o, ∃ u, o = Some u ∧ is_Some (users_get s u)) (linked_users s q).
Proof.
  intros (Hall & _). rewrite Forall_forall in Hall. apply Forall_forall.
  intros o (l & -> & [Hp Hin]%list_elem_of_filter)%list_elem_of_fmap.
  destruct (Hall l Hin) as [_ Hshape].
  destruct Hshape as (u & r & _ & Hu & _ & Hex).
  { right. right. by eexists. }
  exists u. by split.
Qed.

Lemma sound_user_edit s u usfo c0 :
  sound s → users_get s u = Some usfo →
  edits_only (core s) c0 usfo → nextiden c0 = nextiden (core s) →
  sound (run (_bumpUserRules u) (set_core c0 s)).
Proof.
  intros Hs Hu Hed Hn. pose proof Hs as (Hok & Hnames & _).
  rewrite <- run_bump_each_singleton.
  apply (sound_step s); try done.
  - by apply (auth_ok_edit c0 usfo).
  - apply (names_ok_tufos s); [apply Hed|done|done].
  - intros v i _ Hnp. apply (user_edit_others s c0 usfo u); [apply Hok|done|done|].
    intros ->. apply Hnp. by left.
  - apply Forall_singleton. exists u. split; [done|].
    unfold users_get in *. simpl. rewrite (tpc_get_tufos _ c0 (core s)) by apply Hed.
    by rewrite Hu.
Qed.

Lemma sound_role_edit s q rofo c0 :
  sound s → roles_get s q = Some rofo →
  edits_only (core s) c0 rofo → nextiden c0 = nextiden (core s) →
  sound (run (bump_role_users q) (set_core c0 s)).
Proof.
  intros Hs Hq Hed Hn. pose proof Hs as (Hok & Hnames & _).
  assert (names_ok (set_core c0 s)) as Hnames1.
  { apply (names_ok_tufos s); [apply Hed|done|done]. }
  assert (linked_users (set_core c0 s) q = linked_users s q) as Hlinked.
  { unfold linked_users. f_equal. apply getTufosByProp_tufos. apply Hed. }
  unfold run, bump_role_users. fold (run (bump_each (linked_users (set_core c0 s) q)) (set_core c0 s)).
  apply (sound_step s); try done.
  - by apply (auth_ok_edit c0 rofo).
  - intros v i _ Hnp. apply (role_edit_others s c0 rofo q); [apply Hok|done|done|].
    by rewrite <- Hlinked.
  - by apply linked_users_exist.
Qed.

Lemma sound_rule_edits s u r :
  sound s →
  sound (exec s (AddUserRule u r)) ∧ sound (exec s (DelUserRule u r))
  ∧ sound (exec s (AddRoleRule u r)) ∧ sound (exec s (DelRoleRule u r)).
Proof.
  intros Hs. simpl. unfold run, addUserRule, delUserRule, addRoleRule, delRoleRule.
  unfold_M. unfold _reqUserTufo, _reqRoleTufo. split_and!.
  - destruct (users_get s u) as [usfo|] eqn:Hu; [|done].
    apply (sound_user_edit s u usfo); [done|done|apply addTufoList_edits_only|done].
  - destruct (users_get s u) as [usfo|] eqn:Hu; [|done].
    apply (sound_user_edit s u usfo); [done|done|apply delTufoListValu_edits_only|done].
  - destruct (roles_get s u) as [rofo|] eqn:Hq; [|done].
    apply (sound_role_edit s u rofo); [done|done|apply addTufoList_edits_only|done].
  - destruct (roles_get s u) as [rofo|] eqn:Hq; [|done].
    apply (sound_role_edit s u rofo); [done|done|apply delTufoListValu_edits_only|done].
Qed.

(** *** A tufo joins the store *)

Lemma getTufosByProp_snoc c rows' n' (t : tufo) p v :
  getTufosByProp (mkCortex (tufos c ++ [t]) rows' n') p v
  = getTufosByProp c p v ++ (if decide (t.2 !! p = Some v) then [t] else []).
Proof.
  unfold getTufosByProp. simpl. by rewrite filter_app.
Qed.

Lemma getTufosByProp_snoc_ne c rows' n' (t : tufo) p v :
  t.2 !! p ≠ Some v →
  getTufosByProp (mkCortex (tufos c ++ [t]) rows' n') p v = getTufosByProp c p v.
Proof.
  intros Hne. rewrite getTufosByProp_snoc. rewrite decide_False by done.
  apply app_nil_r.
Qed.

Lemma tpc_get_snoc cached cached' c rows' n' (t : tufo) prop name :
  cached' !! name = cached !! name → t.2 !! prop ≠ Some name →
  tpc_get cached' (mkCortex (tufos c ++ [t]) rows' n') prop name
  = tpc_get cached c prop name.
Proof.
  intros Hc Hne. unfold tpc_get, getTufoByProp. rewrite Hc.
  by rewrite getTufosByProp_snoc_ne.
Qed.

Lemma getUserRules_append s (t : tufo) n' users' roles' k b h v :
  users' !! v = users s !! v →
  t.2 !! "auth:user" ≠ Some v →
  t.2 !! "auth:userrole:user" ≠ Some v →
  (∀ (l : tufo) r, l ∈ getTufosByProp (core s) "auth:userrole:user" v →
     l.2 !! "auth:userrole:role" = Some r →
     roles' !! r = roles s !! r ∧ t.2 !! "auth:role" ≠ Some r) →
  getUserRules (mkUserAuth (mkCortex (tufos (core s) ++ [t]) (rows (core s)) n')
                           users' roles' k b h) v
  = getUserRules s v.
Proof.
  intros Hu Htu Htl Hroles. apply getUserRules_same; simpl.
  - unfold users_get. simpl. by apply tpc_get_snoc.
  - by apply getTufosByProp_snoc_ne.
  - intros l Hl. unfold link_rofo.
    destruct (l.2 !! "auth:userrole:role") as [r|] eqn:Hr; [|done]. simpl.
    destruct (Hroles l r Hl Hr) as [Hro Hne]. unfold roles_get. simpl.
    by apply tpc_get_snoc.
  - done.
  - done.
Qed.

Lemma names_ok_append s (t : tufo) rows' n' users' roles' k b h :
  names_ok s →
  (∀ n, t.2 !! "auth:user" = Some n → colon_free n = true) →
  (is_link t → link_shape s t) →
  (∀ n x, users s !! n = Some x → is_Some (users' !! n)) →
  (∀ form v, form ∈ ["auth:user"; "auth:role"; "auth:userrole"] →
     t.2 !! form = Some v → getTufoByProp (core s) form v = None) →
  names_ok (mkUserAuth (mkCortex (tufos (core s) ++ [t]) rows' n') users' roles' k b h).
Proof.
  intros (Hall & Hu1 & Hu2 & Hu3) Hcf Hshape Hext Hnew.
  set (s' := mkUserAuth _ _ _ _ _ _).
  assert (∀ u, is_Some (users_get s u) → is_Some (users_get s' u)) as Hmono.
  { intros u. unfold users_get. apply (tpc_get_mono _ _ _ _ _ _ [t]); [done|apply Hext]. }
  assert (∀ l, link_shape s l → link_shape s' l) as Hsh.
  { intros l (u & r & H1 & H2 & H3 & H4). exists u, r. split_and!; try done. by apply Hmono. }
  assert (∀ form, form ∈ ["auth:user"; "auth:role"; "auth:userrole"] →
            uniq (core s) form → uniq (core s') form) as Huniq.
  { intros form Hform Hun t1 t2 v. simpl.
    assert (∀ x : tufo, x ∈ tufos (core s) → x.2 !! form = Some v →
              t.2 !! form = Some v → False) as Hclash.
    { intros x Hx Hxv Htv. specialize (Hnew form v Hform Htv).
      unfold getTufoByProp, getTufosByProp in Hnew. apply head_None in Hnew.
      eapply filter_nil_not_elem_of; [exact Hnew| |exact Hx]. done. }
    intros [H1|H1%list_elem_of_singleton]%elem_of_app
           [H2|H2%list_elem_of_singleton]%elem_of_app Hv1 Hv2; subst.
    - by eapply Hun.
    - destruct (Hclash t1 H1 Hv1 Hv2).
    - destruct (Hclash t2 H2 Hv2 Hv1).
    - done. }
  unfold names_ok. split_and!.
  - simpl. apply Forall_app. split.
    + eapply Forall_impl; [exact Hall|]. intros x [Hn Hl]. split; [done|].
      intros Hlink. by apply Hsh, Hl.
    + apply Forall_singleton. split; [done|]. intros Hlink. by apply Hsh, Hshape.
  - apply Huniq; [set_solver|done].
  - apply Huniq; [set_solver|done].
  - apply Huniq; [set_solver|done].
Qed.

Lemma fresh_user_exists s v i :
  fresh_but [] s → rulescache s !! v = Some i → is_Some (users_get s v).
Proof.
  intros Hfr Hv. destruct (Hfr v i Hv) as [_ Hfresh].
  destruct Hfresh as (o & rs & _ & Hrs & _); [apply not_elem_of_nil|].
  unfold getUserRules, _reqUserTufo in Hrs. destruct (users_get s v); [by eexists|done].
Qed.

Lemma sound_no_bump s s1 :
  sound s → heap s1 = heap s → bus s1 = bus s →
  auth_ok s1 → names_ok s1 →
  (∀ v i, rulescache s1 !! v = Some i → rulescache s !! v = Some i) →
  (∀ v i, rulescache s1 !! v = Some i → getUserRules s1 v = getUserRules s v) →
  sound s1.
Proof.
  intros Hs Hh Hb Hok Hn Hc Hr.
  destruct (sound_step s s1 [] Hs Hh Hb Hok Hn Hc) as [_ Hsound]; [|done|done].
  intros v i Hv _. by eapply Hr.
Qed.

Lemma sound_addUser s u props :
  sound s → colon_free u = true → sound (exec s (AddUser u props)).
Proof.
  intros Hs Hcf. pose proof Hs as (Hok & Hnames & Hh & Hfr).
  pose proof (auth_ok_addUser u props s Hok) as Hok1.
  simpl. unfold run, addUser in *.
  destruct (users_get s u) as [usfo|] eqn:Hu; [done|].
  assert (getTufoByProp (core s) "auth:user" u = None) as Hc.
  { unfold users_get, tpc_get in Hu. by destruct (users s !! u). }
  rewrite (formTufoByProp_new _ _ _ _ Hc) in *. simpl in *.
  assert (∀ key, key ≠ "tufo:form" → key ≠ "auth:user" →
            (∀ k, key ≠ "auth:user" +:+ ":" +:+ k) →
            form_props "auth:user" u props !! key = None) as Hnone.
  { intros key H1 H2 H3. by rewrite form_props_None. }
  assert (form_props "auth:user" u props !! "auth:user" = Some u) as Hname
    by by apply form_props_form.
  apply (sound_no_bump s); try done.
  - apply names_ok_append; simpl; [done|..].
    + intros n. rewrite Hname. by intros [= <-].
    + intros [[x Hl]|[[x Hl]|[x Hl]]]; simpl in Hl; rewrite Hnone in Hl; done.
    + intros n x Hx. rewrite lookup_insert. case_decide; by eexists.
    + intros form v Hform. simpl.
      repeat (apply elem_of_cons in Hform as [->|Hform]);
        [|rewrite Hnone; done..|by apply elem_of_nil in Hform].
      rewrite Hname. by intros [= <-].
  - intros v i Hv. simpl in Hv.
    destruct (fresh_user_exists s v i Hfr Hv) as [vsfo Hvs].
    assert (v ≠ u) as Hne by (intros ->; congruence).
    apply getUserRules_append; simpl.
    + by rewrite lookup_insert_ne.
    + rewrite Hname. congruence.
    + by rewrite Hnone.
    + intros l r _ _. split; [done|]. by rewrite Hnone.
Qed.

Lemma sound_step_bump s s1 u :
  sound s →
  heap s1 = heap s → bus s1 = bus s →
  auth_ok s1 → names_ok s1 →
  (∀ v i, rulescache s1 !! v = Some i → rulescache s !! v = Some i) →
  (∀ v i, rulescache s1 !! v = Some i → v ≠ u →
          getUserRules s1 v = getUserRules s v) →
  is_Some (users_get s1 u) →
  sound (run (_bumpUserRules u) s1).
Proof.
  intros Hs Hh Hb Hok Hn Hc Hr Hu. rewrite <- run_bump_each_singleton.
  apply (sound_step s); try done.
  - intros v i Hv Hnp. apply (Hr v i Hv). intros ->. apply Hnp. by left.
  - apply Forall_singleton. by exists u.
Qed.

Lemma sound_addRole s q props : sound s → sound (exec s (AddRole q props)).
Proof.
  intros Hs. pose proof Hs as (Hok & Hnames & Hh & Hfr).
  pose proof (auth_ok_addRole q props s Hok) as Hok1.
  simpl. unfold run, addRole in *.
  destruct (roles_get s q) as [rofo|] eqn:Hq; [done|].
  assert (getTufoByProp (core s) "auth:role" q = None) as Hc.
  { unfold roles_get, tpc_get in Hq. by destruct (roles s !! q). }
  rewrite (formTufoByProp_new _ _ _ _ Hc) in *. simpl in *.
  assert (∀ key, key ≠ "tufo:form" → key ≠ "auth:role" →
            (∀ k, key ≠ "auth:role" +:+ ":" +:+ k) →
            form_props "auth:role" q props !! key = None) as Hnone.
  { intros key H1 H2 H3. by rewrite form_props_None. }
  assert (form_props "auth:role" q props !! "auth:role" = Some q) as Hname
    by by apply form_props_form.
  apply (sound_no_bump s); try done.
  - apply names_ok_append; simpl; [done|..].
    + intros n. by rewrite Hnone.
    + intros [[x Hl]|[[x Hl]|[x Hl]]]; simpl in Hl; rewrite Hnone in Hl; done.
    + intros n x Hx. by eexists.
    + intros form v Hform. simpl.
      repeat (apply elem_of_cons in Hform as [->|Hform]);
        [rewrite Hnone; done| |rewrite Hnone; done|by apply elem_of_nil in Hform].
      rewrite Hname. by intros [= <-].
  - intros v i Hv. simpl in Hv.
    apply getUserRules_append; simpl.
    + done.
    + by rewrite Hnone.
    + by rewrite Hnone.
    + intros l r [Hlu Hlin]%list_elem_of_filter Hlr.
      assert (r ≠ q) as Hne.
      { intros ->. destruct Hok as [(_ & _ & _ & Hlinks) _].
        unfold links_ok in Hlinks. rewrite Forall_forall in Hlinks.
        destruct (Hlinks l Hlin) as [x Hx]; [by eexists|].
        unfold link_rofo in Hx. rewrite Hlr in Hx. simpl in Hx. congruence. }
      split; [by rewrite lookup_insert_ne|]. rewrite Hname. congruence.
Qed.

Lemma set_core_id s : set_core (core s) s = s.
Proof. by destruct s. Qed.

Lemma sound_addUserRole s u q : sound s → sound (exec s (AddUserRole u q)).
Proof.
  intros Hs. pose proof Hs as (Hok & Hnames & Hh & Hfr).
  pose proof (auth_ok_addUserRole u q s Hok) as Hok1.
  simpl. unfold run, addUserRole in *. unfold_M. unfold _reqUserTufo, _reqRoleTufo in *.
  destruct (users_get s u) as [usfo|] eqn:Hu; [|done].
  destruct (roles_get s q) as [rofo|] eqn:Hq; [|done].
  fold (run (_bumpUserRules u)
          (set_core (formTufoByProp (core s) "auth:userrole" (u +:+ ":" +:+ q)
                       [("user", u); ("role", q)]).2 s)) in *.
  revert Hok1. unfold formTufoByProp.
  destruct (getTufoByProp (core s) "auth:userrole" (u +:+ ":" +:+ q)) as [l|] eqn:Hkey;
    cbn [snd]; intros Hok1.
  { rewrite set_core_id.
    apply (sound_step_bump s); done. }
  set (t := (nextiden (core s),
             form_props "auth:userrole" (u +:+ ":" +:+ q) [("user", u); ("role", q)])).
  assert (t.2 !! "auth:userrole" = Some (u +:+ ":" +:+ q)) as Hk by by vm_compute.
  assert (t.2 !! "auth:userrole:user" = Some u) as Hku by by vm_compute.
  assert (t.2 !! "auth:userrole:role" = Some q) as Hkr by by vm_compute.
  assert (t.2 !! "auth:user" = None) as Hnu by by vm_compute.
  assert (t.2 !! "auth:role" = None) as Hnr by by vm_compute.
  fold t in Hok1 |- *.
  set (s1 := set_core _ s) in *.
  assert (∀ w, is_Some (users_get s w) → is_Some (users_get s1 w)) as Hmono.
  { intros w. unfold users_get. by apply (tpc_get_mono _ _ _ _ _ _ [t]). }
  apply (sound_step_bump s); [done|done|done| | |done| |].
  - eapply same_store_auth_ok_back; [apply (same_store_bump u)|exact Hok1].
  - apply names_ok_append; [done|..].
    + intros n. by rewrite Hnu.
    + intros _. exists u, q. by rewrite Hu.
    + intros n x Hx. by eexists.
    + intros form v Hform.
      repeat (apply elem_of_cons in Hform as [->|Hform]);
        [by rewrite Hnu|by rewrite Hnr| |by apply elem_of_nil in Hform].
      rewrite Hk. by intros [= <-].
  - intros v i _ Hne.
    apply getUserRules_append.
    + done.
    + by rewrite Hnu.
    + rewrite Hku. congruence.
    + intros l r _ _. split; [done|]. by rewrite Hnr.
  - apply Hmono. by rewrite Hu.
Qed.

(** *** Tufos leave the store *)

Lemma filter_all {A} (P : A → Prop) `{!∀ x, Decision (P x)} (l : list A) :
  (∀ x, x ∈ l → P x) → filter P l = l.
Proof.
  induction l as [|x l IH]; intros Hall; [done|].
  rewrite filter_cons, decide_True by (apply Hall; by left).
  f_equal. apply IH. intros y Hy. apply Hall. by right.
Qed.

Lemma delTufos_filter ds : ∀ c,
  tufos (foldl delTufo c ds) = filter (λ x : tufo, x.1 ∉ ds.*1) (tufos c).
Proof.
  induction ds as [|d ds IH]; intros c.
  - simpl. symmetry. apply filter_all. intros x _. apply not_elem_of_nil.
  - simpl. rewrite IH. unfold delTufo at 1. simpl. rewrite list_filter_filter.
    apply list_filter_iff. intros x. rewrite not_elem_of_cons. tauto.
Qed.

Lemma getTufoList_delTufo c (d x : tufo) n :
  x.1 ≠ d.1 → getTufoList (delTufo c d) x n = getTufoList c x n.
Proof.
  intros Hne. unfold getTufoList, delTufo. simpl. rewrite map_lookup_filter.
  destruct (rows c !! (x.1, n)) as [l|]; [|done]. simpl.
  by rewrite option_guard_True.
Qed.

Lemma getTufoList_delTufos ds : ∀ c (x : tufo) n,
  x.1 ∉ ds.*1 → getTufoList (foldl delTufo c ds) x n = getTufoList c x n.
Proof.
  induction ds as [|d ds IH]; intros c x n Hx; [done|].
  simpl. rewrite fmap_cons in Hx. apply not_elem_of_cons in Hx as [Hd Hds].
  rewrite IH by done. by apply getTufoList_delTufo.
Qed.

Lemma shrunk_delTufosByProp c p v :
  NoDup (tufos c).*1 →
  shrunk (λ x : tufo, x.2 !! p = Some v) c (delTufosByProp c p v).
Proof.
  intros Hnd. unfold delTufosByProp, getTufosByProp.
  assert (∀ x : tufo, x ∈ tufos c →
            (x.1 ∉ (filter (λ t : tufo, t.2 !! p = Some v) (tufos c)).*1
             ↔ x.2 !! p ≠ Some v)) as Hiff.
  { intros x Hx. split.
    - intros Hnot Hp. apply Hnot. apply list_elem_of_fmap_2.
      by apply list_elem_of_filter.
    - intros Hp (d & Heq & [Hd Hin]%list_elem_of_filter)%list_elem_of_fmap.
      apply Hp. by rewrite (iden_inj c x d). }
  split_and!.
  - rewrite delTufos_filter. by apply filter_ext_in.
  - apply delTufos_nextiden.
  - intros x n Hx Hp. apply getTufoList_delTufos. by apply Hiff.
Qed.

Lemma shrunk_delTufoByProp c f v :
  NoDup (tufos c).*1 → uniq c f →
  shrunk (λ x : tufo, x.2 !! f = Some v) c (delTufoByProp c f v).
Proof.
  intros Hnd Hun. unfold delTufoByProp.
  destruct (getTufoByProp c f v) as [t|] eqn:Ht.
  - apply getTufoByProp_Some in Ht as [Hin Htp]. split_and!.
    + unfold delTufo. simpl. apply filter_ext_in. intros x Hx. split.
      * intros Hne Hp. apply Hne. f_equal. by apply (Hun x t v).
      * intros Hp Heq. apply Hp. by rewrite (iden_inj c x t).
    + done.
    + intros x n Hx Hp. apply getTufoList_delTufo. intros Heq. apply Hp.
      by rewrite (iden_inj c x t).
  - unfold getTufoByProp, getTufosByProp in Ht. apply head_None in Ht.
    split_and!; [|done|done]. symmetry. apply filter_all.
    intros x Hx Hp. eapply filter_nil_not_elem_of; [exact Ht| |exact Hx]. done.
Qed.

Lemma shrunk_sublist D `{!∀ x, Decision (D x)} c c1 :
  shrunk D c c1 → tufos c1 `sublist_of` tufos c.
Proof. intros (-> & _). apply sublist_filter. Qed.

Lemma shrunk_trans D1 D2 `{!∀ x, Decision (D1 x), !∀ x, Decision (D2 x)} c c1 c2 :
  shrunk D1 c c1 → shrunk D2 c1 c2 → shrunk (λ x, D1 x ∨ D2 x) c c2.
Proof.
  intros (Ht1 & Hn1 & Hr1) (Ht2 & Hn2 & Hr2). split_and!.
  - rewrite Ht2, Ht1, list_filter_filter. apply list_filter_iff. intros x. tauto.
  - congruence.
  - intros x n Hx Hd. rewrite Hr2, Hr1; [done|done|tauto| |tauto].
    rewrite Ht1. apply list_elem_of_filter. tauto.
Qed.

Lemma shrunk_getTufosByProp D `{!∀ x, Decision (D x)} c c1 p v :
  shrunk D c c1 →
  (∀ x : tufo, x ∈ tufos c → x.2 !! p = Some v → ¬ D x) →
  getTufosByProp c1 p v = getTufosByProp c p v.
Proof.
  intros (Ht & _) Hkeep. unfold getTufosByProp. rewrite Ht, list_filter_filter.
  apply filter_ext_in. intros x Hx. split; [tauto|]. intros Hp. split; [done|].
  by apply Hkeep.
Qed.

Lemma shrunk_tpc_get D `{!∀ x, Decision (D x)} c c1 cached cached' prop name :
  shrunk D c c1 → cached' !! name = cached !! name →
  (∀ x : tufo, x ∈ tufos c → x.2 !! prop = Some name → ¬ D x) →
  tpc_get cached' c1 prop name = tpc_get cached c prop name.
Proof.
  intros Hsh Hc Hkeep. unfold tpc_get, getTufoByProp. rewrite Hc.
  by rewrite (shrunk_getTufosByProp D c c1).
Qed.

(** What [getUserRules] reads of a user is still there when the user's
    tufo, the user's links and the roles they name stay. *)
Lemma getUserRules_shrink D `{!∀ x, Decision (D x)} s s1 v :
  shrunk D (core s) (core s1) → store_ok s →
  users s1 !! v = users s !! v →
  (∀ x : tufo, x ∈ tufos (core s) → x.2 !! "auth:user" = Some v → ¬ D x) →
  (∀ l : tufo, l ∈ tufos (core s) → l.2 !! "auth:userrole:user" = Some v → ¬ D l) →
  (∀ (l : tufo) r, l ∈ getTufosByProp (core s) "auth:userrole:user" v →
     l.2 !! "auth:userrole:role" = Some r →
     roles s1 !! r = roles s !! r
     ∧ ∀ x : tufo, x ∈ tufos (core s) → x.2 !! "auth:role" = Some r → ¬ D x) →
  getUserRules s1 v = getUserRules s v.
Proof.
  intros Hsh Hok Hu Huser Hlinks Hroles.
  pose proof Hok as (_ & Hus & Hro).
  apply getUserRules_same.
  - unfold users_get. by apply (shrunk_tpc_get D).
  - by apply (shrunk_getTufosByProp D).
  - intros l Hl. unfold link_rofo.
    destruct (l.2 !! "auth:userrole:role") as [r|] eqn:Hr; [|done]. simpl.
    destruct (Hroles l r Hl Hr) as [Hrc Hkeep]. unfold roles_get.
    by apply (shrunk_tpc_get D).
  - intros t Ht. destruct Hsh as (_ & _ & Hrows).
    apply (tpc_get_Some _ _ _ _ _ Hus) in Ht as [Hin Hp].
    apply Hrows; [done|]. by apply Huser.
  - intros l t Hl (r & Hr & Hrt)%link_rofo_Some. destruct Hsh as (_ & _ & Hrows).
    apply (tpc_get_Some _ _ _ _ _ Hro) in Hrt as [Hin Hp].
    destruct (Hroles l r Hl Hr) as [_ Hkeep].
    apply Hrows; [done|]. by apply Hkeep.
Qed.

Lemma names_ok_shrink D `{!∀ x, Decision (D x)} s s1 :
  shrunk D (core s) (core s1) → names_ok s →
  (∀ (l : tufo) u, l ∈ tufos (core s) → ¬ D l → l.2 !! "auth:userrole:user" = Some u →
     is_Some (users_get s u) → is_Some (users_get s1 u)) →
  names_ok s1.
Proof.
  intros (Ht & _) (Hall & Hu1 & Hu2 & Hu3) Hex.
  assert (∀ x, x ∈ tufos (core s1) → x ∈ tufos (core s) ∧ ¬ D x) as Hin.
  { intros x. rewrite Ht. intros [? ?]%list_elem_of_filter. done. }
  assert (∀ form, uniq (core s) form → uniq (core s1) form) as Hun.
  { intros form Hu t1 t2 v H1 H2. apply Hu; by apply Hin. }
  rewrite Forall_forall in Hall.
  unfold names_ok. split_and!; [|by apply Hun..].
  apply Forall_forall. intros x Hx. destruct (Hin x Hx) as [Hx0 Hd].
  destruct (Hall x Hx0) as [Hcf Hshape]. split; [done|].
  intros Hlink. destruct (Hshape Hlink) as (u & r & H1 & H2 & H3 & H4).
  exists u, r. split_and!; try done. by apply (Hex x).
Qed.

Lemma user_colon_free s w :
  auth_ok s → names_ok s → is_Some (users_get s w) → colon_free w = true.
Proof.
  intros [((_ & Hus & _) & _) _] (Hall & _) [t Ht].
  apply (tpc_get_Some _ _ _ _ _ Hus) in Ht as [Hin Hp].
  rewrite Forall_forall in Hall. destruct (Hall t Hin) as [Hcf _]. by apply Hcf.
Qed.

Lemma link_shape_of s (l : tufo) :
  names_ok s → l ∈ tufos (core s) → is_link l → link_shape s l.
Proof.
  intros (Hall & _) Hl Hlink. rewrite Forall_forall in Hall. by apply (Hall l Hl).
Qed.

(** What [delUserRole] does to the store, before the bump. *)
Lemma delUserRole_parts s u q :
  sound s → is_Some (users_get s u) →
  let s0 := set_core (delTufoByProp (core s) "auth:userrole" (u +:+ ":" +:+ q)) s in
  shrunk (λ x : tufo, x.2 !! "auth:userrole" = Some (u +:+ ":" +:+ q)) (core s) (core s0)
  ∧ (∀ w, users_get s0 w = users_get s w)
  ∧ names_ok s0
  ∧ (∀ v, v ≠ u → getUserRules s0 v = getUserRules s v).
Proof.
  intros (Hok & Hnames & Hh & Hfr) Hu s0.
  pose proof Hok as [Hst _]. pose proof Hst as (((Hnd & _) & _) & _).
  pose proof (shrunk_delTufoByProp (core s) "auth:userrole" (u +:+ ":" +:+ q) Hnd
                (proj2 (proj2 (proj2 Hnames)))) as Hsh.
  change (delTufoByProp (core s) "auth:userrole" (u +:+ ":" +:+ q)) with (core s0) in Hsh.
  assert (∀ x : tufo, x ∈ tufos (core s) → is_user x ∨ is_role x →
            x.2 !! "auth:userrole" ≠ Some (u +:+ ":" +:+ q)) as Hsubj.
  { intros x Hx Hsub Hd. apply (subject_not_link s x Hst Hx Hsub). left. by eexists. }
  assert (∀ w, users_get s0 w = users_get s w) as Husers.
  { intros w. unfold users_get. eapply shrunk_tpc_get; [exact Hsh|done|].
    intros x Hx Hp. apply Hsubj; [done|]. left. by eexists. }
  split_and!; [done|done| |].
  - eapply names_ok_shrink; [exact Hsh|done|]. intros l w _ _ _. by rewrite Husers.
  - intros v Hne. eapply getUserRules_shrink; [exact Hsh|apply Hok|done|..].
    + intros x Hx Hp. apply Hsubj; [done|]. left. by eexists.
    + intros l Hl Hlu Hd.
      destruct (link_shape_of s l Hnames Hl) as (u' & r' & Hk & Hku & Hkr & Hex);
        [left; by eexists|].
      rewrite Hk in Hd. injection Hd as Hd.
      apply key_inj in Hd as [-> ->]; [congruence| |].
      * by apply (user_colon_free s).
      * by apply (user_colon_free s).
    + intros l r Hl Hr. split; [done|]. intros x Hx Hp. apply Hsubj; [done|].
      right. by eexists.
Qed.

Lemma sound_delUserRole s u q : sound s → sound (exec s (DelUserRole u q)).
Proof.
  intros Hs. pose proof Hs as (Hok & Hnames & Hh & Hfr).
  pose proof (auth_ok_delUserRole u q s Hok) as Hok1.
  simpl. unfold run, delUserRole in *. unfold_M. unfold _reqUserTufo, _reqRoleTufo in *.
  destruct (users_get s u) as [usfo|] eqn:Hu; [|done].
  destruct (roles_get s q) as [rofo|] eqn:Hq; [|done].
  destruct (delUserRole_parts s u q Hs) as (Hsh & Husers & Hnames0 & Hothers);
    [by rewrite Hu|].
  set (s1 := set_core (delTufoByProp (core s) "auth:userrole" (u +:+ ":" +:+ q)) s) in *.
  fold (run (_bumpUserRules u) s1) in *.
  apply (sound_step_bump s); [done|done|done| |done|done| |].
  - eapply same_store_auth_ok_back; [apply (same_store_bump u)|exact Hok1].
  - intros v i _ Hne. by apply Hothers.
  - rewrite Husers. by rewrite Hu.
Qed.

(** What [delUser] does to the store. *)
Lemma delUser_parts s u :
  sound s →
  let c2 := delTufosByProp (delTufoByProp (core s) "auth:user" u) "auth:userrole:user" u in
  let s1 := set_rulescache (delete u (rulescache s))
              (set_users (delete u (users s)) (set_core c2 s)) in
  shrunk (λ x : tufo, x.2 !! "auth:user" = Some u ∨ x.2 !! "auth:userrole:user" = Some u)
         (core s) c2
  ∧ (∀ w, w ≠ u → users_get s1 w = users_get s w)
  ∧ names_ok s1
  ∧ (∀ v, v ≠ u → getUserRules s1 v = getUserRules s v).
Proof.
  intros (Hok & Hnames & Hh & Hfr).
  pose proof Hok as [Hst _]. pose proof Hst as (((Hnd & _) & _) & _).
  pose proof (shrunk_delTufoByProp (core s) "auth:user" u Hnd (proj1 (proj2 Hnames))) as Hsh1.
  set (c1 := delTufoByProp (core s) "auth:user" u) in *.
  assert (NoDup (tufos c1).*1) as Hnd1.
  { eapply NoDup_idens_sublist; [|exact Hnd]. eapply shrunk_sublist, Hsh1. }
  pose proof (shrunk_delTufosByProp c1 "auth:userrole:user" u Hnd1) as Hsh2.
  pose proof (shrunk_trans _ _ _ _ _ Hsh1 Hsh2) as Hsh.
  intros c2 s1.
  change (delTufosByProp c1 "auth:userrole:user" u) with (core s1) in Hsh.
  assert (∀ x : tufo, x ∈ tufos (core s) → is_user x ∨ is_role x →
            x.2 !! "auth:user" ≠ Some u →
            ¬ (x.2 !! "auth:user" = Some u ∨ x.2 !! "auth:userrole:user" = Some u)) as Hsubj.
  { intros x Hx Hsub Hne [Hd|Hd]; [done|].
    apply (subject_not_link s x Hst Hx Hsub). right. left. by eexists. }
  assert (∀ w, w ≠ u → users_get s1 w = users_get s w) as Husers.
  { intros w Hw. unfold users_get. eapply shrunk_tpc_get; [exact Hsh| |].
    - simpl. by rewrite lookup_delete_ne.
    - intros x Hx Hp. apply Hsubj; [done| |congruence]. left. by eexists. }
  split_and!; [exact Hsh|done| |].
  - eapply names_ok_shrink; [exact Hsh|done|]. intros l w Hl Hd Hlw Hex.
    rewrite Husers; [done|]. intros ->. apply Hd. by right.
  - intros v Hne.
    eapply getUserRules_shrink; [exact Hsh|apply Hok|..].
    + simpl. by rewrite lookup_delete_ne.
    + intros x Hx Hp. apply Hsubj; [done| |congruence]. left. by eexists.
    + intros l Hl Hlu [Hd|Hd]; [|congruence].
      destruct Hst as (_ & _ & Hlink & _). rewrite Forall_forall in Hlink.
      destruct (Hlink l Hl) as [Hnu _]; [right; left; by eexists|].
      apply Hnu. by eexists.
    + intros l r Hl Hr. split; [done|]. intros x Hx Hp.
      assert (is_role x) as Hrole by by eexists.
      apply Hsubj; [done|by right|]. intros Hpu.
      apply (user_not_role s x); [done|done| |done]. by eexists.
Qed.

Lemma sound_delUser s u : sound s → sound (exec s (DelUser u)).
Proof.
  intros Hs. pose proof Hs as (Hok & Hnames & Hh & Hfr).
  pose proof (auth_ok_delUser u s Hok) as Hok1.
  destruct (delUser_parts s u Hs) as (Hsh & Husers & Hnames1 & Hothers).
  simpl. unfold run, delUser in *. unfold_M. unfold _reqUserTufo in *.
  destruct (users_get s u) as [usfo|] eqn:Hu; [|done].
  simpl in *.
  apply (sound_no_bump s); [done|done|done|done|done| |].
  - intros v i Hv. simpl in Hv. by apply lookup_delete_Some in Hv as [Hne Hv].
  - intros v i Hv. simpl in Hv. apply lookup_delete_Some in Hv as [Hne Hv].
    by apply Hothers.
Qed.

(** What [delRole] does to the store, before the bumps. *)
Lemma delRole_parts s q :
  sound s →
  let c2 := delTufosByProp (delTufosByProp (core s) "auth:role" q) "auth:userrole:role" q in
  let s1 := set_roles (delete q (roles s)) (set_core c2 s) in
  shrunk (λ x : tufo, x.2 !! "auth:role" = Some q ∨ x.2 !! "auth:userrole:role" = Some q)
         (core s) c2
  ∧ (∀ w, users_get s1 w = users_get s w)
  ∧ names_ok s1
  ∧ (∀ v, Some v ∉ linked_users s q → getUserRules s1 v = getUserRules s v).
Proof.
  intros (Hok & Hnames & Hh & Hfr).
  pose proof Hok as [Hst _]. pose proof Hst as (((Hnd & _) & _) & _).
  pose proof (shrunk_delTufosByProp (core s) "auth:role" q Hnd) as Hsh1.
  set (c1 := delTufosByProp (core s) "auth:role" q) in *.
  assert (NoDup (tufos c1).*1) as Hnd1.
  { eapply NoDup_idens_sublist; [|exact Hnd]. eapply shrunk_sublist, Hsh1. }
  pose proof (shrunk_delTufosByProp c1 "auth:userrole:role" q Hnd1) as Hsh2.
  pose proof (shrunk_trans _ _ _ _ _ Hsh1 Hsh2) as Hsh.
  intros c2 s1.
  change (delTufosByProp c1 "auth:userrole:role" q) with (core s1) in Hsh.
  assert (∀ x : tufo, x ∈ tufos (core s) → is_user x ∨ is_role x →
            x.2 !! "auth:role" ≠ Some q →
            ¬ (x.2 !! "auth:role" = Some q ∨ x.2 !! "auth:userrole:role" = Some q)) as Hsubj.
  { intros x Hx Hsub Hne [Hd|Hd]; [done|].
    apply (subject_not_link s x Hst Hx Hsub). right. right. by eexists. }
  assert (∀ x : tufo, x ∈ tufos (core s) → is_user x →
            ¬ (x.2 !! "auth:role" = Some q ∨ x.2 !! "auth:userrole:role" = Some q)) as Huser.
  { intros x Hx Hxu. apply Hsubj; [done|by left|]. intros Hp.
    apply (user_not_role s x); [done|done|done|]. by eexists. }
  assert (∀ w, users_get s1 w = users_get s w) as Husers.
  { intros w. unfold users_get. eapply shrunk_tpc_get; [exact Hsh|done|].
    intros x Hx Hp. apply Huser; [done|]. by eexists. }
  split_and!; [exact Hsh|done| |].
  - eapply names_ok_shrink; [exact Hsh|done|]. intros l w _ _ _. by rewrite Husers.
  - intros v Hnp.
    assert (∀ l : tufo, l ∈ tufos (core s) → l.2 !! "auth:userrole:user" = Some v →
              l.2 !! "auth:userrole:role" ≠ Some q) as Hnotq.
    { intros l Hl Hlu Hlr. apply Hnp. unfold linked_users. apply list_elem_of_fmap.
      exists l. split; [done|]. by apply list_elem_of_filter. }
    eapply getUserRules_shrink; [exact Hsh|apply Hok|done|..].
    + intros x Hx Hp. apply Huser; [done|]. by eexists.
    + intros l Hl Hlu [Hd|Hd]; [|by apply (Hnotq l)].
      destruct Hst as (_ & _ & Hlink & _). rewrite Forall_forall in Hlink.
      destruct (Hlink l Hl) as [_ Hnr]; [right; left; by eexists|].
      apply Hnr. by eexists.
    + intros l r [Hlu Hl]%list_elem_of_filter Hr.
      assert (r ≠ q) as Hrq.
      { intros ->. by apply (Hnotq l). }
      split; [simpl; by rewrite lookup_delete_ne|].
      intros x Hx Hp. apply Hsubj; [done| |congruence]. right. by eexists.
Qed.

(** [delRole] past its check: the bumps return and the state is sound. *)
Lemma delRole_bumps s q :
  sound s →
  let c2 := delTufosByProp (delTufosByProp (core s) "auth:role" q) "auth:userrole:role" q in
  let s1 := set_roles (delete q (roles s)) (set_core c2 s) in
  auth_ok (run (bump_each (linked_users s q)) s1) →
  (bump_each (linked_users s q) s1).1 = Ok tt
  ∧ sound (run (bump_each (linked_users s q)) s1).
Proof.
  intros Hs c2 s1 Hok1. pose proof Hs as (Hok & Hnames & Hh & Hfr).
  destruct (delRole_parts s q Hs) as (Hsh & Husers & Hnames1 & Hothers).
  fold c2 s1 in Hsh, Husers, Hnames1, Hothers.
  refine (sound_step s s1 (linked_users s q) Hs eq_refl eq_refl _ Hnames1 _ _ _).
  - eapply same_store_auth_ok_back; [apply (same_store_bump_each (linked_users s q))|exact Hok1].
  - done.
  - intros v i _ Hnp. by apply Hothers.
  - eapply Forall_impl; [by apply linked_users_exist|].
    intros o (w & -> & Hw). exists w. split; [done|]. by rewrite Husers.
Qed.

Lemma sound_delRole s q : sound s → sound (exec s (DelRole q)).
Proof.
  intros Hs. pose proof Hs as (Hok & _).
  pose proof (auth_ok_delRole q s Hok) as Hok1.
  pose proof (delRole_bumps s q Hs) as Hb.
  simpl. unfold run, delRole in *. unfold_M. unfold _reqRoleTufo in *.
  destruct (roles_get s q) as [rofo|] eqn:Hq; [|done].
  simpl in *. by apply Hb.
Qed.

(** *** Asking *)

Lemma allow_user self p : user (allow self p).2 = user self.
Proof. unfold allow. destruct (cache self !! p); [done|]. by destruct (rules self). Qed.

Lemma allow_rules self p : rules (allow self p).2 = rules self.
Proof.
  unfold allow. destruct (cache self !! p); [done|].
  by destruct (rules self) eqn:Hr.
Qed.

Lemma coherent_answer self p rs :
  coherent self → rules self = Some rs → (allow self p).1 = Ok (scan_rules p rs).
Proof.
  intros Hc Hr. unfold allow. destruct (cache self !! p) as [b|] eqn:Hp.
  - destruct (Hc _ _ Hp) as (rs' & Hrs' & ->). simpl. congruence.
  - by rewrite Hr.
Qed.

Lemma handlers_ok_insert s i o o' :
  handlers_ok s → heap s !! i = Some o → user o' = user o →
  handlers_ok (set_heap (<[i := o']> (heap s)) s).
Proof.
  intros Hh Ho Hu name j Hin. simpl in Hin.
  destruct (Hh name j Hin) as (oj & Hoj & Hname).
  simpl. destruct (decide (j = i)) as [->|Hne].
  - exists o'. split; [apply list_lookup_insert_eq; by eapply lookup_lt_Some|]. congruence.
  - exists oj. by rewrite list_lookup_insert_ne.
Qed.

Lemma sound_Rules_allow s i p : sound s → sound (Rules_allow i p s).2.
Proof.
  intros (Hok & Hn & Hh & Hfr). unfold Rules_allow.
  destruct (heap s !! i) as [o|] eqn:Ho; [|done].
  pose proof (allow_user o p) as Hau. pose proof (allow_rules o p) as Har.
  pose proof (coherent_allow o p) as Hac.
  destruct (allow o p) as [r o']. simpl in *.
  assert (∀ (x : Rules), <[i := x]> (heap s) !! i = Some x) as Hat.
  { intros x. apply list_lookup_insert_eq. by eapply lookup_lt_Some. }
  split_and!.
  - eapply same_store_auth_ok; [|exact Hok]. repeat split; simpl; try done.
    by rewrite length_insert.
  - by apply (names_ok_frame s).
  - by apply (handlers_ok_insert s i o).
  - intros v j Hv. simpl in Hv. destruct (Hfr v j Hv) as [(oj & Hoj & Huj) Hfresh].
    destruct (decide (j = i)) as [->|Hne].
    + assert (oj = o) as -> by congruence. split.
      * exists o'. simpl. split; [apply Hat|congruence].
      * intros Hnp. destruct (Hfresh Hnp) as (o2 & rs & Ho2 & Hrs & Hr & Hco).
        assert (o2 = o) as -> by congruence. exists o', rs. simpl. split_and!.
        -- apply Hat.
        -- rewrite <- Hrs. by apply getUserRules_frame.
        -- congruence.
        -- by apply Hac.
    + split.
      * exists oj. simpl. by rewrite list_lookup_insert_ne.
      * intros Hnp. destruct (Hfresh Hnp) as (o2 & rs & Ho2 & Hrs & Hr & Hco).
        exists o2, rs. simpl. rewrite list_lookup_insert_ne by done.
        split_and!; [done| |done|done].
        rewrite <- Hrs. by apply getUserRules_frame.
Qed.

Lemma on_elem name h s n x :
  x ∈ funcs (bus (on name h s)) !!! n → x ∈ funcs (bus s) !!! n ∨ (n = name ∧ x = h).
Proof.
  unfold on. simpl. rewrite lookup_total_insert. case_decide as Hn.
  - subst n. intros [?|?%list_elem_of_singleton]%elem_of_app; [by left|by right].
  - by left.
Qed.

(** A new instance: what holds of the state once the constructor has
    returned and the instance is cached, and what holds when the
    constructor raised. *)
Lemma Rules_init_parts s u :
  sound s → rulescache s !! u = None →
  match (Rules_init u s).1 with
  | Ok i =>
      let s5 := set_rulescache (<[u := i]> (rulescache (Rules_init u s).2))
                               (Rules_init u s).2 in
      names_ok s5 ∧ handlers_ok s5 ∧ fresh_but [] s5
  | Raise _ =>
      names_ok (Rules_init u s).2 ∧ handlers_ok (Rules_init u s).2
      ∧ fresh_but [] (Rules_init u s).2
  end.
Proof.
  intros (Hok & Hn & Hh & Hfr) Hnone. unfold Rules_init.
  set (new := mkRules u ∅ None).
  set (s1 := set_heap (heap s ++ [new]) s).
  set (s2 := on ("auth:bump:" +:+ u) (OnBumpUser (length (heap s))) s1).
  set (s3 := on "tele:sock:init" (OnTeleSock (length (heap s))) s2).
  assert (heap s3 = heap s ++ [new]) as Hheap by done.
  assert (heap s3 !! length (heap s) = Some new) as Hnew.
  { rewrite Hheap. by apply list_lookup_middle. }
  assert (∀ j o, heap s !! j = Some o → heap s3 !! j = Some o) as Hold.
  { intros j o Ho. rewrite Hheap. by apply lookup_app_l_Some. }
  assert (handlers_ok s3) as Hh3.
  { intros name j Hin. apply on_elem in Hin as [Hin|[_ [=]]].
    apply on_elem in Hin as [Hin|[-> [= ->]]].
    - destruct (Hh name j Hin) as (o & Ho & Hname). exists o. split; [by apply Hold|done].
    - by exists new. }
  assert (fresh_but [] s3) as Hfr3.
  { intros v j Hv. destruct (Hfr v j Hv) as [(o & Ho & Huo) Hfresh]. split.
    - exists o. split; [by apply Hold|done].
    - intros Hnp. destruct (Hfresh Hnp) as (o2 & rs & Ho2 & Hrs & Hr & Hco).
      exists o2, rs. split_and!; [by apply Hold| |done|done].
      rewrite <- Hrs. by apply getUserRules_frame. }
  destruct (getUserRules s3 u) as [rs|e] eqn:Hrs; cbn [fst snd].
  - set (s4 := set_heap _ s3). cbv zeta. set (s5 := set_rulescache _ s4).
    assert (∀ (x : Rules), <[length (heap s) := x]> (heap s3) !! length (heap s) = Some x)
      as Hat.
    { intros x. apply list_lookup_insert_eq. by eapply lookup_lt_Some. }
    split_and!.
    + by apply (names_ok_frame s).
    + apply (handlers_ok_same s4); [done|done|].
      by apply (handlers_ok_insert s3 _ new).
    + intros v j Hv. unfold s5 in Hv. simpl in Hv.
      destruct (decide (v = u)) as [->|Hne].
      * rewrite lookup_insert_eq in Hv. injection Hv as <-. split.
        -- eexists. split; [apply Hat|done].
        -- intros _. exists (mkRules u ∅ (Some rs)), rs. split_and!; [apply Hat| |done|].
           ++ rewrite <- Hrs. by apply getUserRules_frame.
           ++ intros q b. simpl. by rewrite lookup_empty.
      * rewrite lookup_insert_ne in Hv by done.
        destruct (Hfr3 v j Hv) as [(o & Ho & Huo) Hfresh].
        destruct (Hfr v j Hv) as [(o0 & Ho0 & _) _].
        assert (j ≠ length (heap s)) as Hj.
        { apply lookup_lt_Some in Ho0. lia. }
        assert (heap s5 !! j = heap s3 !! j) as Hsame.
        { unfold s5, s4. simpl. by rewrite list_lookup_insert_ne. }
        split.
        -- exists o. by rewrite Hsame.
        -- intros Hnp. destruct (Hfresh Hnp) as (o2 & rs2 & Ho2 & Hrs2 & Hr & Hco).
           exists o2, rs2. rewrite Hsame. split_and!; [done| |done|done].
           rewrite <- Hrs2. by apply getUserRules_frame.
  - split_and!; [|done|done]. by apply (names_ok_frame s).
Qed.

Lemma sound_isUserAllowed s u p : sound s → sound (exec s (IsUserAllowed u p)).
Proof.
  intros Hs. pose proof Hs as (Hok & _).
  pose proof (auth_ok_isUserAllowed u p s Hok) as Hok1.
  simpl. unfold run, isUserAllowed, rulescache_get in *. unfold_M.
  destruct (rulescache s !! u) as [i|] eqn:Hi.
  - by apply sound_Rules_allow.
  - unfold _getUserRulesCache in *. pose proof (Rules_init_parts s u Hs Hi) as Hparts.
    destruct (Rules_init u s) as [[i|e] s1]; simpl in *.
    + apply sound_Rules_allow. destruct Hparts as (Hn & Hh & Hfr).
      split_and!; try done.
      eapply same_store_auth_ok_back; [|exact Hok1]. apply Rules_allow_frame.
    + by destruct Hparts as (Hn & Hh & Hfr).
Qed.

(** *** Every call keeps the cached instances fresh *)

Lemma sound_init : sound (UserAuth_init empty_cortex).
Proof.
  split_and!.
  - apply auth_ok_init.
  - unfold names_ok, uniq. simpl. split_and!; [constructor|..];
      intros t1 t2 v Ht1; by apply elem_of_nil in Ht1.
  - intros name i Hin. simpl in Hin. rewrite lookup_total_empty in Hin.
    by apply elem_of_nil in Hin.
  - intros u i Hu. simpl in Hu. by rewrite lookup_empty in Hu.
Qed.

Lemma sound_exec s c : sound s → call_ok c = true → sound (exec s c).
Proof.
  intros Hs Hc. destruct c as [u props|q props|u r|u r|q r|q r|u q|u q|u|q|u p].
  - by apply sound_addUser.
  - by apply sound_addRole.
  - exact (proj1 (sound_rule_edits s u r Hs)).
  - exact (proj1 (proj2 (sound_rule_edits s u r Hs))).
  - exact (proj1 (proj2 (proj2 (sound_rule_edits s q r Hs)))).
  - exact (proj2 (proj2 (proj2 (sound_rule_edits s q r Hs)))).
  - by apply sound_addUserRole.
  - by apply sound_delUserRole.
  - by apply sound_delUser.
  - by apply sound_delRole.
  - by apply sound_isUserAllowed.
Qed.

Lemma sound_calls cs : forallb call_ok cs = true → sound (after_calls cs).
Proof.
  unfold after_calls. induction cs as [|c cs IH] using rev_ind; intros Hcs.
  - apply sound_init.
  - rewrite forallb_app in Hcs. apply andb_true_iff in Hcs as [Hcs Hc].
    simpl in Hc. rewrite andb_true_r in Hc.
    rewrite foldl_app. simpl. apply sound_exec; [by apply IH|done].
Qed.

(** ** Answers in the states that calls lead to *)

Lemma sound_answer s u p :
  sound s →
  (isUserAllowed u p s).1
  = match getUserRules s u with
    | Ok rs => Ok (scan_rules p rs)
    | Raise e => Raise e
    end.
Proof.
  intros (Hok & Hn & Hh & Hfr).
  destruct (getUserRules s u) as [rs|e] eqn:Hrs.
  - apply isUserAllowed_fresh_rules; [done|]. intros i Hi.
    destruct (Hfr u i Hi) as [_ Hfresh].
    destruct Hfresh as (o & rs' & Ho & Hrs' & Hr & Hco); [apply not_elem_of_nil|].
    exists o. split; [done|]. apply coherent_answer; [done|congruence].
  - assert (rulescache s !! u = None) as Hnone.
    { destruct (rulescache s !! u) as [i|] eqn:Hi; [|done].
      destruct (Hfr u i Hi) as [_ Hfresh].
      destruct Hfresh as (o & rs' & Ho & Hrs' & _); [apply not_elem_of_nil|]. congruence. }
    unfold isUserAllowed, rulescache_get. unfold_M. rewrite Hnone.
    unfold _getUserRulesCache, Rules_init.
    erewrite (getUserRules_frame _ s), Hrs by done. done.
Qed.

(** X7. Whatever was called before on a [UserAuth] made on an empty
    cortex, with user names without a colon: [isUserAllowed(u, p)] answers
    with the scan of the rule list that [getUserRules(u)] returns at that
    moment, and raises what [getUserRules(u)] raises.  No call leaves a
    cached instance with rules or decisions of an earlier state. *)
Theorem isUserAllowed_never_stale (cs : list call) (u p : string) :
  forallb call_ok cs = true →
  (isUserAllowed u p (after_calls cs)).1
  = match getUserRules (after_calls cs) u with
    | Ok rs => Ok (scan_rules p rs)
    | Raise e => Raise e
    end.
Proof. intros Hcs. by apply sound_answer, sound_calls. Qed.

Lemma isUserAllowed_never_stale_witness :
  (isUserAllowed "visi" "foo.bar"
     (after_calls [AddUser "visi" []; AddRole "admin" []; IsUserAllowed "visi" "foo.bar";
                   AddUserRole "visi" "admin"; AddRoleRule "admin" "foo.*";
                   IsUserAllowed "visi" "foo.bar"; DelRole "admin"])).1
  = match getUserRules
            (after_calls [AddUser "visi" []; AddRole "admin" []; IsUserAllowed "visi" "foo.bar";
                          AddUserRole "visi" "admin"; AddRoleRule "admin" "foo.*";
                          IsUserAllowed "visi" "foo.bar"; DelRole "admin"]) "visi" with
    | Ok rs => Ok (scan_rules "foo.bar" rs)
    | Raise e => Raise e
    end.
Proof.
  apply (isUserAllowed_never_stale
           [AddUser "visi" []; AddRole "admin" []; IsUserAllowed "visi" "foo.bar";
            AddUserRole "visi" "admin"; AddRoleRule "admin" "foo.*";
            IsUserAllowed "visi" "foo.bar"; DelRole "admin"] "visi" "foo.bar").
  reflexivity.
Defined.

(** X8. Whatever was called before on a [UserAuth] made on an empty
    cortex: [getUserRules(u)] returns a list when [getUser(u)] finds the
    user and raises [NoSuchUser(u)] otherwise; it never fails on a link
    to a role that is gone, since every role that [getUserRoles(u)] lists
    is a name under which a role is found. *)
Theorem getUserRules_after_calls (cs : list call) (u : string) :
  match getUser (after_calls cs) u with
  | Some _ => ∃ rs, getUserRules (after_calls cs) u = Ok rs
  | None => getUserRules (after_calls cs) u = Raise (NoSuchUser u)
  end
  ∧ ∀ held ro, getUserRoles (after_calls cs) u = Ok held → ro ∈ held →
      ∃ q, ro = Some q ∧ is_Some (roles_get (after_calls cs) q).
Proof.
  pose proof (auth_ok_calls cs) as Hok. fold (after_calls cs) in Hok.
  set (s := after_calls cs) in *. split.
  - unfold getUser. destruct (users_get s u) as [usfo|] eqn:Hu.
    + apply auth_ok_getUserRules; [done|]. by rewrite Hu.
    + unfold getUserRules, _reqUserTufo. by rewrite Hu.
  - intros held ro. unfold getUserRoles, _reqUserTufo.
    destruct (users_get s u) as [usfo|]; [|done]. intros [= <-].
    intros (l & -> & [Hlu Hl]%list_elem_of_filter)%list_elem_of_fmap.
    destruct Hok as [(_ & _ & _ & Hlinks) _]. unfold links_ok in Hlinks.
    rewrite Forall_forall in Hlinks.
    destruct (Hlinks l Hl) as [rofo Hrofo]; [by eexists|].
    apply link_rofo_Some in Hrofo as (q & Hq & Hr). exists q. split; [done|].
    by rewrite Hr.
Qed.

(** ** Errors of the calls on roles *)

(** X9. [addUserRole], [delUserRole], [delUser] and [getUserRoles] look
    for the user first and raise [NoSuchUser] for a name without a user,
    whether the role exists or not; [addUserRole] and [delUserRole] then
    raise [NoSuchRole] for a name without a role, and so does [delRole].
    A call that raises so has changed nothing. *)
Theorem role_calls_require_user_then_role (s : UserAuth) (u q : string) :
  (users_get s u = None →
     addUserRole u q s = (Raise (NoSuchUser u), s)
     ∧ delUserRole u q s = (Raise (NoSuchUser u), s)
     ∧ delUser u s = (Raise (NoSuchUser u), s)
     ∧ getUserRoles s u = Raise (NoSuchUser u))
  ∧ (is_Some (users_get s u) → roles_get s q = None →
     addUserRole u q s = (Raise (NoSuchRole q), s)
     ∧ delUserRole u q s = (Raise (NoSuchRole q), s))
  ∧ (roles_get s q = None → delRole q s = (Raise (NoSuchRole q), s)).
Proof.
  unfold addUserRole, delUserRole, delUser, delRole, getUserRoles.
  unfold_M. unfold _reqUserTufo, _reqRoleTufo. split_and!.
  - intros ->. done.
  - intros [usfo ->] ->. done.
  - intros ->. done.
Qed.

Lemma role_calls_require_user_then_role_witness :
  addUserRole "bob" "nobody" demo_auth = (Raise (NoSuchUser "bob"), demo_auth)
  ∧ addUserRole "visi" "nobody" demo_auth = (Raise (NoSuchRole "nobody"), demo_auth)
  ∧ delRole "nobody" demo_auth = (Raise (NoSuchRole "nobody"), demo_auth).
Proof.
  split_and!.
  - refine (proj1 (proj1 (role_calls_require_user_then_role demo_auth "bob" "nobody") _)).
    by vm_compute.
  - refine (proj1 (proj1 (proj2 (role_calls_require_user_then_role demo_auth "visi" "nobody"))
                     _ _)).
    + eexists. vm_compute. reflexivity.
    + by vm_compute.
  - refine (proj2 (proj2 (role_calls_require_user_then_role demo_auth "visi" "nobody")) _).
    by vm_compute.
Defined.

(** ** Asking for a user that is not there, and asking again *)

(** X10. [isUserAllowed] for a name without a user and without a cached
    instance raises, but not without a trace: the [Rules] instance that
    was being made has subscribed to the bump topic of the name and to
    ["tele:sock:init"] before [getUserRules] raised, and the bus keeps
    both handlers. The instance is not cached, so every such call adds
    another pair of handlers. *)
Theorem isUserAllowed_unknown_user_stays_subscribed (s : UserAuth) (u p : string) :
  users_get s u = None →
  rulescache s !! u = None →
  let s' := (isUserAllowed u p s).2 in
  let i := length (heap s) in
  (∃ o, heap s' = heap s ++ [o] ∧ user o = u)
  ∧ funcs (bus s') !!! ("auth:bump:" +:+ u)
    = funcs (bus s) !!! ("auth:bump:" +:+ u) ++ [OnBumpUser i]
  ∧ funcs (bus s') !!! "tele:sock:init"
    = funcs (bus s) !!! "tele:sock:init" ++ [OnTeleSock i]
  ∧ core s' = core s ∧ users s' = users s ∧ roles s' = roles s
  ∧ rulescache s' = rulescache s.
Proof.
  intros Hu Hc.
  assert (∀ s3, users s3 = users s → core s3 = core s →
            getUserRules s3 u = Raise (NoSuchUser u)) as Hraise.
  { intros s3 Hus Hco. unfold getUserRules, _reqUserTufo, users_get.
    rewrite Hus, Hco. fold (users_get s u). by rewrite Hu. }
  assert ("tele:sock:init" ≠ "auth:bump:" +:+ u) as Hne.
  { change ("auth:bump:" +:+ u) with (String "a" ("uth:bump:" +:+ u)). discriminate. }
  unfold isUserAllowed, mbind, M_bind, bind, rulescache_get. rewrite Hc.
  unfold mbind, M_bind, bind, _getUserRulesCache, Rules_init.
  rewrite Hraise by done. cbn [fst snd]. unfold on. cbn.
  split_and!; try done.
  - by eexists.
  - by rewrite lookup_total_insert_ne, lookup_total_insert_eq.
  - rewrite lookup_total_insert_eq. by rewrite lookup_total_insert_ne.
Qed.

Lemma isUserAllowed_unknown_user_stays_subscribed_witness :
  funcs (bus (isUserAllowed "bob" "foo.bar" (UserAuth_init empty_cortex)).2)
    !!! "tele:sock:init"
  = funcs (bus (UserAuth_init empty_cortex)) !!! "tele:sock:init" ++ [OnTeleSock 0].
Proof.
  apply (isUserAllowed_unknown_user_stays_subscribed (UserAuth_init empty_cortex)
           "bob" "foo.bar").
  - reflexivity.
  - reflexivity.
Defined.

Lemma allow_again o p b o' : allow o p = (Ok b, o') → allow o' p = (Ok b, o').
Proof.
  unfold allow. destruct (cache o !! p) as [ret|] eqn:Hp.
  - intros [= -> <-]. by rewrite Hp.
  - destruct (rules o) as [rs|]; [|done]. intros [= <- <-]. simpl.
    by rewrite lookup_insert_eq.
Qed.

Lemma Rules_allow_again i p s b :
  (Rules_allow i p s).1 = Ok b →
  Rules_allow i p (Rules_allow i p s).2 = (Ok b, (Rules_allow i p s).2).
Proof.
  unfold Rules_allow. destruct (heap s !! i) as [o|] eqn:Ho; [|done].
  destruct (allow o p) as [r o'] eqn:Ha. simpl. intros ->.
  rewrite list_lookup_insert_eq by by eapply lookup_lt_Some.
  rewrite (allow_again o p b o' Ha). unfold set_heap. simpl.
  by rewrite list_insert_insert_eq.
Qed.

(** X11. When [isUserAllowed(u, p)] has returned a decision, asking the
    same again returns the same decision and changes nothing: the
    instance is cached under [u] and the decision under [p]. *)
Theorem isUserAllowed_again (s : UserAuth) (u p : string) (b : bool) :
  (isUserAllowed u p s).1 = Ok b →
  isUserAllowed u p (isUserAllowed u p s).2 = (Ok b, (isUserAllowed u p s).2).
Proof.
  assert (∀ s0 i, rulescache s0 !! u = Some i → (Rules_allow i p s0).1 = Ok b →
            isUserAllowed u p (Rules_allow i p s0).2 = (Ok b, (Rules_allow i p s0).2))
    as Hcached.
  { intros s0 i Hi Hb. pose proof (Rules_allow_again i p s0 b Hb) as Hagain.
    destruct (Rules_allow_frame i p s0) as (_ & _ & _ & Hk & _).
    unfold isUserAllowed at 1, rulescache_get. unfold_M. by rewrite Hk, Hi. }
  unfold isUserAllowed at 1 3 4, rulescache_get. unfold_M.
  destruct (rulescache s !! u) as [i|] eqn:Hi.
  - by apply Hcached.
  - unfold _getUserRulesCache. destruct (Rules_init u s) as [[i|e] s1]; [|done].
    cbn [fst snd]. apply Hcached. simpl. by rewrite lookup_insert_eq.
Qed.

Lemma isUserAllowed_again_witness :
  isUserAllowed "visi" "tufo.form.foo:bar"
    (isUserAllowed "visi" "tufo.form.foo:bar" demo_auth).2
  = (Ok true, (isUserAllowed "visi" "tufo.form.foo:bar" demo_auth).2).
Proof.
  apply (isUserAllowed_again demo_auth "visi" "tufo.form.foo:bar" true).
  by vm_compute.
Defined.

(** ** What the edits of a user's rules do to the effective rules *)

Lemma held_rofo_role s u rofos rofo :
  held_rofos s u = Some rofos → rofo ∈ rofos →
  ∃ (l : tufo) q, l ∈ getTufosByProp (core s) "auth:userrole:user" u
          ∧ l.2 !! "auth:userrole:role" = Some q ∧ roles_get s q = Some rofo.
Proof.
  unfold held_rofos. intros Hm%mapM_Some Hin.
  apply list_elem_of_lookup in Hin as [i Hi].
  destruct (Forall2_lookup_r _ _ _ _ _ Hm Hi) as (l & Hl & Hrofo).
  apply link_rofo_Some in Hrofo as (q & Hq & Hr).
  exists l, q. split_and!; [|done|done]. by eapply list_elem_of_lookup_2.
Qed.

Lemma held_rofo_link s u rofos (l : tufo) rofo :
  held_rofos s u = Some rofos →
  l ∈ getTufosByProp (core s) "auth:userrole:user" u → link_rofo s l = Some rofo →
  rofo ∈ rofos.
Proof.
  unfold held_rofos. intros Hm%mapM_Some Hin Hrofo.
  apply list_elem_of_lookup in Hin as [i Hi].
  destruct (Forall2_lookup_l _ _ _ _ _ Hm Hi) as (y & Hy & Hrofo').
  assert (y = rofo) as -> by congruence. by eapply list_elem_of_lookup_2.
Qed.

(** The effective rules of a user behind an edit of the user's own list. *)
Lemma user_edit_rules s u usfo rofos c0 :
  store_ok s → users_get s u = Some usfo → held_rofos s u = Some rofos →
  edits_only (core s) c0 usfo →
  getUserRules (run (_bumpUserRules u) (set_core c0 s)) u
  = Ok (getTufoList c0 usfo "auth:rules"
        ++ concat ((λ rofo, getTufoList (core s) rofo "auth:rules") <$> rofos)).
Proof.
  intros Hok Hu Hheld Hed. set (s0 := set_core c0 s).
  rewrite (same_store_getUserRules s0) by apply same_store_bump.
  assert (users_get s0 u = Some usfo) as Hu0.
  { unfold users_get. rewrite <- Hu. apply tpc_get_tufos. apply Hed. }
  assert (held_rofos s0 u = Some rofos) as Hheld0.
  { rewrite <- Hheld. apply held_rofos_tufos; [apply Hed|done]. }
  rewrite (getUserRules_held s0 u usfo rofos Hu0 Hheld0). do 3 f_equal.
  apply Forall_fmap_ext, Forall_forall. intros rofo Hin.
  destruct (held_rofo_role s u rofos rofo Hheld Hin) as (l & q & _ & _ & Hq).
  apply Hed. intros Heq. by eapply (user_role_idens s u q usfo rofo).
Qed.

(** X12. In every state that calls lead to, for an existing user:
    [getUserRules] returns the user's own rules followed by the rules of
    the roles held; behind [addUserRule(u, r)] the new rule is the last
    of the user's own rules, in front of every rule of a role; behind
    [delUserRule(u, r)] no own rule equal to [r] is left, while a rule of
    a role that is equal to [r] stays in force. *)
Theorem user_rule_edits_change_own_rules (cs : list call) (u r : string)
    (usfo : tufo) (rofos : list tufo) :
  users_get (after_calls cs) u = Some usfo →
  held_rofos (after_calls cs) u = Some rofos →
  let s := after_calls cs in
  let own := getTufoList (core s) usfo "auth:rules" in
  let held := concat ((λ rofo, getTufoList (core s) rofo "auth:rules") <$> rofos) in
  getUserRules s u = Ok (own ++ held)
  ∧ getUserRules (run (addUserRule u r) s) u = Ok ((own ++ [r]) ++ held)
  ∧ getUserRules (run (delUserRule u r) s) u = Ok (filter (λ x, x ≠ r) own ++ held).
Proof.
  intros Hu Hheld s own held. fold s in Hu, Hheld.
  assert (store_ok s) as Hok by apply auth_ok_calls.
  split_and!.
  - by apply getUserRules_held.
  - unfold run, addUserRule. unfold_M. unfold _reqUserTufo. rewrite Hu.
    fold (run (_bumpUserRules u)
            (set_core (addTufoList (core s) usfo "auth:rules" r) s)).
    rewrite (user_edit_rules s u usfo rofos); [|done|done|done|apply addTufoList_edits_only].
    do 2 f_equal. unfold getTufoList at 1, addTufoList. simpl.
    by rewrite lookup_insert_eq.
  - unfold run, delUserRule. unfold_M. unfold _reqUserTufo. rewrite Hu.
    fold (run (_bumpUserRules u)
            (set_core (delTufoListValu (core s) usfo "auth:rules" r) s)).
    rewrite (user_edit_rules s u usfo rofos);
      [|done|done|done|apply delTufoListValu_edits_only].
    do 2 f_equal. unfold getTufoList at 1, delTufoListValu. simpl.
    by rewrite lookup_insert_eq.
Qed.

Lemma user_rule_edits_change_own_rules_witness :
  getUserRules (run (addUserRule "visi" "foo.*")
                  (after_calls [AddUser "visi" []; AddUserRule "visi" "bar.*"])) "visi"
  = Ok ((getTufoList (core (after_calls [AddUser "visi" []; AddUserRule "visi" "bar.*"]))
           (0%N, form_props "auth:user" "visi" []) "auth:rules" ++ ["foo.*"])
        ++ concat ((λ rofo, getTufoList
                              (core (after_calls [AddUser "visi" [];
                                                  AddUserRule "visi" "bar.*"]))
                              rofo "auth:rules") <$> [])).
Proof.
  refine (proj1 (proj2 (user_rule_edits_change_own_rules
                          [AddUser "visi" []; AddUserRule "visi" "bar.*"] "visi" "foo.*"
                          (0%N, form_props "auth:user" "visi" []) [] _ _))).
  - by vm_compute.
  - by vm_compute.
Defined.

(** ** Granting and revoking roles, deleting users and roles *)

Lemma formTufoByProp_found c form valu props :
  form ≠ "tufo:form" →
  let r := formTufoByProp c form valu props in
  r.1 ∈ tufos r.2 ∧ r.1.2 !! form = Some valu ∧ ∃ ext, tufos r.2 = tufos c ++ ext.
Proof.
  intros Hform. unfold formTufoByProp.
  destruct (getTufoByProp c form valu) as [t|] eqn:Ht; simpl.
  - apply getTufoByProp_Some in Ht as [Hin Hp]. split_and!; [done|done|].
    exists []. by rewrite app_nil_r.
  - split_and!.
    + apply elem_of_app. right. by left.
    + by apply form_props_form.
    + by eexists.
Qed.

Lemma tpc_get_ext cached c c' prop n ext t :
  tufos c' = tufos c ++ ext →
  tpc_get cached c prop n = Some t → tpc_get cached c' prop n = Some t.
Proof.
  intros Ht. unfold tpc_get, getTufoByProp, getTufosByProp.
  destruct (cached !! n); [done|]. rewrite Ht, filter_app.
  by destruct (filter _ (tufos c)).
Qed.

Lemma filter_none {A} (P : A → Prop) `{!∀ x, Decision (P x)} (l : list A) :
  (∀ x, x ∈ l → ¬ P x) → filter P l = [].
Proof.
  intros Hall. destruct (filter P l) as [|x l'] eqn:Hf; [done|].
  assert (x ∈ filter P l) as [Hp Hin]%list_elem_of_filter by (rewrite Hf; by left).
  by destruct (Hall x Hin).
Qed.

Lemma bump_result u s :
  is_Some (users_get s u) → auth_ok s → (_bumpUserRules u s).1 = Ok tt.
Proof.
  intros Hu Hok. destruct (auth_ok_getUserRules s u Hok Hu) as [rs Hrs].
  unfold _bumpUserRules. unfold_M. by rewrite Hrs.
Qed.

(** [addUserRole] past its checks, in a sound state. *)
Lemma sound_grant s u q usfo rofo :
  sound s → users_get s u = Some usfo → roles_get s q = Some rofo →
  let s1 := run (addUserRole u q) s in
  (addUserRole u q s).1 = Ok tt
  ∧ (∃ held, getUserRoles s1 u = Ok held ∧ Some q ∈ held)
  ∧ ∃ rs, getUserRules s1 u = Ok rs
      ∧ (∀ rule, rule ∈ getTufoList (core s1) rofo "auth:rules" → rule ∈ rs)
      ∧ ∀ p, (isUserAllowed u p s1).1 = Ok (scan_rules p rs).
Proof.
  intros Hs Hu Hq s1.
  pose proof (sound_addUserRole s u q Hs) as Hs1. simpl in Hs1. fold s1 in Hs1.
  pose proof Hs as (Hok & Hnames & _). pose proof Hs1 as (Hok1 & Hnames1 & _).
  pose proof (formTufoByProp_found (core s) "auth:userrole" (u +:+ ":" +:+ q)
                [("user", u); ("role", q)] ltac:(done)) as Hform.
  set (r := formTufoByProp (core s) "auth:userrole" (u +:+ ":" +:+ q)
              [("user", u); ("role", q)]) in *.
  set (s0 := set_core r.2 s).
  assert (addUserRole u q s = _bumpUserRules u s0) as Hcall.
  { unfold addUserRole. unfold_M. unfold _reqUserTufo, _reqRoleTufo. by rewrite Hu, Hq. }
  assert (s1 = run (_bumpUserRules u) s0) as Hs1eq by (unfold s1, run; by rewrite Hcall).
  assert (same_store s0 s1) as Hsame by (rewrite Hs1eq; apply same_store_bump).
  cbv zeta in Hform. destruct Hform as (Hl & Hkey & ext & Hext).
  assert (users_get s0 u = Some usfo) as Hu0.
  { unfold users_get. by apply (tpc_get_ext _ (core s) _ _ _ ext). }
  assert (roles_get s0 q = Some rofo) as Hq0.
  { unfold roles_get. by apply (tpc_get_ext _ (core s) _ _ _ ext). }
  assert (users_get s1 u = Some usfo) as Hu1 by by rewrite (same_store_users_get s0 s1).
  assert (roles_get s1 q = Some rofo) as Hq1.
  { unfold roles_get. destruct Hsame as (-> & _ & -> & _). done. }
  assert (core s1 = r.2) as Hcore by apply Hsame.
  assert (r.1 ∈ tufos (core s1)) as Hl1 by by rewrite Hcore.
  destruct (link_shape_of s1 r.1 Hnames1 Hl1) as (u' & q' & Hk & Hku & Hkq & Hex);
    [left; by eexists|].
  assert (u' = u ∧ q' = q) as [-> ->].
  { rewrite Hkey in Hk. injection Hk as Hk. symmetry in Hk.
    apply key_inj in Hk; [done| |].
    - by apply (user_colon_free s1).
    - apply (user_colon_free s); [done|done|]. by rewrite Hu. }
  assert (r.1 ∈ getTufosByProp (core s1) "auth:userrole:user" u) as Hlink.
  { by apply list_elem_of_filter. }
  assert (auth_ok s0) as Hok0 by by eapply same_store_auth_ok_back.
  split_and!.
  - rewrite Hcall. apply bump_result; [by rewrite Hu0|done].
  - eexists. split.
    + unfold getUserRoles, _reqUserTufo. by rewrite Hu1.
    + apply list_elem_of_fmap. by exists r.1.
  - destruct (auth_ok_held_rofos s1 u Hok1) as [rofos Hheld].
    pose proof (getUserRules_held s1 u usfo rofos Hu1 Hheld) as Hrs.
    eexists. split; [exact Hrs|]. split.
    + intros rule Hrule. apply elem_of_app. right.
      apply list_elem_of_In, in_concat.
      exists (getTufoList (core s1) rofo "auth:rules"). split; [|by apply list_elem_of_In].
      apply list_elem_of_In, list_elem_of_fmap. exists rofo. split; [done|].
      apply (held_rofo_link s1 u rofos r.1); [done|done|].
      unfold link_rofo. by rewrite Hkq.
    + intros p. by rewrite (sound_answer s1 u p Hs1), Hrs.
Qed.

(** X13. In every state that calls with user names without a colon lead
    to, for an existing user and an existing role: [addUserRole(u, q)]
    returns; then [getUserRoles(u)] lists [q], every rule of the role is
    among the rules [getUserRules(u)] returns, and [isUserAllowed(u, p)]
    answers by these rules at once. *)
Theorem addUserRole_grants (cs : list call) (u q : string) (usfo rofo : tufo) :
  forallb call_ok cs = true →
  users_get (after_calls cs) u = Some usfo →
  roles_get (after_calls cs) q = Some rofo →
  let s1 := run (addUserRole u q) (after_calls cs) in
  (addUserRole u q (after_calls cs)).1 = Ok tt
  ∧ (∃ held, getUserRoles s1 u = Ok held ∧ Some q ∈ held)
  ∧ ∃ rs, getUserRules s1 u = Ok rs
      ∧ (∀ rule, rule ∈ getTufoList (core s1) rofo "auth:rules" → rule ∈ rs)
      ∧ ∀ p, (isUserAllowed u p s1).1 = Ok (scan_rules p rs).
Proof.
  intros Hcs Hu Hq. apply (sound_grant _ u q usfo rofo); [by apply sound_calls|done|done].
Qed.

Lemma addUserRole_grants_witness :
  (addUserRole "visi" "admin"
     (after_calls [AddUser "visi" []; AddRole "admin" []; AddRoleRule "admin" "foo.*"])).1
  = Ok tt.
Proof.
  refine (proj1 (addUserRole_grants
                   [AddUser "visi" []; AddRole "admin" []; AddRoleRule "admin" "foo.*"]
                   "visi" "admin" (0%N, form_props "auth:user" "visi" [])
                   (1%N, form_props "auth:role" "admin" []) _ _ _)).
  - reflexivity.
  - by vm_compute.
  - by vm_compute.
Defined.

(** [delUserRole] past its checks, in a sound state. *)
Lemma sound_revoke s u q usfo rofo :
  sound s → users_get s u = Some usfo → roles_get s q = Some rofo →
  let s1 := run (delUserRole u q) s in
  (delUserRole u q s).1 = Ok tt
  ∧ (∃ held0 held, getUserRoles s u = Ok held0 ∧ getUserRoles s1 u = Ok held
       ∧ (Some q ∉ held) ∧ ∀ ro, ro ≠ Some q → (ro ∈ held ↔ ro ∈ held0))
  ∧ ∀ v, v ≠ u →
      getUserRules s1 v = getUserRules s v
      ∧ ∀ p, (isUserAllowed v p s1).1 = (isUserAllowed v p s).1.
Proof.
  intros Hs Hu Hq s1.
  pose proof (sound_delUserRole s u q Hs) as Hs1. simpl in Hs1. fold s1 in Hs1.
  pose proof Hs as (Hok & Hnames & _). pose proof Hs1 as (Hok1 & Hnames1 & _).
  destruct (delUserRole_parts s u q Hs) as (Hsh & Husers & Hnames0 & Hothers);
    [by rewrite Hu|].
  set (s0 := set_core (delTufoByProp (core s) "auth:userrole" (u +:+ ":" +:+ q)) s) in *.
  assert (delUserRole u q s = _bumpUserRules u s0) as Hcall.
  { unfold delUserRole. unfold_M. unfold _reqUserTufo, _reqRoleTufo. by rewrite Hu, Hq. }
  assert (s1 = run (_bumpUserRules u) s0) as Hs1eq by (unfold s1, run; by rewrite Hcall).
  assert (same_store s0 s1) as Hsame by (rewrite Hs1eq; apply same_store_bump).
  assert (auth_ok s0) as Hok0 by by eapply same_store_auth_ok_back.
  assert (users_get s1 u = Some usfo) as Hu1.
  { by rewrite (same_store_users_get s0 s1), Husers. }
  assert (core s1 = core s0) as Hcore by apply Hsame.
  assert (colon_free u = true) as Hcf.
  { apply (user_colon_free s); [done|done|]. by rewrite Hu. }
  assert (∀ l : tufo, l ∈ tufos (core s) → l.2 !! "auth:userrole:user" = Some u →
            (l.2 !! "auth:userrole" = Some (u +:+ ":" +:+ q)
             ↔ l.2 !! "auth:userrole:role" = Some q)) as Hkey.
  { intros l Hl Hlu.
    destruct (link_shape_of s l Hnames Hl) as (u' & q' & Hk & Hku & Hkq & Hex);
      [right; left; by eexists|].
    assert (u' = u) as -> by congruence. rewrite Hk, Hkq. split.
    - intros [= Heq]. apply key_inj in Heq as [_ ->]; done.
    - by intros [= ->]. }
  assert (∀ l : tufo, l ∈ getTufosByProp (core s1) "auth:userrole:user" u ↔
            l ∈ getTufosByProp (core s) "auth:userrole:user" u
            ∧ l.2 !! "auth:userrole:role" ≠ Some q) as Hlinks.
  { intros l. unfold getTufosByProp. rewrite Hcore. destruct Hsh as (-> & _).
    rewrite !list_elem_of_filter. split.
    - intros (Hlu & Hnd & Hl). split; [done|]. intros Hr. apply Hnd. by apply Hkey.
    - intros [[Hlu Hl] Hr]. split_and!; [done| |done]. intros Hd. apply Hr. by apply Hkey. }
  split_and!.
  - rewrite Hcall. apply bump_result; [|done]. rewrite Husers. by rewrite Hu.
  - eexists _, _. split_and!.
    + unfold getUserRoles, _reqUserTufo. by rewrite Hu.
    + unfold getUserRoles, _reqUserTufo. by rewrite Hu1.
    + intros (l & Hr & [_ Hnq]%Hlinks)%list_elem_of_fmap. by apply Hnq.
    + intros ro Hro. rewrite !list_elem_of_fmap. split.
      * intros (l & -> & [Hl _]%Hlinks). by exists l.
      * intros (l & -> & Hl). exists l. split; [done|]. apply Hlinks. split; [done|].
        done.
  - intros v Hne.
    assert (getUserRules s1 v = getUserRules s v) as Hrules.
    { rewrite (same_store_getUserRules s0 s1) by done. by apply Hothers. }
    split; [done|]. intros p.
    by rewrite (sound_answer s1 v p Hs1), (sound_answer s v p Hs), Hrules.
Qed.

(** X14. In every state that calls with user names without a colon lead
    to, for an existing user and an existing role: [delUserRole(u, q)]
    returns; then [getUserRoles(u)] lists the roles it listed before
    except [q], and for every other user [getUserRules] and the answers
    of [isUserAllowed] are what they were. *)
Theorem delUserRole_revokes (cs : list call) (u q : string) (usfo rofo : tufo) :
  forallb call_ok cs = true →
  users_get (after_calls cs) u = Some usfo →
  roles_get (after_calls cs) q = Some rofo →
  let s := after_calls cs in
  let s1 := run (delUserRole u q) s in
  (delUserRole u q s).1 = Ok tt
  ∧ (∃ held0 held, getUserRoles s u = Ok held0 ∧ getUserRoles s1 u = Ok held
       ∧ (Some q ∉ held) ∧ ∀ ro, ro ≠ Some q → (ro ∈ held ↔ ro ∈ held0))
  ∧ ∀ v, v ≠ u →
      getUserRules s1 v = getUserRules s v
      ∧ ∀ p, (isUserAllowed v p s1).1 = (isUserAllowed v p s).1.
Proof.
  intros Hcs Hu Hq. apply (sound_revoke _ u q usfo rofo); [by apply sound_calls|done|done].
Qed.

Lemma delUserRole_revokes_witness :
  (delUserRole "visi" "admin"
     (after_calls [AddUser "visi" []; AddRole "admin" []; AddUserRole "visi" "admin"])).1
  = Ok tt.
Proof.
  refine (proj1 (delUserRole_revokes
                   [AddUser "visi" []; AddRole "admin" []; AddUserRole "visi" "admin"]
                   "visi" "admin" (0%N, form_props "auth:user" "visi" [])
                   (1%N, form_props "auth:role" "admin" []) _ _ _)).
  - reflexivity.
  - by vm_compute.
  - by vm_compute.
Defined.

(** [delUser] past its check, in a sound state. *)
Lemma sound_forget_user s u usfo :
  sound s → users_get s u = Some usfo →
  let s1 := run (delUser u) s in
  (delUser u s).1 = Ok tt
  ∧ getUser s1 u = None
  ∧ rulescache s1 !! u = None
  ∧ (∀ p, (isUserAllowed u p s1).1 = Raise (NoSuchUser u))
  ∧ (∀ q, Some u ∉ linked_users s1 q)
  ∧ ∀ v, v ≠ u →
      getUserRules s1 v = getUserRules s v
      ∧ ∀ p, (isUserAllowed v p s1).1 = (isUserAllowed v p s).1.
Proof.
  intros Hs Hu s1.
  pose proof (sound_delUser s u Hs) as Hs1. simpl in Hs1. fold s1 in Hs1.
  destruct (delUser_parts s u Hs) as (Hsh & Husers & Hnames0 & Hothers).
  set (c2 := delTufosByProp (delTufoByProp (core s) "auth:user" u) "auth:userrole:user" u) in *.
  assert (delUser u s
          = (Ok tt, set_rulescache (delete u (rulescache s))
                      (set_users (delete u (users s)) (set_core c2 s)))) as Hcall.
  { unfold delUser. unfold_M. unfold _reqUserTufo. by rewrite Hu. }
  assert (s1 = set_rulescache (delete u (rulescache s))
                 (set_users (delete u (users s)) (set_core c2 s))) as Hs1eq.
  { unfold s1, run. by rewrite Hcall. }
  assert (∀ x : tufo, x ∈ tufos (core s1) →
            x.2 !! "auth:user" ≠ Some u ∧ x.2 !! "auth:userrole:user" ≠ Some u) as Hgone.
  { intros x. rewrite Hs1eq. simpl. destruct Hsh as (-> & _).
    intros [Hnd _]%list_elem_of_filter. tauto. }
  assert (users_get s1 u = None) as Hu1.
  { unfold users_get, tpc_get. rewrite Hs1eq at 1. simpl. rewrite lookup_delete_eq.
    unfold getTufoByProp, getTufosByProp. rewrite filter_none; [done|].
    intros x Hx. by apply Hgone. }
  split_and!.
  - by rewrite Hcall.
  - done.
  - rewrite Hs1eq. simpl. by rewrite lookup_delete_eq.
  - intros p. rewrite (sound_answer s1 u p Hs1).
    unfold getUserRules, _reqUserTufo. by rewrite Hu1.
  - intros q (l & Hlu & [_ Hl]%list_elem_of_filter)%list_elem_of_fmap.
    by destruct (Hgone l Hl).
  - intros v Hne.
    assert (getUserRules s1 v = getUserRules s v) as Hrules.
    { rewrite Hs1eq. by apply Hothers. }
    split; [done|]. intros p.
    by rewrite (sound_answer s1 v p Hs1), (sound_answer s v p Hs), Hrules.
Qed.

(** X15. In every state that calls with user names without a colon lead
    to, for an existing user: [delUser(u)] returns; then [getUser(u)]
    finds nobody, [isUserAllowed(u, p)] raises [NoSuchUser(u)] although
    an instance was cached for [u] before, no role lists [u] among its
    users, and for every other user [getUserRules] and the answers of
    [isUserAllowed] are what they were. *)
Theorem delUser_forgets (cs : list call) (u : string) (usfo : tufo) :
  forallb call_ok cs = true →
  users_get (after_calls cs) u = Some usfo →
  let s := after_calls cs in
  let s1 := run (delUser u) s in
  (delUser u s).1 = Ok tt
  ∧ getUser s1 u = None
  ∧ rulescache s1 !! u = None
  ∧ (∀ p, (isUserAllowed u p s1).1 = Raise (NoSuchUser u))
  ∧ (∀ q, Some u ∉ linked_users s1 q)
  ∧ ∀ v, v ≠ u →
      getUserRules s1 v = getUserRules s v
      ∧ ∀ p, (isUserAllowed v p s1).1 = (isUserAllowed v p s).1.
Proof. intros Hcs Hu. apply (sound_forget_user _ u usfo); [by apply sound_calls|done]. Qed.

Lemma delUser_forgets_witness :
  (delUser "visi"
     (after_calls [AddUser "visi" []; AddUserRule "visi" "foo.*";
                   IsUserAllowed "visi" "foo.bar"])).1 = Ok tt.
Proof.
  refine (proj1 (delUser_forgets
                   [AddUser "visi" []; AddUserRule "visi" "foo.*";
                    IsUserAllowed "visi" "foo.bar"]
                   "visi" (0%N, form_props "auth:user" "visi" []) _ _)).
  - reflexivity.
  - by vm_compute.
Defined.

(** [delRole] past its check, in a sound state. *)
Lemma sound_forget_role s q rofo :
  sound s → roles_get s q = Some rofo →
  let s1 := run (delRole q) s in
  (delRole q s).1 = Ok tt
  ∧ roles_get s1 q = None
  ∧ (∀ v held, getUserRoles s1 v = Ok held → Some q ∉ held)
  ∧ ∀ v, Some v ∉ linked_users s q →
      getUserRules s1 v = getUserRules s v
      ∧ ∀ p, (isUserAllowed v p s1).1 = (isUserAllowed v p s).1.
Proof.
  intros Hs Hq s1.
  pose proof (sound_delRole s q Hs) as Hs1. simpl in Hs1. fold s1 in Hs1.
  pose proof Hs1 as (Hok1 & _).
  destruct (delRole_parts s q Hs) as (Hsh & Husers & Hnames0 & Hothers).
  pose proof (delRole_bumps s q Hs) as Hbumps.
  set (c2 := delTufosByProp (delTufosByProp (core s) "auth:role" q) "auth:userrole:role" q) in *.
  set (s0 := set_roles (delete q (roles s)) (set_core c2 s)) in *.
  assert (delRole q s = bump_each (linked_users s q) s0) as Hcall.
  { unfold delRole. unfold_M. unfold _reqRoleTufo. by rewrite Hq. }
  assert (s1 = run (bump_each (linked_users s q)) s0) as Hs1eq.
  { unfold s1, run. by rewrite Hcall. }
  assert (same_store s0 s1) as Hsame by (rewrite Hs1eq; apply same_store_bump_each).
  assert (core s1 = c2) as Hcore by apply Hsame.
  assert (∀ x : tufo, x ∈ tufos (core s1) →
            x.2 !! "auth:role" ≠ Some q ∧ x.2 !! "auth:userrole:role" ≠ Some q) as Hgone.
  { intros x. rewrite Hcore. destruct Hsh as (-> & _).
    intros [Hnd _]%list_elem_of_filter. tauto. }
  split_and!.
  - rewrite Hcall. apply Hbumps. rewrite Hs1eq in Hok1. exact Hok1.
  - unfold roles_get, tpc_get. destruct Hsame as (_ & _ & -> & _). simpl.
    rewrite lookup_delete_eq. unfold getTufoByProp, getTufosByProp.
    rewrite filter_none; [done|]. intros x Hx. by apply Hgone.
  - intros v held. unfold getUserRoles. destruct (_reqUserTufo s1 v); [|done].
    intros [= <-] (l & Hr & [_ Hl]%list_elem_of_filter)%list_elem_of_fmap.
    by destruct (Hgone l Hl).
  - intros v Hne.
    assert (getUserRules s1 v = getUserRules s v) as Hrules.
    { rewrite (same_store_getUserRules s0 s1) by done. by apply Hothers. }
    split; [done|]. intros p.
    by rewrite (sound_answer s1 v p Hs1), (sound_answer s v p Hs), Hrules.
Qed.

(** X16. In every state that calls with user names without a colon lead
    to, for an existing role: [delRole(q)] returns; then no role is found
    under [q], no user's [getUserRoles] lists [q] (the links to the role
    are gone with it), and for every user that did not hold the role
    [getUserRules] and the answers of [isUserAllowed] are what they
    were. *)
Theorem delRole_forgets (cs : list call) (q : string) (rofo : tufo) :
  forallb call_ok cs = true →
  roles_get (after_calls cs) q = Some rofo →
  let s := after_calls cs in
  let s1 := run (delRole q) s in
  (delRole q s).1 = Ok tt
  ∧ roles_get s1 q = None
  ∧ (∀ v held, getUserRoles s1 v = Ok held → Some q ∉ held)
  ∧ ∀ v, Some v ∉ linked_users s q →
      getUserRules s1 v = getUserRules s v
      ∧ ∀ p, (isUserAllowed v p s1).1 = (isUserAllowed v p s).1.
Proof. intros Hcs Hq. apply (sound_forget_role _ q rofo); [by apply sound_calls|done]. Qed.

Lemma delRole_forgets_witness :
  (delRole "admin"
     (after_calls [AddUser "visi" []; AddRole "admin" []; AddUserRole "visi" "admin"])).1
  = Ok tt.
Proof.
  refine (proj1 (delRole_forgets
                   [AddUser "visi" []; AddRole "admin" []; AddUserRole "visi" "admin"]
                   "admin" (1%N, form_props "auth:role" "admin" []) _ _)).
  - reflexivity.
  - by vm_compute.
Defined.
